(** * Morse transcoder: the symbol table, [encodeText] and [decodeText]

    A shallow embedding of the transcoding core of the two program
    variants of the repository, [main.c] and [morse.c], and the proofs of
    the properties stated about them.  The two variants differ in their
    table and in the separator flag of [encodeText]; the lookups and
    [decodeText] are the same code, and are written once, over a table.

    Modelling conventions.
    - A [char] is an [ascii]; a C string in memory is a [list ascii], read
      up to its first NUL byte ([cstring]).  An argument of type
      [const char *] is an [option]: [None] is the NULL pointer.
    - [encodeText] returns the string it has built; its output buffer, of
      [strlen text * 10] bytes, is not part of the model, and [strcat]
      appends to a string.  For a text of at least one byte the string and
      its terminator fit that buffer ([encodeText_fits]).
    - [decodeText] is modelled on its two buffers, [result] (of
      [strlen morse + 1] bytes, as allocated) and [codeBuf] (20 bytes):
      every store is checked against the size of its buffer, and a store
      outside it ends the run with a [fault].  The bytes [malloc] returns
      are arbitrary: they are the section variable [heap].
    - [malloc] does not fail in the model.
    - [size_t] indices are [nat] (they never exceed the input length), the
      [int spaceCount] is a [Z] (it never exceeds 3).

    Around the core, the file models [encodeText] on its buffer
    ([encodeText_mem]), the readers [readFromStdin] and [readFileContent],
    [writeFileContent], [parseCommandLine] of [main.c] and the two [main]
    functions.
    - What the program finds outside is a [world]: whether the standard
      input is a terminal, what the calls of [fread] deliver, which paths
      [access] and [fopen] accept, what [ftell] answers, how many bytes
      [fwrite] accepts and how many are in the file after [fclose], and
      the bytes in fresh memory.  A [long] and a [size_t] have 64 bits.  What
      it does to the outside is a list of [effect]s, followed by the exit
      status.  The texts of [displayHelp] and [displayProgrammerInfo] are
      left out: each is one effect.
    - The stores of the readers are checked like those of [decodeText]: a
      run that stores outside a buffer ends in [None].
    - [parseCommandLine] of [morse.c] is built on [getopt_long] and is not
      modelled: [morse_program.main] starts from its result. *)

From Stdlib Require Import Ascii String ZArith Lia List Bool.
From stdpp Require Import base tactics option list strings.
Import ListNotations.

Local Open Scope Z_scope.
Local Open Scope nat_scope.
Local Open Scope list_scope.

(** ** Characters and C strings *)

Definition NUL : ascii := "000"%char.
Definition LF : ascii := "010"%char.
Definition CR : ascii := "013"%char.
Definition SP : ascii := " "%char.
Definition SLASH : ascii := "/"%char.
Definition STAR : ascii := "*"%char.

(** The bytes of a string literal. *)
Definition str (s : string) : list ascii := list_ascii_of_string s.

(** The C string held in [buf]: the bytes before the first NUL. *)
Fixpoint cstring (buf : list ascii) : list ascii :=
  match buf with
  | [] => []
  | c :: rest => if Ascii.eqb c NUL then [] else c :: cstring rest
  end.

Definition strlen (buf : list ascii) : nat := length (cstring buf).

(** [strcmp (a, b) == 0] *)
Definition strcmp_eq (a b : list ascii) : bool :=
  bool_decide (cstring a = cstring b).

(** [strcat (dest, src)] on a buffer large enough: the string of [src] is
    copied behind the string [dest]. *)
Definition strcat (dest src : list ascii) : list ascii := dest ++ cstring src.

(** [toupper] in the "C" locale (the program never calls [setlocale]):
    the letters a-z move to A-Z, every other byte is unchanged. *)
Definition toupper (c : ascii) : ascii :=
  let n := nat_of_ascii c in
  if (97 <=? n) && (n <=? 122) then ascii_of_nat (n - 32) else c.

(** ** The symbol table *)

Record MorseMapping := { character : ascii; code : string }.

Section Transcoder.

Variable MORSE_TABLE : list MorseMapping.

(** [getCharacterCode]: linear scan, first entry whose character is
    [toupper c]; [None] is the NULL pointer. *)
Fixpoint scan_character (tbl : list MorseMapping) (c : ascii) : option string :=
  match tbl with
  | [] => None
  | e :: rest =>
      if Ascii.eqb (character e) c then Some (code e) else scan_character rest c
  end.

Definition getCharacterCode (c : ascii) : option string :=
  scan_character MORSE_TABLE (toupper c).

(** [getCodeCharacter]: linear scan, first entry whose code compares equal
    to the C string [code]; NUL when there is none. *)
Fixpoint scan_code (tbl : list MorseMapping) (code0 : list ascii) : ascii :=
  match tbl with
  | [] => NUL
  | e :: rest =>
      if strcmp_eq (str (code e)) code0 then character e else scan_code rest code0
  end.

Definition getCodeCharacter (code0 : list ascii) : ascii :=
  scan_code MORSE_TABLE code0.

(** ** [encodeText] *)

Record estate := {
  e_result : list ascii;
  lastWasSpace : bool;
  firstChar : bool
}.

(** One iteration of the loop of [encodeText] in [morse.c]. *)
Definition encode_step (useSlashWordspacer : bool) (currentChar : ascii)
    (st : estate) : estate :=
  if Ascii.eqb currentChar LF || Ascii.eqb currentChar CR then st
  else if Ascii.eqb currentChar SP then
    {| e_result :=
         if negb (lastWasSpace st) && negb (firstChar st) then
           if useSlashWordspacer then strcat (e_result st) (str " / ")
           else strcat (e_result st) (str "   ")
         else e_result st;
       lastWasSpace := true;
       firstChar := firstChar st |}
  else
    let r1 :=
      if negb (firstChar st) && negb (lastWasSpace st)
      then strcat (e_result st) (str " ") else e_result st in
    let r2 :=
      match getCharacterCode currentChar with
      | Some code0 => strcat r1 (str code0)
      | None => strcat r1 (str "*")
      end in
    {| e_result := r2; lastWasSpace := false; firstChar := false |}.

Definition encode_init : estate :=
  {| e_result := []; lastWasSpace := false; firstChar := true |}.

Definition encode_loop (useSlashWordspacer : bool) (bytes : list ascii)
    (st : estate) : estate :=
  fold_left (fun s c => encode_step useSlashWordspacer c s) bytes st.

(** [encodeText] of [morse.c]; [None] is the NULL pointer. *)
Definition encodeText (text : option (list ascii)) (useSlashWordspacer : bool)
    : list ascii :=
  match text with
  | None => str ""
  | Some t => e_result (encode_loop useSlashWordspacer (cstring t) encode_init)
  end.

(** One iteration of the loop of [encodeText] in [main.c], which has no
    separator flag. *)
Definition encode_step_main (currentChar : ascii) (st : estate) : estate :=
  if Ascii.eqb currentChar LF || Ascii.eqb currentChar CR then st
  else if Ascii.eqb currentChar SP then
    {| e_result :=
         if negb (lastWasSpace st) && negb (firstChar st)
         then strcat (e_result st) (str "   ") else e_result st;
       lastWasSpace := true;
       firstChar := firstChar st |}
  else
    let r1 :=
      if negb (firstChar st) && negb (lastWasSpace st)
      then strcat (e_result st) (str " ") else e_result st in
    let r2 :=
      match getCharacterCode currentChar with
      | Some code0 => strcat r1 (str code0)
      | None => strcat r1 (str "*")
      end in
    {| e_result := r2; lastWasSpace := false; firstChar := false |}.

Definition encodeText_main (text : option (list ascii)) : list ascii :=
  match text with
  | None => str ""
  | Some t =>
      e_result (fold_left (fun s c => encode_step_main c s) (cstring t) encode_init)
  end.

(** ** [decodeText] *)

(** A store outside [result], or outside [codeBuf]. *)
Inductive fault := ResultOverflow | CodeBufOverflow.

Definition checked (A : Type) : Type := (fault + A)%type.

Definition bind {A B : Type} (m : checked A) (k : A -> checked B) : checked B :=
  match m with
  | inl f => inl f
  | inr a => k a
  end.

Notation "x <- m ;; k" := (bind m (fun x => k))
  (at level 100, m at next level, right associativity, only parsing).

(** [buf[i] = c], checked against the size of [buf]. *)
Definition store (f : fault) (buf : list ascii) (i : nat) (c : ascii)
    : checked (list ascii) :=
  if i <? length buf then inr (<[i:=c]> buf) else inl f.

(** [malloc (n)]: [n] bytes of whatever the heap holds. *)
Variable heap : nat -> ascii.

Definition malloc (n : nat) : list ascii := map heap (seq 0 n).

Record dstate := {
  result : list ascii;
  resultIndex : nat;
  codeBuf : list ascii;
  codeBufIndex : nat;
  spaceCount : Z
}.

Definition set_spaceCount (n : Z) (st : dstate) : dstate :=
  {| result := result st; resultIndex := resultIndex st;
     codeBuf := codeBuf st; codeBufIndex := codeBufIndex st;
     spaceCount := n |}.

Definition set_codeBufIndex (n : nat) (st : dstate) : dstate :=
  {| result := result st; resultIndex := resultIndex st;
     codeBuf := codeBuf st; codeBufIndex := n;
     spaceCount := spaceCount st |}.

(** [result[resultIndex++] = c; result[resultIndex] = '\0';] *)
Definition put_char (c : ascii) (st : dstate) : checked dstate :=
  r1 <- store ResultOverflow (result st) (resultIndex st) c ;;
  r2 <- store ResultOverflow r1 (S (resultIndex st)) NUL ;;
  inr {| result := r2; resultIndex := S (resultIndex st);
         codeBuf := codeBuf st; codeBufIndex := codeBufIndex st;
         spaceCount := spaceCount st |}.

(** [codeBuf[codeBufIndex] = '\0';] *)
Definition terminate_code (st : dstate) : checked dstate :=
  cb <- store CodeBufOverflow (codeBuf st) (codeBufIndex st) NUL ;;
  inr {| result := result st; resultIndex := resultIndex st;
         codeBuf := cb; codeBufIndex := codeBufIndex st;
         spaceCount := spaceCount st |}.

(** The block the source repeats three times: terminate [codeBuf], look
    it up, and append the character when there is one. *)
Definition flush_code (st : dstate) : checked dstate :=
  st1 <- terminate_code st ;;
  let c := getCodeCharacter (codeBuf st1) in
  if negb (Ascii.eqb c NUL) then put_char c st1 else inr st1.

(** One iteration of the loop of [decodeText] on the byte [morse[i]]. *)
Definition decode_step (c : ascii) (st : dstate) : checked dstate :=
  if Ascii.eqb c LF || Ascii.eqb c CR then inr st
  else if Ascii.eqb c SP then
    let st1 := set_spaceCount (spaceCount st + 1)%Z st in
    if (spaceCount st1 =? 1)%Z && (0 <? codeBufIndex st1) then
      st2 <- flush_code st1 ;;
      inr (set_codeBufIndex 0 st2)
    else if (spaceCount st1 =? 3)%Z then
      st2 <- put_char SP st1 ;;
      inr (set_spaceCount 0%Z st2)
    else inr st1
  else if Ascii.eqb c SLASH then
    st1 <-
      (if 0 <? codeBufIndex st then
         st' <- flush_code st ;;
         inr (set_codeBufIndex 0 st')
       else inr st) ;;
    st2 <- put_char SP st1 ;;
    inr (set_spaceCount 0%Z st2)
  else
    let st1 := set_spaceCount 0%Z st in
    if codeBufIndex st1 <? length (codeBuf st1) - 1 then
      cb <- store CodeBufOverflow (codeBuf st1) (codeBufIndex st1) c ;;
      inr {| result := result st1; resultIndex := resultIndex st1;
             codeBuf := cb; codeBufIndex := S (codeBufIndex st1);
             spaceCount := spaceCount st1 |}
    else inr st1.

Fixpoint decode_loop (bytes : list ascii) (st : dstate) : checked dstate :=
  match bytes with
  | [] => inr st
  | c :: rest => st' <- decode_step c st ;; decode_loop rest st'
  end.

(** The state at the head of the loop: [result] allocated and terminated,
    [codeBuf] zeroed. *)
Definition decode_init (morse : list ascii) : checked dstate :=
  let maxOutputSize := strlen morse + 1 in
  r0 <- store ResultOverflow (malloc maxOutputSize) 0 NUL ;;
  inr {| result := r0; resultIndex := 0;
         codeBuf := replicate 20 NUL; codeBufIndex := 0;
         spaceCount := 0%Z |}.

(** [decodeText]: the buffer it returns; [None] is the NULL pointer, for
    which the source returns a copy of the empty string. *)
Definition decodeText (morse : option (list ascii)) : checked (list ascii) :=
  match morse with
  | None => inr [NUL]
  | Some m =>
      st0 <- decode_init m ;;
      st <- decode_loop (cstring m) st0 ;;
      st' <- (if 0 <? codeBufIndex st then flush_code st else inr st) ;;
      inr (result st')
  end.

(** The string a caller reads from the returned buffer. *)
Definition decode (morse : list ascii) : checked (list ascii) :=
  buf <- decodeText (Some morse) ;; inr (cstring buf).

End Transcoder.

(** ** The two variants *)

Module main_c.

Definition MORSE_TABLE : list MorseMapping := [
  {| character := "A"; code := ".-" |};
  {| character := "B"; code := "-..." |};
  {| character := "C"; code := "-.-." |};
  {| character := "D"; code := "-.." |};
  {| character := "E"; code := "." |};
  {| character := "F"; code := "..-." |};
  {| character := "G"; code := "--." |};
  {| character := "H"; code := "...." |};
  {| character := "I"; code := ".." |};
  {| character := "J"; code := ".---" |};
  {| character := "K"; code := "-.-" |};
  {| character := "L"; code := ".-.." |};
  {| character := "M"; code := "--" |};
  {| character := "N"; code := "-." |};
  {| character := "O"; code := "---" |};
  {| character := "P"; code := ".--." |};
  {| character := "Q"; code := "--.-" |};
  {| character := "R"; code := ".-." |};
  {| character := "S"; code := "..." |};
  {| character := "T"; code := "-" |};
  {| character := "U"; code := "..-" |};
  {| character := "V"; code := "...-" |};
  {| character := "W"; code := ".--" |};
  {| character := "X"; code := "-..-" |};
  {| character := "Y"; code := "-.--" |};
  {| character := "Z"; code := "--.." |};
  {| character := "0"; code := "-----" |};
  {| character := "1"; code := ".----" |};
  {| character := "2"; code := "..---" |};
  {| character := "3"; code := "...--" |};
  {| character := "4"; code := "....-" |};
  {| character := "5"; code := "....." |};
  {| character := "6"; code := "-...." |};
  {| character := "7"; code := "--..." |};
  {| character := "8"; code := "--.." |};
  {| character := "9"; code := "---.." |};
  {| character := "."; code := ".-.-.-" |};
  {| character := ","; code := "--..--" |};
  {| character := "?"; code := "..--.." |};
  {| character := "!"; code := "-.-.--" |};
  {| character := " "; code := "/" |};
  {| character := ":"; code := "---..." |};
  {| character := ";"; code := "-.-.-." |};
  {| character := "="; code := "-...-" |};
  {| character := "-"; code := "-....-" |};
  {| character := "+"; code := ".-.-." |};
  {| character := "_"; code := "..--.-" |};
  {| character := "("; code := "-.--." |};
  {| character := ")"; code := "-.--.-" |};
  {| character := "/"; code := "-..-." |};
  {| character := "@"; code := ".--.-." |} ].

Definition getCharacterCode := getCharacterCode MORSE_TABLE.
Definition getCodeCharacter := getCodeCharacter MORSE_TABLE.
Definition encodeText := encodeText_main MORSE_TABLE.
Definition decodeText := decodeText MORSE_TABLE.

(** [encode] and [decode] on strings, as the properties name them. *)
Definition encode (text : list ascii) : list ascii := encodeText (Some text).
Definition decode := decode MORSE_TABLE.

End main_c.

Module morse_c.

Definition MORSE_TABLE : list MorseMapping := [
  {| character := "A"; code := ".-" |};
  {| character := "B"; code := "-..." |};
  {| character := "C"; code := "-.-." |};
  {| character := "D"; code := "-.." |};
  {| character := "E"; code := "." |};
  {| character := "F"; code := "..-." |};
  {| character := "G"; code := "--." |};
  {| character := "H"; code := "...." |};
  {| character := "I"; code := ".." |};
  {| character := "J"; code := ".---" |};
  {| character := "K"; code := "-.-" |};
  {| character := "L"; code := ".-.." |};
  {| character := "M"; code := "--" |};
  {| character := "N"; code := "-." |};
  {| character := "O"; code := "---" |};
  {| character := "P"; code := ".--." |};
  {| character := "Q"; code := "--.-" |};
  {| character := "R"; code := ".-." |};
  {| character := "S"; code := "..." |};
  {| character := "T"; code := "-" |};
  {| character := "U"; code := "..-" |};
  {| character := "V"; code := "...-" |};
  {| character := "W"; code := ".--" |};
  {| character := "X"; code := "-..-" |};
  {| character := "Y"; code := "-.--" |};
  {| character := "Z"; code := "--.." |};
  {| character := "0"; code := "-----" |};
  {| character := "1"; code := ".----" |};
  {| character := "2"; code := "..---" |};
  {| character := "3"; code := "...--" |};
  {| character := "4"; code := "....-" |};
  {| character := "5"; code := "....." |};
  {| character := "6"; code := "-...." |};
  {| character := "7"; code := "--..." |};
  {| character := "8"; code := "---.." |};
  {| character := "9"; code := "----." |};
  {| character := "."; code := ".-.-.-" |};
  {| character := ","; code := "--..--" |};
  {| character := ":"; code := "---..." |};
  {| character := ";"; code := "-.-.-." |};
  {| character := "?"; code := "..--.." |};
  {| character := "!"; code := "-.-.--" |};
  {| character := "="; code := "-...-" |};
  {| character := "-"; code := "-....-" |};
  {| character := "+"; code := ".-.-." |};
  {| character := "_"; code := "..--.-" |};
  {| character := "("; code := "-.--." |};
  {| character := ")"; code := "-.--.-" |};
  {| character := "/"; code := "-..-." |};
  {| character := "@"; code := ".--.-." |};
  {| character := " "; code := "/" |} ].

Definition getCharacterCode := getCharacterCode MORSE_TABLE.
Definition getCodeCharacter := getCodeCharacter MORSE_TABLE.
Definition encodeText := encodeText MORSE_TABLE.
Definition decodeText := decodeText MORSE_TABLE.

(** [encode] and [decode] on strings, as the properties name them. *)
Definition encode (text : list ascii) (slash : bool) : list ascii :=
  encodeText (Some text) slash.
Definition decode := decode MORSE_TABLE.

End morse_c.

(** ** Views of the decoder state *)

(** No byte of [l] is the terminator. *)
Definition nonul (l : list ascii) : Prop := Forall (fun c => c <> NUL) l.

(** The text written so far, and the code accumulated so far. *)
Definition output (st : dstate) : list ascii := take (resultIndex st) (result st).
Definition pending (st : dstate) : list ascii := take (codeBufIndex st) (codeBuf st).

(** What the lookup of a code appends to the text: its character, or
    nothing when no entry matches. *)
Definition looked_up (T : list MorseMapping) (code0 : list ascii) : list ascii :=
  let c := getCodeCharacter T code0 in
  if Ascii.eqb c NUL then [] else [c].

(** What flushing the pending code of [st] appends: nothing when no code
    is pending. *)
Definition flushed (T : list MorseMapping) (st : dstate) : list ascii :=
  if codeBufIndex st =? 0 then [] else looked_up T (pending st).

(** The decoder state as the loop sees it: the text written, the code
    accumulated, the space counter. *)
Definition view : Type := (list ascii * list ascii * Z)%type.

(** The view of a state of [decodeText]. *)
Definition view_of (st : dstate) : view := (output st, pending st, spaceCount st).

(** The effect of one iteration of the loop of [decodeText] on the view. *)
Definition view_step (T : list MorseMapping) (c : ascii) (v : view) : view :=
  let '(out, code0, sc) := v in
  if Ascii.eqb c LF || Ascii.eqb c CR then v
  else if Ascii.eqb c SP then
    if (sc + 1 =? 1)%Z && (0 <? length code0) then
      (out ++ looked_up T code0, [], (sc + 1)%Z)
    else if (sc + 1 =? 3)%Z then (out ++ [SP], code0, 0%Z)
    else (out, code0, (sc + 1)%Z)
  else if Ascii.eqb c SLASH then
    (out ++ (if 0 <? length code0 then looked_up T code0 else []) ++ [SP], [], 0%Z)
  else
    (out, if length code0 <? 19 then code0 ++ [c] else code0, 0%Z).

(** The loop of [decodeText] on views, and the view at its head. *)
Definition view_loop (T : list MorseMapping) (bytes : list ascii) (v : view) : view :=
  fold_left (fun v c => view_step T c v) bytes v.

Definition view_init : view := ([], [], 0%Z).

(** The text returned once the input is exhausted. *)
Definition view_final (T : list MorseMapping) (v : view) : list ascii :=
  let '(out, code0, _) := v in
  out ++ (if 0 <? length code0 then looked_up T code0 else []).

(** The state of [decodeText] on [morse] after the bytes [prefix]. *)
Definition run (T : list MorseMapping) (heap : nat -> ascii)
    (morse prefix : list ascii) : checked dstate :=
  bind (decode_init heap morse) (decode_loop T prefix).

(** The invariant of the loop of [decodeText] on an input of [n] bytes,
    [k] of them read. *)
Record wf (n k : nat) (st : dstate) : Prop := {
  wf_result : length (result st) = n + 1;
  wf_codeBuf : length (codeBuf st) = 20;
  wf_index : codeBufIndex st <= 19;
  wf_budget : resultIndex st + (if codeBufIndex st =? 0 then 0 else 1) <= k;
  wf_term : result st !! resultIndex st = Some NUL;
  wf_output : nonul (output st);
  wf_pending : nonul (pending st);
  wf_space : (0 <= spaceCount st <= 2)%Z
}.

(** ** Vocabulary of the properties *)

(** The bytes both loops skip. *)
Definition is_newline (c : ascii) : bool := Ascii.eqb c LF || Ascii.eqb c CR.

(** [t] without its line feeds and carriage returns. *)
Definition strip_newlines (t : list ascii) : list ascii :=
  List.filter (fun c => negb (is_newline c)) t.

(** A byte that [encodeText] sends to the table: not the terminator, not
    a newline or carriage return, not a space. *)
Definition plain (c : ascii) : Prop :=
  c <> NUL /\ c <> LF /\ c <> CR /\ c <> SP.

(** No entry of the table has the character [toupper c]. *)
Definition outside (T : list MorseMapping) (c : ascii) : Prop :=
  Forall (fun e => character e <> toupper c) T.

(** [parts] joined by [sep]. *)
Fixpoint join (sep : list ascii) (parts : list (list ascii)) : list ascii :=
  match parts with
  | [] => []
  | [p] => p
  | p :: rest => p ++ sep ++ join sep rest
  end.

(** What [encodeText] appends for one character: its code, or a star. *)
Definition token (T : list MorseMapping) (c : ascii) : list ascii :=
  match getCharacterCode T c with
  | Some code0 => cstring (str code0)
  | None => [STAR]
  end.

(** A word: the tokens of its characters, one space between two. *)
Definition encode_word (T : list MorseMapping) (w : list ascii) : list ascii :=
  join [SP] (map (token T) w).

(** The two word separators, and the space [encodeText] puts before a
    character that follows a character. *)
Definition word_separator (slash : bool) : list ascii :=
  if slash then str " / " else str "   ".

Definition letter_gap (st : estate) : list ascii :=
  if negb (firstChar st) && negb (lastWasSpace st) then [SP] else [].

(** The entry [{' ', "/"}]. *)
Definition is_space_entry (e : MorseMapping) : bool :=
  Ascii.eqb (character e) SP && String.eqb (code e) "/".

(** The table without that entry. *)
Definition without_space_entry (T : list MorseMapping) : list MorseMapping :=
  List.filter (fun e => negb (is_space_entry e)) T.

(** A byte that [decodeText] accumulates into [codeBuf]. *)
Definition code_byte (c : ascii) : Prop :=
  c <> NUL /\ c <> LF /\ c <> CR /\ c <> SP /\ c <> SLASH.

(** The accumulated code never holds a slash. *)
Definition slash_free (v : view) : Prop := ~ In SLASH (snd (fst v)).

(** The characters the program documents as supported. *)
Definition supported_set : list ascii :=
  str "ABCDEFGHIJKLMNOPQRSTUVWXYZabcdefghijklmnopqrstuvwxyz0123456789.,:;?!=-+_()/@ ".

(** A heap full of ['x'], for the examples. *)
Definition x_heap : nat -> ascii := fun _ => "x"%char.


(** Every code of the table has at most six bytes. *)
Definition short_codes (T : list MorseMapping) : Prop :=
  Forall (fun e => length (cstring (str (code e))) <= 6) T.

(** Before the first character the flag [lastWasSpace] has no effect. *)
Definition alike (s1 s2 : estate) : Prop :=
  e_result s1 = e_result s2 /\ firstChar s1 = firstChar s2 /\
  (firstChar s1 = false -> lastWasSpace s1 = lastWasSpace s2).

(** ** Vocabulary of the further properties *)

(** What a character of the text comes back as when its token is
    decoded: the character the table gives for its code, or nothing. *)
Definition echo (T : list MorseMapping) (c : ascii) : list ascii :=
  looked_up T (token T c).

(** Every code of the table, the entry of the space apart, is a non-empty
    string of at most 19 bytes that [decodeText] accumulates. *)
Definition tidy (T : list MorseMapping) : Prop :=
  Forall (fun e =>
            character e <> SP ->
            cstring (str (code e)) <> [] /\
            Forall code_byte (cstring (str (code e))) /\
            length (cstring (str (code e))) <= 19) T.

(** The text that comes back from the encoding of a text: the loop of
    [encodeText] with each character replaced by its [echo], each word
    separator by one space, and no space between the characters of a
    word. *)
Definition normal_step (T : list MorseMapping) (c : ascii) (st : estate)
    : estate :=
  if is_newline c then st
  else if Ascii.eqb c SP then
    {| e_result :=
         if negb (lastWasSpace st) && negb (firstChar st)
         then e_result st ++ [SP] else e_result st;
       lastWasSpace := true;
       firstChar := firstChar st |}
  else
    {| e_result := e_result st ++ echo T c;
       lastWasSpace := false; firstChar := false |}.

Definition normal_loop (T : list MorseMapping) (bytes : list ascii)
    (st : estate) : estate :=
  fold_left (fun s c => normal_step T c s) bytes st.

Definition normalize (T : list MorseMapping) (text : list ascii) : list ascii :=
  e_result (normal_loop T (cstring text) encode_init).

(** The encoder state and the decoder view of its output are in step. *)
Definition in_step (T : list MorseMapping) (est nst : estate) (v : view)
    : Prop :=
  lastWasSpace est = lastWasSpace nst /\
  firstChar est = firstChar nst /\
  view_final T v = e_result nst /\
  (firstChar est = true -> v = view_init) /\
  (firstChar est = false -> lastWasSpace est = false ->
   snd (fst v) <> [] /\ snd v = 0%Z) /\
  (firstChar est = false -> lastWasSpace est = true ->
   snd (fst v) = [] /\ (snd v = 0%Z \/ snd v = 1%Z)).

(** The bytes of Morse code. *)
Definition dot_or_dash (b : ascii) : Prop := b = "."%char \/ b = "-"%char.

(** Every code of the table, the entry of the space apart, is made of
    dots and dashes. *)
Definition dot_dash_codes (T : list MorseMapping) : Prop :=
  Forall (fun e =>
            character e <> SP ->
            Forall dot_or_dash (cstring (str (code e)))) T.

(** The table has an entry for [toupper c]. *)
Definition known (T : list MorseMapping) (c : ascii) : bool :=
  existsb (fun e => Ascii.eqb (character e) (toupper c)) T.

(** A word as it comes back: upper case, without the characters the table
    does not have. *)
Definition word_back (T : list MorseMapping) (w : list ascii) : list ascii :=
  map toupper (List.filter (known T) w).

(** The bytes [encodeText] can append. *)
Definition morse_byte (slash : bool) (b : ascii) : Prop :=
  dot_or_dash b \/ b = SP \/ b = STAR \/ (slash = true /\ b = SLASH).

(** The bytes [decodeText] can write: a space, or a character of the
    table. *)
Definition text_byte (T : list MorseMapping) (b : ascii) : Prop :=
  b = SP \/ In b (map character T).

(** No two entries of the table have the same code, or the same
    character; and every character of the table is its own upper case. *)
Definition distinct_codes (T : list MorseMapping) : Prop :=
  NoDup (map (fun e => cstring (str (code e))) T).

Definition distinct_characters (T : list MorseMapping) : Prop :=
  NoDup (map character T).

Definition upper_characters (T : list MorseMapping) : Prop :=
  Forall (fun e => toupper (character e) = character e) T.

(** ** [encodeText] on its buffer *)

(** [strcat (dest, src)] on a buffer: the string of [src] and its
    terminator are stored from the terminator of [dest] on; a store
    outside [dest] is a [fault], and so is a [dest] without terminator. *)
Definition strcat_mem (dest src : list ascii) : checked (list ascii) :=
  let n := strlen dest in
  let s := cstring src in
  if n + length s <? length dest
  then inr (take n dest ++ s ++ NUL :: drop (n + length s + 1) dest)
  else inl ResultOverflow.

(** One iteration of the loop of [encodeText], [e_result] being the
    buffer [result]. *)
Definition encode_step_mem (T : list MorseMapping) (useSlashWordspacer : bool)
    (currentChar : ascii) (st : estate) : checked estate :=
  if Ascii.eqb currentChar LF || Ascii.eqb currentChar CR then inr st
  else if Ascii.eqb currentChar SP then
    bind
      (if negb (lastWasSpace st) && negb (firstChar st) then
         if useSlashWordspacer then strcat_mem (e_result st) (str " / ")
         else strcat_mem (e_result st) (str "   ")
       else inr (e_result st))
      (fun r =>
         inr {| e_result := r; lastWasSpace := true;
                firstChar := firstChar st |})
  else
    bind
      (if negb (firstChar st) && negb (lastWasSpace st)
       then strcat_mem (e_result st) (str " ") else inr (e_result st))
      (fun r1 =>
         bind
           (match getCharacterCode T currentChar with
            | Some code0 => strcat_mem r1 (str code0)
            | None => strcat_mem r1 (str "*")
            end)
           (fun r2 =>
              inr {| e_result := r2; lastWasSpace := false;
                     firstChar := false |})).

Fixpoint encode_loop_mem (T : list MorseMapping) (useSlashWordspacer : bool)
    (bytes : list ascii) (st : estate) : checked estate :=
  match bytes with
  | [] => inr st
  | c :: rest =>
      bind (encode_step_mem T useSlashWordspacer c st)
           (encode_loop_mem T useSlashWordspacer rest)
  end.

(** [encodeText] of [morse.c] with its buffer of [strlen text * 10] bytes;
    that of [main.c] is the same without the flag. *)
Definition encodeText_mem (T : list MorseMapping) (heap : nat -> ascii)
    (text : option (list ascii)) (useSlashWordspacer : bool)
    : checked (list ascii) :=
  match text with
  | None => inr [NUL]
  | Some t =>
      let maxBufferSize := strlen t * 10 in
      bind (store ResultOverflow (malloc heap maxBufferSize) 0 NUL)
        (fun r0 =>
           bind (encode_loop_mem T useSlashWordspacer (cstring t)
                   {| e_result := r0; lastWasSpace := false;
                      firstChar := true |})
             (fun st => inr (e_result st)))
  end.

(** The buffer holds the string built so far. *)
Definition mirrors (cap : nat) (mst pst : estate) : Prop :=
  cstring (e_result mst) = e_result pst /\
  length (e_result mst) = cap /\
  lastWasSpace mst = lastWasSpace pst /\
  firstChar mst = firstChar pst.

(** ** The readers *)

(** The environment of the program: whether standard input is a terminal;
    what the successive calls of [fread] on it return; which paths
    [access (path, R_OK)] accepts; for [fopen (path, r)] ([None] when the
    file does not open) the offset that [ftell] finds at the end of the
    stream ([None] when [ftell] fails, as it does on a pipe) and the bytes
    that the stream can deliver; for [fopen (path, w)] ([None] when the
    file does not open) the number of bytes that [fwrite] accepts and the
    number of bytes that are in the file once [fclose] has returned; and
    the bytes found in fresh memory. *)
Record world := {
  stdin_isatty : bool;
  stdin_reads : list (list ascii);
  access_R_OK : list ascii -> bool;
  fopen_r : list ascii -> option (option nat * list ascii);
  fopen_w : list ascii -> option (nat * nat);
  fresh_bytes : nat -> ascii
}.

(** What [ftell] returns: the offset, or -1 when it fails. *)
Definition ftell (offset : option nat) : Z :=
  match offset with
  | Some n => Z.of_nat n
  | None => (-1)%Z
  end.

(** A [long] converted to [size_t], both of 64 bits. *)
Definition size_t (z : Z) : Z := if (z <? 0)%Z then (z + 2 ^ 64)%Z else z.

(** [fread (ptr, 1, count, stream)]: the bytes delivered, [count] at
    most. *)
Definition fread (count : Z) (stream : list ascii) : list ascii :=
  take (Z.to_nat (Z.min count (Z.of_nat (length stream)))) stream.

(** [buf[i] = c] and [memcpy (buf + off, src, length src)], [None] when a
    byte falls outside [buf]. *)
Definition poke (buf : list ascii) (i : nat) (c : ascii) : option (list ascii) :=
  if i <? length buf then Some (<[i:=c]> buf) else None.

Definition memcpy (buf : list ascii) (off : nat) (src : list ascii)
    : option (list ascii) :=
  if off + length src <=? length buf
  then Some (take off buf ++ src ++ drop (off + length src) buf)
  else None.

(** [realloc (buf, n)] for [n] at least the size of [buf]: the bytes of
    [buf], then whatever the memory holds. *)
Definition realloc (heap : nat -> ascii) (buf : list ascii) (n : nat)
    : list ascii :=
  buf ++ map heap (seq (length buf) (n - length buf)).

(** The two statements that end both readers:
    [buffer[size] = '\0'] and the trim of one trailing newline. *)
Definition terminate_and_trim (buffer : list ascii) (size : nat)
    : option (list ascii) :=
  match poke buffer size NUL with
  | None => None
  | Some b =>
      if (0 <? size) &&
         (match b !! (size - 1) with
          | Some c => Ascii.eqb c LF
          | None => false
          end)
      then poke b (size - 1) NUL
      else Some b
  end.

(** The loop of [readFromStdin] on the results of [fread]; it ends at the
    first call that returns no byte. *)
Fixpoint read_loop (heap : nat -> ascii) (reads : list (list ascii))
    (capacity size : nat) (buffer : list ascii)
    : option (nat * list ascii) :=
  match reads with
  | [] => Some (size, buffer)
  | chunk :: rest =>
      let bytesRead := length chunk in
      if bytesRead =? 0 then Some (size, buffer)
      else
        let capacity' :=
          if capacity <? size + bytesRead + 1 then capacity * 2 else capacity in
        let buffer' :=
          if capacity <? size + bytesRead + 1
          then realloc heap buffer (capacity * 2) else buffer in
        match memcpy buffer' size chunk with
        | None => None
        | Some b => read_loop heap rest capacity' (size + bytesRead) b
        end
  end.

(** [readFromStdin]: the buffer it returns, [None] when it stores outside
    its buffer. *)
Definition readFromStdin (w : world) : option (list ascii) :=
  let CHUNK_SIZE := 1024 in
  match read_loop (fresh_bytes w) (stdin_reads w) CHUNK_SIZE 0
          (malloc (fresh_bytes w) CHUNK_SIZE) with
  | None => None
  | Some (size, buffer) => terminate_and_trim buffer size
  end.

(** What [readFromStdin] has read: the results of [fread] up to the first
    empty one. *)
Fixpoint stdin_data (reads : list (list ascii)) : list ascii :=
  match reads with
  | [] => []
  | chunk :: rest => if length chunk =? 0 then [] else chunk ++ stdin_data rest
  end.

(** [data] without its last byte when this is a newline. *)
Definition trim_newline (data : list ascii) : list ascii :=
  match last data with
  | Some c => if Ascii.eqb c LF then removelast data else data
  | None => data
  end.

(** [readFileContent] of [main.c]: [None] is the NULL pointer, the
    outer [option] a store outside the buffer.  [fileSize] is the [long]
    that [ftell] returns, and is not tested: [malloc] and [fread] receive
    it converted to [size_t], and [fread] stores what it delivers into
    [buffer]. *)
Definition readFileContent (w : world) (filename : list ascii)
    : option (option (list ascii)) :=
  match fopen_r w (cstring filename) with
  | None => Some None
  | Some (offset, stream) =>
      let fileSize := ftell offset in
      let buffer :=
        malloc (fresh_bytes w) (Z.to_nat (size_t (fileSize + 1))) in
      let chunk := fread (size_t fileSize) stream in
      match memcpy buffer 0 chunk with
      | None => None
      | Some b =>
          let bytesRead := length chunk in
          if (Z.of_nat bytesRead <? size_t fileSize)%Z then Some None
          else
            match terminate_and_trim b bytesRead with
            | None => None
            | Some b' => Some (Some b')
            end
      end
  end.

(** The invariant of [read_loop]. *)
Definition read_inv (capacity size : nat) (buffer data : list ascii) : Prop :=
  1024 <= capacity /\ length buffer = capacity /\ size + 1 <= capacity /\
  size = length data /\ take size buffer = data.

(** ** The programs *)

(** What a run does to the outside, in order: text written to the standard
    output or to the standard error, the help text and the programmer
    information (both on the standard output; their texts are left out),
    and the bytes written to a file opened for writing. *)
Inductive effect :=
| Stdout (s : list ascii)
| Stderr (s : list ascii)
| Help
| ProgrammerInfo
| FileWrite (filename content : list ascii).

(** Neither text on the standard output nor bytes in a file. *)
Definition silent (e : effect) : Prop :=
  match e with
  | Stdout _ | FileWrite _ _ => False
  | _ => True
  end.

Definition EXIT_FAILURE : Z := 1.

(** [!isatty (STDIN_FILENO)] *)
Definition isInputFromPipe (w : world) : bool := negb (stdin_isatty w).

(** [strdup_safe]: a copy of the string; [None] is the NULL pointer. *)
Definition strdup_safe (s : option (list ascii)) : option (list ascii) :=
  match s with
  | None => None
  | Some s => Some (cstring s)
  end.

(** The program of [main.c].  A run ends with its effects and its exit
    status, or ([None]) in a store outside a buffer.  [encodeText] and
    [decodeText] run on their buffers. *)
Module main_program.

Record Options := {
  help : bool;
  programmerInfo : bool;
  decode : bool;
  encode : bool;
  inputText : option (list ascii);
  inputFile : option (list ascii);
  outputFile : option (list ascii);
  readFromPipe : bool
}.

Definition set_help (o : Options) : Options :=
  {| help := true; programmerInfo := programmerInfo o; decode := decode o;
     encode := encode o; inputText := inputText o; inputFile := inputFile o;
     outputFile := outputFile o; readFromPipe := readFromPipe o |}.

Definition set_programmerInfo (o : Options) : Options :=
  {| help := help o; programmerInfo := true; decode := decode o;
     encode := encode o; inputText := inputText o; inputFile := inputFile o;
     outputFile := outputFile o; readFromPipe := readFromPipe o |}.

Definition set_decode (o : Options) : Options :=
  {| help := help o; programmerInfo := programmerInfo o; decode := true;
     encode := encode o; inputText := inputText o; inputFile := inputFile o;
     outputFile := outputFile o; readFromPipe := readFromPipe o |}.

Definition set_encode (o : Options) : Options :=
  {| help := help o; programmerInfo := programmerInfo o; decode := decode o;
     encode := true; inputText := inputText o; inputFile := inputFile o;
     outputFile := outputFile o; readFromPipe := readFromPipe o |}.

Definition set_inputText (s : option (list ascii)) (o : Options) : Options :=
  {| help := help o; programmerInfo := programmerInfo o; decode := decode o;
     encode := encode o; inputText := s; inputFile := inputFile o;
     outputFile := outputFile o; readFromPipe := readFromPipe o |}.

Definition set_inputFile (s : option (list ascii)) (o : Options) : Options :=
  {| help := help o; programmerInfo := programmerInfo o; decode := decode o;
     encode := encode o; inputText := inputText o; inputFile := s;
     outputFile := outputFile o; readFromPipe := readFromPipe o |}.

Definition set_outputFile (s : option (list ascii)) (o : Options) : Options :=
  {| help := help o; programmerInfo := programmerInfo o; decode := decode o;
     encode := encode o; inputText := inputText o; inputFile := inputFile o;
     outputFile := s; readFromPipe := readFromPipe o |}.

Definition set_readFromPipe (b : bool) (o : Options) : Options :=
  {| help := help o; programmerInfo := programmerInfo o; decode := decode o;
     encode := encode o; inputText := inputText o; inputFile := inputFile o;
     outputFile := outputFile o; readFromPipe := b |}.

(** How the loop over [argv] ends: at the end of [argv], at a [return]
    inside the loop, or at [exit (EXIT_FAILURE)] after a message. *)
Inductive loop_end :=
| Completed (options : Options)
| ReturnedEarly (options : Options)
| ExitedInLoop (message : list ascii).

(** The loop of [parseCommandLine] from [argv[i]] on. *)
Fixpoint parse_loop (w : world) (args : list (list ascii)) (options : Options)
    : loop_end :=
  match args with
  | [] => Completed options
  | arg :: rest =>
      if strcmp_eq arg (str "-h") || strcmp_eq arg (str "--help") then
        ReturnedEarly (set_help options)
      else if strcmp_eq arg (str "--programmer-info") then
        ReturnedEarly (set_programmerInfo options)
      else if strcmp_eq arg (str "-d") || strcmp_eq arg (str "--decode") then
        parse_loop w rest (set_decode options)
      else if strcmp_eq arg (str "-e") || strcmp_eq arg (str "--encode") then
        parse_loop w rest (set_encode options)
      else if strcmp_eq arg (str "-o") || strcmp_eq arg (str "--out") then
        match rest with
        | file :: rest' =>
            parse_loop w rest' (set_outputFile (strdup_safe (Some file)) options)
        | [] =>
            ExitedInLoop
              (str "Error: Output file path not provided after -o/--out"
               ++ [LF])
        end
      else if bool_decide (inputFile options = None)
              && bool_decide (inputText options = None) then
        if access_R_OK w (cstring arg)
        then parse_loop w rest (set_inputFile (strdup_safe (Some arg)) options)
        else parse_loop w rest (set_inputText (strdup_safe (Some arg)) options)
      else parse_loop w rest options
  end.

(** The result of [parseCommandLine]: the options, or the message written
    before [exit (EXIT_FAILURE)]. *)
Inductive parsed :=
| Returned (options : Options)
| Exited (message : list ascii).

(** [parseCommandLine]; [argv] starts with the name of the program. *)
Definition parseCommandLine (w : world) (argv : list (list ascii)) : parsed :=
  match
    parse_loop w (drop 1 argv)
      {| help := false; programmerInfo := false; decode := false;
         encode := false; inputText := None; inputFile := None;
         outputFile := None; readFromPipe := false |}
  with
  | ReturnedEarly options => Returned options
  | ExitedInLoop message => Exited message
  | Completed options =>
      if encode options && decode options then
        Exited
          (str "Error: Cannot specify both encode (-e) and decode (-d) options"
           ++ [LF])
      else
        let options1 :=
          if negb (decode options) && negb (encode options)
          then set_encode options else options in
        Returned (set_readFromPipe (isInputFromPipe w) options1)
  end.

(** What the loop keeps true of the input it has chosen among [args]: a
    file or a text, never both; a file when [access] accepts the
    argument, a text when it does not. *)
Definition input_chosen (w : world) (args : list (list ascii)) (o : Options)
    : Prop :=
  (inputFile o = None \/ inputText o = None) /\
  (forall f : list ascii,
     inputFile o = Some f ->
     access_R_OK w f = true /\ exists a, In a args /\ f = cstring a) /\
  (forall t : list ascii,
     inputText o = Some t ->
     access_R_OK w t = false /\ exists a, In a args /\ t = cstring a).

(** The arguments that [parseCommandLine] compares its arguments with. *)
Definition switches : list (list ascii) :=
  map str ["-h"; "--help"; "--programmer-info"; "-d"; "--decode";
           "-e"; "--encode"; "-o"; "--out"]%string.

(** [writeFileContent]: the bytes that are in the file in the end, and
    what the function returns.  [bytesWritten] is what [fwrite] accepts;
    of these bytes the file holds those that have reached it when
    [fclose] returns, whose result is not looked at. *)
Definition writeFileContent (w : world) (filename content : list ascii)
    : list effect * bool :=
  match fopen_w w (cstring filename) with
  | None => ([], false)
  | Some (accepted, stored) =>
      let contentLength := strlen content in
      let bytesWritten := Nat.min contentLength accepted in
      ([FileWrite (cstring filename)
          (take (Nat.min bytesWritten stored) (cstring content))],
       bytesWritten =? contentLength)
  end.

(** [main]. *)
Definition main (w : world) (argv : list (list ascii))
    : option (list effect * Z) :=
  match parseCommandLine w argv with
  | Exited message => Some ([Stderr message], EXIT_FAILURE)
  | Returned options =>
      if help options then Some ([Help], 0%Z)
      else if programmerInfo options then Some ([ProgrammerInfo], 0%Z)
      else
        let inputContent : option (list effect * Z + list ascii) :=
          if readFromPipe options then
            match readFromStdin w with
            | None => None
            | Some buffer => Some (inr buffer)
            end
          else
            match inputFile options, inputText options with
            | Some file, _ =>
                match readFileContent w file with
                | None => None
                | Some None =>
                    Some (inl ([Stderr (str "Error: Could not read input file '"
                                        ++ cstring file ++ str "'" ++ [LF])],
                               1%Z))
                | Some (Some buffer) => Some (inr buffer)
                end
            | None, Some text =>
                match strdup_safe (Some text) with
                | Some copy => Some (inr copy)
                | None => None
                end
            | None, None =>
                Some (inl ([Stderr (str "Error: No input text provided."
                                    ++ [LF]); Help], 1%Z))
            end in
        match inputContent with
        | None => None
        | Some (inl stop) => Some stop
        | Some (inr inputContent) =>
            let result : checked (list ascii) :=
              if decode options
              then main_c.decodeText (fresh_bytes w) (Some inputContent)
              else encodeText_mem main_c.MORSE_TABLE (fresh_bytes w)
                     (Some inputContent) false in
            match result with
            | inl _ => None
            | inr result =>
                match outputFile options with
                | Some file =>
                    let (written, ok) := writeFileContent w file result in
                    if ok then Some (written, 0%Z)
                    else
                      Some (written ++
                            [Stderr (str "Error: Could not write to output file '"
                                     ++ cstring file ++ str "'" ++ [LF])],
                            1%Z)
                | None =>
                    if decode options then
                      Some ([Stdout (str "Decoded: " ++ cstring result ++ [LF])],
                            0%Z)
                    else
                      Some ([Stdout (str "Encoded: " ++ cstring result ++ [LF])],
                            0%Z)
                end
            end
        end
  end.

End main_program.

(** The program of [morse.c]. *)
Module morse_program.

Inductive MorseError :=
| MORSE_SUCCESS
| MORSE_INVALID_INPUT
| MORSE_FILE_NOT_FOUND
| MORSE_FILE_READ_ERROR
| MORSE_FILE_WRITE_ERROR
| MORSE_CONFLICTING_OPTIONS
| MORSE_MEMORY_ERROR
| MORSE_INVALID_OPTION.

(** A [Result] is built by [createSuccess] or by [createError], always
    with a message. *)
Inductive Result (A : Type) :=
| createSuccess (data : A)
| createError (errorCode : MorseError) (errorMessage : list ascii).
Arguments createSuccess {A} data.
Arguments createError {A} errorCode errorMessage.

Record Options := {
  help : bool;
  programmerInfo : bool;
  decode : bool;
  encode : bool;
  slashWordspacer : bool;
  inputText : option (list ascii);
  inputFile : option (list ascii);
  outputFile : option (list ascii);
  readFromPipe : bool
}.

(** [snprintf (errorMsg, sizeof (errorMsg), ...)] with [errorMsg] of 512
    bytes. *)
Definition snprintf_512 (s : list ascii) : list ascii := take 511 s.

(** [readFromStdin]: the loop of [main.c], its result wrapped. *)
Definition readFromStdin (w : world) : option (Result (list ascii)) :=
  match readFromStdin w with
  | None => None
  | Some buffer => Some (createSuccess buffer)
  end.

(** [readFileContent]: that of [main.c] with the test [fileSize < 0] in
    front of [malloc], and with its results wrapped. *)
Definition readFileContent (w : world) (filename : list ascii)
    : option (Result (list ascii)) :=
  match fopen_r w (cstring filename) with
  | None =>
      Some (createError MORSE_FILE_NOT_FOUND
              (snprintf_512 (str "Could not open file '" ++ cstring filename
                             ++ str "'")))
  | Some (offset, stream) =>
      let fileSize := ftell offset in
      if (fileSize <? 0)%Z then
        Some (createError MORSE_FILE_READ_ERROR
                (str "Could not determine file size"))
      else
        let buffer :=
          malloc (fresh_bytes w) (Z.to_nat (size_t (fileSize + 1))) in
        let chunk := fread (size_t fileSize) stream in
        match memcpy buffer 0 chunk with
        | None => None
        | Some b =>
            let bytesRead := length chunk in
            if (Z.of_nat bytesRead <? size_t fileSize)%Z then
              Some (createError MORSE_FILE_READ_ERROR
                      (str "Could not read complete file"))
            else
              match terminate_and_trim b bytesRead with
              | None => None
              | Some b' => Some (createSuccess b')
              end
        end
  end.

Definition writeFileContent (w : world) (filename content : list ascii)
    : list effect * Result unit :=
  match fopen_w w (cstring filename) with
  | None =>
      ([], createError MORSE_FILE_WRITE_ERROR
             (snprintf_512 (str "Could not open file '" ++ cstring filename
                            ++ str "' for writing")))
  | Some (accepted, stored) =>
      let contentLength := strlen content in
      let bytesWritten := Nat.min contentLength accepted in
      ([FileWrite (cstring filename)
          (take (Nat.min bytesWritten stored) (cstring content))],
       if negb (bytesWritten =? contentLength) then
         createError MORSE_FILE_WRITE_ERROR
           (str "Could not write complete content to file")
       else createSuccess tt)
  end.

(** [main] from the result of [parseCommandLine (argc, argv)] on, which is
    built on [getopt_long] and is not modelled. *)
Definition main (w : world) (parseResult : Result Options)
    : option (list effect * Z) :=
  match parseResult with
  | createError _ errorMessage =>
      Some ([Stderr (str "Error: " ++ cstring errorMessage ++ [LF])], 1%Z)
  | createSuccess options =>
      if help options then Some ([Help], 0%Z)
      else if programmerInfo options then Some ([ProgrammerInfo], 0%Z)
      else
        let inputResult : option (list effect * Z + Result (list ascii)) :=
          if readFromPipe options then
            match readFromStdin w with
            | None => None
            | Some r => Some (inr r)
            end
          else
            match inputFile options, inputText options with
            | Some file, _ =>
                match readFileContent w file with
                | None => None
                | Some r => Some (inr r)
                end
            | None, Some text =>
                match strdup_safe (Some text) with
                | Some copy => Some (inr (createSuccess copy))
                | None => None
                end
            | None, None =>
                Some (inl ([Stderr (str "Error: No input text provided."
                                    ++ [LF]); Help], 1%Z))
            end in
        match inputResult with
        | None => None
        | Some (inl stop) => Some stop
        | Some (inr (createError _ errorMessage)) =>
            Some ([Stderr (str "Input Error: " ++ cstring errorMessage
                           ++ [LF])], 1%Z)
        | Some (inr (createSuccess data)) =>
            if decode options && slashWordspacer options then
              Some ([Stderr (str "Warning: --slash-wordspacer can only be used with encode operation"
                             ++ [LF])], 1%Z)
            else
              let processResult : checked (list ascii) :=
                if decode options
                then morse_c.decodeText (fresh_bytes w) (Some data)
                else encodeText_mem morse_c.MORSE_TABLE (fresh_bytes w)
                       (Some data) (slashWordspacer options) in
              match processResult with
              | inl _ => None
              | inr result =>
                  match outputFile options with
                  | Some file =>
                      match writeFileContent w file result with
                      | (written, createError _ errorMessage) =>
                          Some (written ++
                                [Stderr (str "Output Error: "
                                         ++ cstring errorMessage ++ [LF])],
                                1%Z)
                      | (written, createSuccess _) => Some (written, 0%Z)
                      end
                  | None =>
                      if decode options then
                        Some ([Stdout (str "Decoded: " ++ cstring result
                                       ++ [LF])], 0%Z)
                      else
                        Some ([Stdout (str "Encoded: " ++ cstring result
                                       ++ [LF])], 0%Z)
                  end
              end
        end
  end.

End morse_program.

(** ** C strings *)

Lemma cstring_nonul_app (p q : list ascii) :
  nonul p -> cstring (p ++ q) = p ++ cstring q.
Proof.
  induction 1 as [|c p Hc _ IH]; simpl; [reflexivity|].
  destruct (Ascii.eqb_spec c NUL); [contradiction|]. now rewrite IH.
Qed.

Lemma cstring_nonul (p : list ascii) : nonul p -> cstring p = p.
Proof.
  intros H. rewrite <- (app_nil_r p) at 1.
  rewrite cstring_nonul_app by assumption. simpl. apply app_nil_r.
Qed.

Lemma cstring_is_nonul (l : list ascii) : nonul (cstring l).
Proof.
  induction l as [|c l IH]; simpl; [constructor|].
  destruct (Ascii.eqb_spec c NUL); constructor; assumption.
Qed.

Lemma cstring_idemp (l : list ascii) : cstring (cstring l) = cstring l.
Proof. apply cstring_nonul, cstring_is_nonul. Qed.

Lemma cstring_at_NUL (p q : list ascii) :
  nonul p -> cstring (p ++ NUL :: q) = p.
Proof.
  intros H. rewrite cstring_nonul_app by assumption. simpl. apply app_nil_r.
Qed.

(** A buffer whose first [i] bytes hold no NUL and whose byte [i] is NUL
    holds the string of its first [i] bytes. *)
Lemma cstring_terminated (l : list ascii) (i : nat) :
  nonul (take i l) -> l !! i = Some NUL -> cstring l = take i l.
Proof.
  intros Hn Hi.
  rewrite <- (take_drop i l) at 1.
  rewrite (drop_S l NUL i Hi). now apply cstring_at_NUL.
Qed.

Lemma nonul_app (p q : list ascii) : nonul (p ++ q) <-> nonul p /\ nonul q.
Proof. apply Forall_app. Qed.

Lemma strlen_nonul (p : list ascii) : nonul p -> strlen p = length p.
Proof. intros H. unfold strlen. now rewrite cstring_nonul. Qed.

Lemma strlen_le (l : list ascii) : strlen l <= length l.
Proof.
  unfold strlen. induction l as [|c l IH]; simpl; [lia|].
  destruct (Ascii.eqb c NUL); simpl; lia.
Qed.

(** ** Checked stores *)

Lemma store_inr (f : fault) (buf : list ascii) (i : nat) (c : ascii) :
  i < length buf -> store f buf i c = inr (<[i:=c]> buf).
Proof.
  intros H. unfold store. destruct (Nat.ltb_spec i (length buf)); [reflexivity|lia].
Qed.

Lemma store_inl (f : fault) (buf : list ascii) (i : nat) (c : ascii) :
  length buf <= i -> store f buf i c = inl f.
Proof.
  intros H. unfold store. destruct (Nat.ltb_spec i (length buf)); [lia|reflexivity].
Qed.

(** ** The operations of [decodeText] on a well-formed state *)

Section DecodeSteps.

Variable T : list MorseMapping.

Lemma put_char_inr (c : ascii) (st : dstate) :
  S (resultIndex st) < length (result st) ->
  put_char c st =
  inr {| result := <[S (resultIndex st) := NUL]> (<[resultIndex st := c]> (result st));
         resultIndex := S (resultIndex st);
         codeBuf := codeBuf st; codeBufIndex := codeBufIndex st;
         spaceCount := spaceCount st |}.
Proof.
  intros H. unfold put_char.
  rewrite store_inr by lia. simpl.
  rewrite store_inr by (rewrite length_insert; lia). reflexivity.
Qed.

Lemma put_char_ok (n : nat) (c : ascii) (st : dstate) :
  length (result st) = n + 1 -> resultIndex st < n ->
  nonul (output st) -> c <> NUL ->
  exists st', put_char c st = inr st' /\
    output st' = output st ++ [c] /\
    resultIndex st' = S (resultIndex st) /\
    codeBuf st' = codeBuf st /\ codeBufIndex st' = codeBufIndex st /\
    spaceCount st' = spaceCount st /\
    length (result st') = n + 1 /\
    result st' !! resultIndex st' = Some NUL /\
    nonul (output st').
Proof.
  intros Hlen Hlt Hout Hc.
  eexists. split; [apply put_char_inr; lia|]. simpl.
  assert (Hout' : output
    {| result := <[S (resultIndex st) := NUL]> (<[resultIndex st := c]> (result st));
       resultIndex := S (resultIndex st);
       codeBuf := codeBuf st; codeBufIndex := codeBufIndex st;
       spaceCount := spaceCount st |} = output st ++ [c]).
  { unfold output. simpl.
    rewrite take_insert_ge by lia.
    rewrite (take_S_r _ _ c) by (apply list_lookup_insert_eq; lia).
    now rewrite take_insert_ge by lia. }
  repeat split; try reflexivity.
  - exact Hout'.
  - now rewrite !length_insert.
  - apply list_lookup_insert_eq. rewrite length_insert. lia.
  - rewrite Hout'. apply nonul_app. split; [assumption|]. now constructor.
Qed.

Lemma terminate_code_inr (st : dstate) :
  codeBufIndex st < length (codeBuf st) ->
  terminate_code st =
  inr {| result := result st; resultIndex := resultIndex st;
         codeBuf := <[codeBufIndex st := NUL]> (codeBuf st);
         codeBufIndex := codeBufIndex st; spaceCount := spaceCount st |}.
Proof. intros H. unfold terminate_code. now rewrite store_inr. Qed.

(** After [codeBuf[codeBufIndex] = '\0'] the buffer holds the pending code. *)
Lemma cstring_terminate_code (st : dstate) :
  codeBufIndex st < length (codeBuf st) -> nonul (pending st) ->
  cstring (<[codeBufIndex st := NUL]> (codeBuf st)) = pending st.
Proof.
  intros Hlt Hn. unfold pending in *.
  rewrite (cstring_terminated _ (codeBufIndex st)).
  - now rewrite take_insert_ge by lia.
  - now rewrite take_insert_ge by lia.
  - now apply list_lookup_insert_eq.
Qed.

(** The lookup reads its argument as a C string. *)
Lemma scan_code_cstring (tbl : list MorseMapping) (a b : list ascii) :
  cstring a = cstring b -> scan_code tbl a = scan_code tbl b.
Proof.
  intros H. induction tbl as [|e tbl IH]; simpl; [reflexivity|].
  unfold strcmp_eq. rewrite H, IH. reflexivity.
Qed.

Lemma getCodeCharacter_terminated (st : dstate) :
  codeBufIndex st < length (codeBuf st) -> nonul (pending st) ->
  getCodeCharacter T (<[codeBufIndex st := NUL]> (codeBuf st)) =
  getCodeCharacter T (pending st).
Proof.
  intros Hlt Hn. apply scan_code_cstring.
  rewrite cstring_terminate_code by assumption.
  symmetry. now apply cstring_nonul.
Qed.

Lemma looked_up_length (code0 : list ascii) : length (looked_up T code0) <= 1.
Proof. unfold looked_up. destruct (Ascii.eqb _ NUL); simpl; lia. Qed.

Lemma looked_up_nonul (code0 : list ascii) : nonul (looked_up T code0).
Proof.
  unfold looked_up. destruct (Ascii.eqb_spec (getCodeCharacter T code0) NUL).
  - constructor.
  - now repeat constructor.
Qed.

Lemma flush_code_ok (n : nat) (st : dstate) :
  length (result st) = n + 1 -> resultIndex st < n ->
  result st !! resultIndex st = Some NUL ->
  nonul (output st) ->
  codeBufIndex st < length (codeBuf st) -> nonul (pending st) ->
  exists st', flush_code T st = inr st' /\
    output st' = output st ++ looked_up T (pending st) /\
    resultIndex st' = resultIndex st + length (looked_up T (pending st)) /\
    length (codeBuf st') = length (codeBuf st) /\
    codeBufIndex st' = codeBufIndex st /\
    pending st' = pending st /\
    spaceCount st' = spaceCount st /\
    length (result st') = n + 1 /\
    result st' !! resultIndex st' = Some NUL /\
    nonul (output st').
Proof.
  intros Hlen Hlt Hterm Hout Hidx Hpend.
  unfold flush_code. rewrite terminate_code_inr by assumption.
  cbn [bind codeBuf].
  rewrite getCodeCharacter_terminated by assumption.
  unfold looked_up.
  set (st1 := {| result := result st; resultIndex := resultIndex st;
                 codeBuf := <[codeBufIndex st := NUL]> (codeBuf st);
                 codeBufIndex := codeBufIndex st; spaceCount := spaceCount st |}).
  assert (Hp1 : pending st1 = pending st).
  { unfold pending. simpl. now rewrite take_insert_ge by lia. }
  destruct (Ascii.eqb_spec (getCodeCharacter T (pending st)) NUL) as [E|E]; simpl.
  - exists st1. repeat split; simpl; try assumption; try reflexivity.
    + unfold output. simpl. now rewrite app_nil_r.
    + lia.
    + now rewrite length_insert.
  - destruct (put_char_ok n (getCodeCharacter T (pending st)) st1)
      as (st' & Hput & Ho & Hri & Hcb & Hci & Hsc & Hl & Ht & Hno);
      try assumption.
    exists st'. split; [exact Hput|].
    split; [exact Ho|].
    split; [rewrite Hri; simpl; lia|].
    split; [rewrite Hcb; simpl; now rewrite length_insert|].
    split; [exact Hci|].
    split; [unfold pending in *; now rewrite Hci, Hcb|].
    split; [exact Hsc|].
    split; [exact Hl|].
    split; [exact Ht|exact Hno].
Qed.

Lemma pending_length (n k : nat) (st : dstate) :
  wf n k st -> length (pending st) = codeBufIndex st.
Proof.
  intros W. destruct W. unfold pending. apply length_take_le. lia.
Qed.

Lemma decode_step_wf (n k : nat) (c : ascii) (st : dstate) :
  wf n k st -> k < n -> c <> NUL ->
  exists st', decode_step T c st = inr st' /\ wf n (S k) st' /\
    view_of st' = view_step T c (view_of st).
Proof.
  intros W Hk Hc. pose proof (pending_length _ _ _ W) as Hpl.
  destruct W as [Hlen Hcb Hidx Hbud Hterm Hout Hpend Hsp].
  assert (Hri : codeBufIndex st = 0 /\ resultIndex st <= k \/
                0 < codeBufIndex st /\ resultIndex st + 1 <= k).
  { destruct (Nat.eqb_spec (codeBufIndex st) 0); [left|right]; lia. }
  clear Hbud.
  unfold decode_step, view_of, view_step.
  destruct (Ascii.eqb c LF || Ascii.eqb c CR) eqn:Enl.
  { exists st. split; [reflexivity|]. split; [|reflexivity].
    constructor; try assumption.
    destruct (Nat.eqb_spec (codeBufIndex st) 0); lia. }
  destruct (Ascii.eqb_spec c SP) as [Esp|Esp].
  { cbn [spaceCount set_spaceCount codeBufIndex]. rewrite Hpl.
    destruct ((spaceCount st + 1 =? 1)%Z && (0 <? codeBufIndex st)) eqn:E1.
    - apply andb_true_iff in E1 as [Ea Eb].
      apply Z.eqb_eq in Ea. apply Nat.ltb_lt in Eb.
      destruct (flush_code_ok n (set_spaceCount (spaceCount st + 1) st))
        as (st2 & Hf & Ho & Hr & Hcl & Hci & Hp & Hsc & Hl & Ht & Hno);
        simpl; try assumption; try lia.
      rewrite Hf. cbn [bind]. eexists. split; [reflexivity|].
      pose proof (looked_up_length (pending (set_spaceCount (spaceCount st + 1) st))) as Hlu.
      simpl in Hr, Hcl, Hci, Hsc.
      split.
      + constructor; simpl; try assumption; try lia.
        * constructor.
      + unfold output, pending in *. simpl in *. rewrite Ho, Hsc. reflexivity.
    - destruct (Z.eqb_spec (spaceCount st + 1) 3) as [E3|E3].
      + destruct (put_char_ok n SP (set_spaceCount (spaceCount st + 1) st))
          as (st2 & Hf & Ho & Hr & Hcb2 & Hci & Hsc & Hl & Ht & Hno);
          simpl; try assumption; try lia; try discriminate.
        rewrite Hf. cbn [bind]. eexists. split; [reflexivity|].
        simpl in Hr, Hcb2, Hci, Hsc.
        split.
        * constructor; simpl; try assumption; try lia.
          -- rewrite Hcb2. assumption.
          -- rewrite Hr. destruct (Nat.eqb_spec (codeBufIndex st2) 0); lia.
          -- unfold pending in *. simpl. now rewrite Hci, Hcb2.
        * unfold pending in *. simpl. rewrite Hci, Hcb2.
          unfold output in *. simpl in *. now rewrite Ho.
      + eexists. split; [reflexivity|]. split; [|reflexivity].
        constructor; simpl; try assumption; try lia.
        destruct (Nat.eqb_spec (codeBufIndex st) 0); lia. }
  destruct (Ascii.eqb_spec c SLASH) as [Esl|Esl].
  { rewrite Hpl.
    destruct (Nat.ltb_spec 0 (codeBufIndex st)) as [Hpos|Hz].
    - destruct (flush_code_ok n st)
        as (st2 & Hf & Ho & Hr & Hcl & Hci & Hp & Hsc & Hl & Ht & Hno);
        simpl; try assumption; try lia.
      rewrite Hf. cbn [bind].
      pose proof (looked_up_length (pending st)) as Hlu.
      destruct (put_char_ok n SP (set_codeBufIndex 0 st2))
          as (st3 & Hf3 & Ho3 & Hr3 & Hcb3 & Hci3 & Hsc3 & Hl3 & Ht3 & Hno3);
          simpl; try assumption; try lia; try discriminate.
      rewrite Hf3. cbn [bind]. eexists. split; [reflexivity|].
      unfold output, pending in *. simpl in *.
      split.
      + constructor; unfold pending; simpl; try assumption; try lia.
        * rewrite Hcb3. lia.
        * rewrite Hci3, Hr3. simpl. lia.
        * rewrite Hci3. constructor.
      + rewrite Hci3, Ho3, Ho. simpl. now rewrite <- app_assoc.
    - cbn [bind].
      destruct (put_char_ok n SP st)
          as (st3 & Hf3 & Ho3 & Hr3 & Hcb3 & Hci3 & Hsc3 & Hl3 & Ht3 & Hno3);
          simpl; try assumption; try lia; try discriminate.
      rewrite Hf3. cbn [bind]. eexists. split; [reflexivity|].
      unfold output, pending in *. simpl in *.
      assert (Hz0 : codeBufIndex st = 0) by lia.
      split.
      + constructor; unfold pending; simpl; try assumption; try lia.
        * rewrite Hcb3. lia.
        * rewrite Hci3, Hr3, Hz0. simpl. lia.
        * now rewrite Hci3, Hcb3.
      + rewrite Hci3, Ho3, Hz0. reflexivity. }
  simpl. rewrite Hpl, Hcb. change (20 - 1) with 19.
  destruct (Nat.ltb_spec (codeBufIndex st) 19) as [Hroom|Hfull].
  - rewrite store_inr by lia. cbn [bind]. eexists. split; [reflexivity|].
    assert (Hp' : take (S (codeBufIndex st)) (<[codeBufIndex st := c]> (codeBuf st))
                  = pending st ++ [c]).
    { rewrite (take_S_r _ _ c) by (apply list_lookup_insert_eq; lia).
      now rewrite take_insert_ge by lia. }
    split.
    + constructor; unfold pending; simpl; try assumption; try lia.
      * now rewrite length_insert.
      * rewrite Hp'. apply nonul_app. split; [assumption|]. now constructor.
    + unfold pending at 1. simpl. now rewrite Hp'.
  - eexists. split; [reflexivity|]. split; [|reflexivity].
    constructor; unfold pending; simpl; try assumption; try lia.
    destruct (Nat.eqb_spec (codeBufIndex st) 0); lia.
Qed.

Lemma decode_loop_wf (bytes : list ascii) : forall (n k : nat) (st : dstate),
  wf n k st -> k + length bytes <= n -> nonul bytes ->
  exists st', decode_loop T bytes st = inr st' /\
    wf n (k + length bytes) st' /\
    view_of st' = view_loop T bytes (view_of st).
Proof.
  induction bytes as [|c bytes IH]; intros n k st W Hk Hn;
    cbn [decode_loop length] in *.
  - exists st. rewrite Nat.add_0_r. auto.
  - inversion Hn as [|? ? Hc Hn']; subst.
    destruct (decode_step_wf n k c st W) as (st1 & Hs & W1 & Hv); [lia|assumption|].
    rewrite Hs. cbn [bind].
    destruct (IH n (S k) st1 W1) as (st' & Hl & W' & Hv'); [lia|assumption|].
    exists st'. split; [exact Hl|]. split.
    + now replace (k + S (length bytes)) with (S k + length bytes) by lia.
    + rewrite Hv', Hv. reflexivity.
Qed.

End DecodeSteps.

(** ** A run of [decodeText] *)

Section DecodeRun.
Variable T : list MorseMapping.
Variable heap : nat -> ascii.

Lemma malloc_length (n : nat) : length (malloc heap n) = n.
Proof. unfold malloc. now rewrite length_map, length_seq. Qed.

Lemma decode_init_wf (m : list ascii) :
  exists st0, decode_init heap m = inr st0 /\ wf (strlen m) 0 st0 /\
    view_of st0 = view_init.
Proof.
  unfold decode_init.
  rewrite store_inr by (rewrite malloc_length; lia). cbn [bind].
  eexists. split; [reflexivity|]. split; [|reflexivity].
  constructor; unfold output, pending; simpl; try lia; try constructor.
  - now rewrite length_insert, malloc_length.
  - apply list_lookup_insert_eq. rewrite malloc_length. lia.
Qed.

Lemma run_wf (m p q : list ascii) :
  cstring m = p ++ q ->
  exists st, run T heap m p = inr st /\ wf (strlen m) (length p) st /\
    view_of st = view_loop T p view_init.
Proof.
  intros Hm. unfold run.
  destruct (decode_init_wf m) as (st0 & H0 & W0 & V0).
  rewrite H0. cbn [bind].
  pose proof (cstring_is_nonul m) as Hn. rewrite Hm in Hn.
  apply nonul_app in Hn as [Hp _].
  assert (Hlen : length p <= strlen m).
  { unfold strlen. rewrite Hm, length_app. lia. }
  destruct (decode_loop_wf T p (strlen m) 0 st0 W0) as (st & Hl & W & V);
    [lia|assumption|].
  exists st. rewrite <- V0. auto.
Qed.

Lemma decodeText_spec (m : list ascii) :
  exists buf, decodeText T heap (Some m) = inr buf /\
    length buf = strlen m + 1 /\
    cstring buf = view_final T (view_loop T (cstring m) view_init) /\
    length (cstring buf) <= strlen m.
Proof.
  destruct (run_wf m (cstring m) []) as (st & Hr & W & V);
    [now rewrite app_nil_r|].
  unfold run in Hr. unfold decodeText.
  destruct (decode_init heap m) as [f|st0]; [discriminate|].
  cbn [bind] in *. rewrite Hr. cbn [bind].
  fold (strlen m) in W. rewrite <- V.
  pose proof (pending_length _ _ _ W) as Hpl.
  destruct W as [Hlen Hcb Hidx Hbud Hterm Hout Hpend Hsp].
  unfold view_of, view_final. rewrite Hpl.
  destruct (Nat.ltb_spec 0 (codeBufIndex st)) as [Hpos|Hz].
  - destruct (Nat.eqb_spec (codeBufIndex st) 0); [lia|].
    destruct (flush_code_ok T (strlen m) st)
        as (st2 & Hf & Ho & Hri & Hcl & Hci & Hp & Hsc & Hl & Ht & Hno);
        simpl; try assumption; try lia.
    rewrite Hf. cbn [bind]. eexists. split; [reflexivity|].
    pose proof (looked_up_length T (pending st)) as Hlu.
    assert (Hc : cstring (result st2) = output st2)
      by (now apply cstring_terminated).
    rewrite Hc. split; [assumption|]. split; [assumption|].
    unfold output. rewrite length_take. lia.
  - eexists. split; [reflexivity|].
    assert (Hc : cstring (result st) = output st)
      by (now apply cstring_terminated).
    rewrite Hc, app_nil_r. split; [assumption|]. split; [reflexivity|].
    unfold output. rewrite length_take.
    destruct (Nat.eqb_spec (codeBufIndex st) 0); lia.
Qed.

Lemma decode_spec (m : list ascii) :
  decode T heap m = inr (view_final T (view_loop T (cstring m) view_init)).
Proof.
  unfold decode. destruct (decodeText_spec m) as (buf & Hd & _ & Hc & _).
  rewrite Hd. cbn [bind]. now rewrite Hc.
Qed.

End DecodeRun.

(** ** [encodeText] word by word *)

Section EncodeFacts.
Variable T : list MorseMapping.
Variable slash : bool.

Lemma encode_step_main_eq (c : ascii) (st : estate) :
  encode_step_main T c st = encode_step T false c st.
Proof. reflexivity. Qed.

Lemma encodeText_main_eq (text : option (list ascii)) :
  encodeText_main T text = encodeText T text false.
Proof. reflexivity. Qed.

Lemma encode_loop_app (a b : list ascii) (st : estate) :
  encode_loop T slash (a ++ b) st = encode_loop T slash b (encode_loop T slash a st).
Proof. unfold encode_loop. apply fold_left_app. Qed.

Lemma encode_step_newline (c : ascii) (st : estate) :
  is_newline c = true -> encode_step T slash c st = st.
Proof. unfold encode_step, is_newline. now intros ->. Qed.


Lemma cstring_strip (t : list ascii) :
  cstring (strip_newlines t) = strip_newlines (cstring t).
Proof.
  induction t as [|c t IH]; [reflexivity|].
  cbn [strip_newlines List.filter cstring]. fold (strip_newlines t).
  destruct (Ascii.eqb_spec c NUL) as [->|Hc].
  - reflexivity.
  - destruct (is_newline c) eqn:E; cbn [negb].
    + rewrite IH. cbn [strip_newlines List.filter]. now rewrite E.
    + cbn [cstring]. destruct (Ascii.eqb_spec c NUL); [contradiction|].
      cbn [strip_newlines List.filter]. rewrite E. cbn [negb]. now rewrite IH.
Qed.


Lemma encode_step_plain (c : ascii) (st : estate) :
  plain c ->
  encode_step T slash c st =
  {| e_result := e_result st ++ letter_gap st ++ token T c;
     lastWasSpace := false; firstChar := false |}.
Proof.
  intros (Hn & Hlf & Hcr & Hsp). unfold encode_step, letter_gap, token.
  destruct (Ascii.eqb_spec c LF); [contradiction|].
  destruct (Ascii.eqb_spec c CR); [contradiction|].
  destruct (Ascii.eqb_spec c SP); [contradiction|].
  cbn [orb]. unfold strcat.
  change (cstring (str " ")) with [SP].
  change (cstring (str "*")) with [STAR].
  destruct (negb (firstChar st) && negb (lastWasSpace st));
    destruct (getCharacterCode T c); cbn [app];
    rewrite <- ?app_assoc; reflexivity.
Qed.

Lemma encode_step_space (st : estate) :
  encode_step T slash SP st =
  {| e_result :=
       e_result st ++
       (if negb (lastWasSpace st) && negb (firstChar st)
        then word_separator slash else []);
     lastWasSpace := true; firstChar := firstChar st |}.
Proof.
  unfold encode_step, word_separator, strcat. cbn [Ascii.eqb SP LF CR].
  change (orb _ _) with false. cbv iota.
  change (cstring (str " / ")) with (str " / ").
  change (cstring (str "   ")) with (str "   ").
  destruct (negb (lastWasSpace st) && negb (firstChar st)), slash;
    rewrite ?app_nil_r; reflexivity.
Qed.

Lemma encode_loop_word (w : list ascii) : forall st : estate,
  Forall plain w -> w <> [] ->
  encode_loop T slash w st =
  {| e_result := e_result st ++ letter_gap st ++ encode_word T w;
     lastWasSpace := false; firstChar := false |}.
Proof.
  induction w as [|c w IH]; intros st Hp Hne; [contradiction|].
  inversion Hp as [|? ? Hc Hw]; subst.
  change (encode_loop T slash (c :: w) st)
    with (encode_loop T slash w (encode_step T slash c st)).
  rewrite encode_step_plain by assumption.
  destruct w as [|c' w'].
  - reflexivity.
  - rewrite IH by (assumption || discriminate).
    cbn [e_result lastWasSpace firstChar letter_gap negb andb].
    unfold letter_gap at 1. cbn [firstChar lastWasSpace negb andb].
    f_equal. unfold encode_word. cbn [map join].
    rewrite <- !app_assoc. reflexivity.
Qed.

Lemma encode_loop_words (ws : list (list ascii)) : forall st : estate,
  Forall (fun w => w <> [] /\ Forall plain w) ws -> ws <> [] ->
  encode_loop T slash (join [SP] ws) st =
  {| e_result := e_result st ++ letter_gap st ++
                 join (word_separator slash) (map (encode_word T) ws);
     lastWasSpace := false; firstChar := false |}.
Proof.
  induction ws as [|w ws IH]; intros st Hg Hne; [contradiction|].
  inversion Hg as [|? ? [Hw Hp] Hws]; subst.
  destruct ws as [|w2 ws'].
  - cbn [join map]. now apply encode_loop_word.
  - change (join [SP] (w :: w2 :: ws')) with (w ++ [SP] ++ join [SP] (w2 :: ws')).
    rewrite !encode_loop_app. rewrite (encode_loop_word w) by assumption.
    change (encode_loop T slash [SP] ?s) with (encode_step T slash SP s).
    rewrite encode_step_space.
    cbn [e_result lastWasSpace firstChar negb andb].
    rewrite IH by (assumption || discriminate).
    unfold letter_gap. cbn [e_result lastWasSpace firstChar negb andb].
    f_equal. cbn [map join app]. rewrite <- !app_assoc. reflexivity.
Qed.

Lemma join_plain_nonul (ws : list (list ascii)) :
  Forall (fun w => w <> [] /\ Forall plain w) ws -> nonul (join [SP] ws).
Proof.
  induction 1 as [|w ws [_ Hp] _ IH]; [constructor|].
  assert (Hw : nonul w).
  { eapply Forall_impl; [exact Hp|]. intros c Hc. apply Hc. }
  destruct ws as [|w2 ws']; [exact Hw|].
  change (join [SP] (w :: w2 :: ws')) with (w ++ [SP] ++ join [SP] (w2 :: ws')).
  apply nonul_app. split; [exact Hw|].
  apply nonul_app. split; [|exact IH]. now repeat constructor.
Qed.

(** The text of words [ws] is encoded word by word. *)
Lemma encodeText_words (ws : list (list ascii)) :
  Forall (fun w => w <> [] /\ Forall plain w) ws ->
  encodeText T (Some (join [SP] ws)) slash =
  join (word_separator slash) (map (encode_word T) ws).
Proof.
  intros Hg. unfold encodeText.
  rewrite cstring_nonul by now apply join_plain_nonul.
  destruct ws as [|w ws]; [reflexivity|].
  rewrite encode_loop_words by (assumption || discriminate).
  reflexivity.
Qed.

End EncodeFacts.

(** ** The entry of the space character *)

Lemma toupper_SP (c : ascii) : toupper c = SP -> c = SP.
Proof.
  destruct c as [[] [] [] [] [] [] [] []]; vm_compute; intros H;
    first [reflexivity | discriminate H].
Qed.

Section TableFacts.
Variable T : list MorseMapping.

Lemma scan_character_without (c : ascii) :
  c <> SP ->
  scan_character (without_space_entry T) c = scan_character T c.
Proof.
  intros Hc. induction T as [|e tbl IH]; [reflexivity|].
  cbn [without_space_entry List.filter scan_character].
  fold (without_space_entry tbl).
  destruct (is_space_entry e) eqn:E; cbn [negb].
  - unfold is_space_entry in E. apply andb_true_iff in E as [E _].
    apply Ascii.eqb_eq in E. rewrite E.
    destruct (Ascii.eqb_spec SP c); [congruence|]. exact IH.
  - cbn [scan_character]. now rewrite IH.
Qed.

Lemma getCharacterCode_without (c : ascii) :
  c <> SP ->
  getCharacterCode (without_space_entry T) c = getCharacterCode T c.
Proof.
  intros Hc. unfold getCharacterCode. apply scan_character_without.
  intros H. apply Hc. now apply toupper_SP.
Qed.

Lemma encode_step_without (slash : bool) (c : ascii) (st : estate) :
  encode_step (without_space_entry T) slash c st = encode_step T slash c st.
Proof.
  unfold encode_step.
  destruct (Ascii.eqb c LF || Ascii.eqb c CR); [reflexivity|].
  destruct (Ascii.eqb_spec c SP); [reflexivity|].
  now rewrite getCharacterCode_without.
Qed.

Lemma encodeText_without (slash : bool) (text : option (list ascii)) :
  encodeText (without_space_entry T) text slash = encodeText T text slash.
Proof.
  destruct text as [t|]; [|reflexivity]. unfold encodeText, encode_loop.
  generalize encode_init. induction (cstring t) as [|c l IH]; intros st;
    [reflexivity|].
  cbn [fold_left]. now rewrite encode_step_without, IH.
Qed.

Lemma cstring_In (x : ascii) (l : list ascii) : In x (cstring l) -> In x l.
Proof.
  induction l as [|c l IH]; [auto|]. cbn [cstring].
  destruct (Ascii.eqb c NUL); [contradiction|].
  intros [H|H]; [now left|right; auto].
Qed.

Lemma scan_code_without (code0 : list ascii) :
  ~ In SLASH code0 ->
  scan_code (without_space_entry T) code0 = scan_code T code0.
Proof.
  intros Hs. induction T as [|e tbl IH]; [reflexivity|].
  cbn [without_space_entry List.filter scan_code].
  fold (without_space_entry tbl).
  destruct (is_space_entry e) eqn:E; cbn [negb].
  - unfold is_space_entry in E. apply andb_true_iff in E as [_ E].
    apply String.eqb_eq in E. rewrite E. unfold strcmp_eq.
    rewrite bool_decide_eq_false_2; [exact IH|].
    intros H. apply Hs, cstring_In. rewrite <- H. now left.
  - cbn [scan_code]. now rewrite IH.
Qed.

Lemma looked_up_without (code0 : list ascii) :
  ~ In SLASH code0 ->
  looked_up (without_space_entry T) code0 = looked_up T code0.
Proof.
  intros Hs. unfold looked_up, getCodeCharacter.
  now rewrite scan_code_without.
Qed.

Lemma view_step_slash_free (c : ascii) (v : view) :
  slash_free v -> slash_free (view_step T c v).
Proof.
  destruct v as [[out code0] sc]. unfold slash_free, view_step. cbn [fst snd].
  intros Hs.
  destruct (Ascii.eqb c LF || Ascii.eqb c CR); [exact Hs|].
  destruct (Ascii.eqb_spec c SP).
  { destruct ((sc + 1 =? 1)%Z && (0 <? length code0)); cbn [fst snd]; [tauto|].
    destruct (sc + 1 =? 3)%Z; exact Hs. }
  destruct (Ascii.eqb_spec c SLASH); cbn [fst snd]; [tauto|].
  destruct (length code0 <? 19); [|exact Hs].
  rewrite in_app_iff. intros [H|[H|[]]]; [tauto|congruence].
Qed.

Lemma view_step_without (c : ascii) (v : view) :
  slash_free v ->
  view_step (without_space_entry T) c v = view_step T c v.
Proof.
  destruct v as [[out code0] sc]. unfold slash_free, view_step. cbn [fst snd].
  intros Hs. now rewrite looked_up_without.
Qed.

Lemma view_loop_without (bytes : list ascii) : forall v : view,
  slash_free v ->
  view_loop (without_space_entry T) bytes v = view_loop T bytes v /\
  slash_free (view_loop T bytes v).
Proof.
  induction bytes as [|c bytes IH]; intros v Hs; [now split|].
  unfold view_loop. cbn [fold_left]. fold (view_loop (without_space_entry T) bytes).
  fold (view_loop T bytes).
  rewrite view_step_without by assumption.
  apply IH. now apply view_step_slash_free.
Qed.

Lemma decode_without (heap : nat -> ascii) (m : list ascii) :
  decode (without_space_entry T) heap m = decode T heap m.
Proof.
  rewrite !decode_spec.
  destruct (view_loop_without (cstring m) view_init) as [E Hs].
  { unfold slash_free, view_init. cbn. tauto. }
  rewrite E. destruct (view_loop T (cstring m) view_init) as [[out code0] sc].
  unfold view_final. unfold slash_free in Hs. cbn [fst snd] in Hs.
  now rewrite looked_up_without.
Qed.

(** A run of code bytes fills the code up to 19 bytes and no further. *)
Lemma view_loop_code_run (r : list ascii) : forall (out code0 : list ascii) (sc : Z),
  Forall code_byte r -> length code0 <= 19 ->
  view_loop T r (out, code0, sc) =
  (out, take 19 (code0 ++ r), if r is [] then sc else 0%Z).
Proof.
  induction r as [|c r IH]; intros out code0 sc Hr Hlen.
  - cbn. rewrite app_nil_r, take_ge by lia. reflexivity.
  - inversion Hr as [|? ? (Hn & Hlf & Hcr & Hsp & Hsl) Hr']; subst.
    change (view_loop T (c :: r) (out, code0, sc))
      with (view_loop T r (view_step T c (out, code0, sc))).
    unfold view_step.
    destruct (Ascii.eqb_spec c LF); [contradiction|].
    destruct (Ascii.eqb_spec c CR); [contradiction|].
    destruct (Ascii.eqb_spec c SP); [contradiction|].
    destruct (Ascii.eqb_spec c SLASH); [contradiction|].
    cbn [orb].
    destruct (Nat.ltb_spec (length code0) 19) as [Hroom|Hfull].
    + rewrite IH by (try assumption; rewrite length_app; simpl; lia).
      rewrite <- app_assoc. cbn [app].
      destruct r; reflexivity.
    + rewrite IH by (assumption || lia).
      rewrite !take_app_le by lia.
      destruct r; reflexivity.
Qed.

End TableFacts.

(** ** More on the views *)

Section MoreFacts.
Variable T : list MorseMapping.

Lemma outside_scan (tbl : list MorseMapping) (c : ascii) :
  Forall (fun e => character e <> c) tbl -> scan_character tbl c = None.
Proof.
  induction 1 as [|e tbl He _ IH]; [reflexivity|]. cbn [scan_character].
  destruct (Ascii.eqb_spec (character e) c); [contradiction|exact IH].
Qed.

Lemma token_outside (c : ascii) : outside T c -> token T c = [STAR].
Proof.
  intros H. unfold token, getCharacterCode. now rewrite outside_scan.
Qed.

Lemma encode_word_outside (w : list ascii) :
  Forall (outside T) w ->
  encode_word T w = join [SP] (map (fun _ => [STAR]) w).
Proof.
  intros H. unfold encode_word. f_equal.
  induction H as [|c w Hc _ IH]; [reflexivity|].
  cbn [map]. now rewrite token_outside, IH.
Qed.

Lemma encodeText_outside (slash : bool) (w : list ascii) :
  Forall plain w -> Forall (outside T) w ->
  encodeText T (Some w) slash = join [SP] (map (fun _ => [STAR]) w).
Proof.
  intros Hp Ho. destruct w as [|c w]; [reflexivity|].
  rewrite <- encode_word_outside by assumption.
  change (c :: w) with (join [SP] [c :: w]) at 1.
  rewrite encodeText_words; [reflexivity|].
  constructor; [|constructor]. split; [discriminate|assumption].
Qed.



Lemma view_loop_app (a b : list ascii) (v : view) :
  view_loop T (a ++ b) v = view_loop T b (view_loop T a v).
Proof. unfold view_loop. apply fold_left_app. Qed.


End MoreFacts.

(** ** The size of the output of [encodeText], and runs of spaces *)

Section EncodeSize.
Variable T : list MorseMapping.
Variable slash : bool.
Hypothesis Hshort : short_codes T.

Lemma scan_character_short (tbl : list MorseMapping) (c : ascii) (code0 : string) :
  short_codes tbl -> scan_character tbl c = Some code0 ->
  length (cstring (str code0)) <= 6.
Proof.
  induction 1 as [|e tbl He _ IH]; cbn [scan_character]; [discriminate|].
  destruct (Ascii.eqb (character e) c); [|exact IH].
  intros [= <-]. exact He.
Qed.

Lemma encode_step_grows (c : ascii) (st : estate) :
  length (e_result (encode_step T slash c st)) <= length (e_result st) + 7.
Proof.
  unfold encode_step.
  destruct (Ascii.eqb c LF || Ascii.eqb c CR); [lia|].
  destruct (Ascii.eqb c SP); cbn [e_result].
  - destruct (negb (lastWasSpace st) && negb (firstChar st)); [|lia].
    destruct slash; unfold strcat; rewrite length_app; cbn; lia.
  - assert (Hgap : length (if negb (firstChar st) && negb (lastWasSpace st)
                           then strcat (e_result st) (str " ") else e_result st)
                   <= length (e_result st) + 1).
    { destruct (negb (firstChar st) && negb (lastWasSpace st)); [|lia].
      unfold strcat. rewrite length_app. cbn. lia. }
    destruct (getCharacterCode T c) as [code0|] eqn:E;
      unfold strcat at 1; rewrite length_app.
    + apply (scan_character_short _ _ _ Hshort) in E. lia.
    + change (length (cstring (str "*"))) with 1. lia.
Qed.

Lemma encode_loop_grows (bytes : list ascii) : forall st : estate,
  length (e_result (encode_loop T slash bytes st))
  <= length (e_result st) + 7 * length bytes.
Proof.
  induction bytes as [|c bytes IH]; intros st; [cbn; lia|].
  change (encode_loop T slash (c :: bytes) st)
    with (encode_loop T slash bytes (encode_step T slash c st)).
  specialize (IH (encode_step T slash c st)).
  pose proof (encode_step_grows c st). cbn [length]. lia.
Qed.

(** The string [encodeText] builds for a text of at least one byte, and
    its terminator, fit the [strlen text * 10] bytes it allocates. *)
Lemma encodeText_fits (t : list ascii) :
  0 < strlen t ->
  length (encodeText T (Some t) slash) + 1 <= strlen t * 10.
Proof.
  intros Hpos. unfold encodeText.
  pose proof (encode_loop_grows (cstring t) encode_init) as H.
  cbn [encode_init e_result length] in H. unfold strlen in *. lia.
Qed.

End EncodeSize.

Lemma morse_c_short_codes : short_codes morse_c.MORSE_TABLE.
Proof. unfold short_codes. repeat constructor. Qed.

Lemma main_c_short_codes : short_codes main_c.MORSE_TABLE.
Proof. unfold short_codes. repeat constructor. Qed.

Section EncodeSpaces.
Variable T : list MorseMapping.
Variable slash : bool.

(** A second space in a row changes nothing. *)
Lemma encode_step_space_twice (st : estate) :
  encode_step T slash SP (encode_step T slash SP st) = encode_step T slash SP st.
Proof.
  rewrite !encode_step_space. cbn [e_result lastWasSpace firstChar negb andb].
  now rewrite app_nil_r.
Qed.

Lemma encode_loop_spaces (k : nat) : forall st : estate,
  encode_loop T slash (replicate (S k) SP) st = encode_step T slash SP st.
Proof.
  induction k as [|k IH]; intros st; [reflexivity|].
  change (replicate (S (S k)) SP) with (SP :: replicate (S k) SP).
  change (encode_loop T slash (SP :: ?l) st)
    with (encode_loop T slash l (encode_step T slash SP st)).
  rewrite IH. apply encode_step_space_twice.
Qed.

Lemma nonul_spaces (k : nat) : nonul (replicate k SP).
Proof. induction k; constructor; [discriminate|assumption]. Qed.

(** A run of spaces anywhere in a text acts as one space. *)
Lemma encodeText_space_run (a b : list ascii) (k : nat) :
  nonul a ->
  encodeText T (Some (a ++ replicate (S k) SP ++ b)) slash =
  encodeText T (Some (a ++ SP :: b)) slash.
Proof.
  intros Ha. unfold encodeText.
  rewrite !cstring_nonul_app by (assumption || apply nonul_spaces).
  change (SP :: b) with ([SP] ++ b).
  rewrite (cstring_nonul_app [SP]) by apply (nonul_spaces 1).
  rewrite !encode_loop_app, encode_loop_spaces. reflexivity.
Qed.

Lemma encode_step_alike (c : ascii) (s1 s2 : estate) :
  alike s1 s2 -> alike (encode_step T slash c s1) (encode_step T slash c s2).
Proof.
  destruct s1 as [r1 l1 f1], s2 as [r2 l2 f2]. unfold alike. cbn.
  intros (-> & -> & Hl). unfold encode_step. cbn.
  destruct (Ascii.eqb c LF || Ascii.eqb c CR); [cbn; auto|].
  destruct f2; [|rewrite Hl by reflexivity];
    destruct (Ascii.eqb c SP); cbn; rewrite ?andb_false_r; auto.
Qed.

Lemma encode_loop_alike (bytes : list ascii) : forall s1 s2 : estate,
  alike s1 s2 ->
  e_result (encode_loop T slash bytes s1) = e_result (encode_loop T slash bytes s2).
Proof.
  induction bytes as [|c bytes IH]; intros s1 s2 H; [apply H|].
  change (encode_loop T slash (c :: bytes) ?s)
    with (encode_loop T slash bytes (encode_step T slash c s)).
  apply IH. now apply encode_step_alike.
Qed.

(** Spaces in front of a text add nothing. *)
Lemma encodeText_leading_spaces (t : list ascii) (k : nat) :
  encodeText T (Some (replicate k SP ++ t)) slash = encodeText T (Some t) slash.
Proof.
  unfold encodeText.
  rewrite cstring_nonul_app by apply nonul_spaces.
  rewrite encode_loop_app. destruct k as [|k]; [reflexivity|].
  rewrite encode_loop_spaces. apply encode_loop_alike.
  rewrite encode_step_space. unfold alike. cbn. auto.
Qed.

End EncodeSpaces.

(** ** The properties *)

Lemma morse_decode_spec (heap : nat -> ascii) (m : list ascii) :
  morse_c.decode heap m =
  inr (view_final morse_c.MORSE_TABLE
         (view_loop morse_c.MORSE_TABLE (cstring m) view_init)).
Proof. apply decode_spec. Qed.

Lemma main_decode_spec (heap : nat -> ascii) (m : list ascii) :
  main_c.decode heap m =
  inr (view_final main_c.MORSE_TABLE
         (view_loop main_c.MORSE_TABLE (cstring m) view_init)).
Proof. apply decode_spec. Qed.

(** C1, counterexample.  The space is in the supported set, but the
    encoding of the one-character string [" "] is empty, and so is its
    decoding: the round trip does not give back [" "]. *)
Lemma roundtrip_fails_at_space :
  morse_c.decode x_heap (morse_c.encode [SP] false) <> inr [toupper SP] /\
  main_c.decode x_heap (main_c.encode [SP]) <> inr [toupper SP].
Proof. split; vm_compute; discriminate. Qed.

(** C1, amended.  For every supported character [c] other than the
    space, decoding the encoding of the one-character string [c] gives the
    one-character string [toupper c]: in [morse.c] with either separator
    style, and in [main.c] when [c] is not ['8'].  For the space, [encode]
    gives the empty string, which decodes to the empty string. *)
Theorem roundtrip_supported :
  (forall (heap : nat -> ascii) (c : ascii),
     In c supported_set -> c <> SP ->
     (forall slash : bool,
        morse_c.decode heap (morse_c.encode [c] slash) = inr [toupper c]) /\
     (c <> "8"%char ->
        main_c.decode heap (main_c.encode [c]) = inr [toupper c])) /\
  (forall (heap : nat -> ascii) (slash : bool),
     morse_c.encode [SP] slash = [] /\
     morse_c.decode heap (morse_c.encode [SP] slash) = inr [] /\
     main_c.encode [SP] = [] /\
     main_c.decode heap (main_c.encode [SP]) = inr []).
Proof.
  split.
  - intros heap c Hin Hsp. vm_compute in Hin.
    repeat (destruct Hin as [<-|Hin]); try contradiction;
    (split;
     [ intros slash; rewrite morse_decode_spec; destruct slash;
       first [ vm_compute; reflexivity | exfalso; apply Hsp; reflexivity ]
     | intros H8; rewrite main_decode_spec;
       first [ vm_compute; reflexivity
             | exfalso; apply H8; reflexivity
             | exfalso; apply Hsp; reflexivity ] ]).
  - intros heap slash. rewrite morse_decode_spec, main_decode_spec.
    destruct slash; vm_compute; auto.
Qed.

Lemma roundtrip_supported_witness :
  In "q"%char supported_set /\ "q"%char <> SP /\ "q"%char <> "8"%char /\
  (forall slash : bool,
     morse_c.decode x_heap (morse_c.encode ["q"%char] slash) = inr ["Q"%char]) /\
  main_c.decode x_heap (main_c.encode ["q"%char]) = inr ["Q"%char].
Proof.
  assert (H1 : In "q"%char supported_set).
  { vm_compute. do 42 right. left. reflexivity. }
  assert (H2 : "q"%char <> SP) by discriminate.
  assert (H3 : "q"%char <> "8"%char) by discriminate.
  destruct (proj1 roundtrip_supported x_heap "q"%char H1 H2) as [A B].
  split; [exact H1|]. split; [exact H2|]. split; [exact H3|].
  split; [exact A|exact (B H3)].
Defined.

(** The table of [morse.c] is one-to-one in both directions. *)
Lemma morse_table_bijective :
  NoDup (map character morse_c.MORSE_TABLE) /\
  NoDup (map code morse_c.MORSE_TABLE).
Proof.
  split; compute_done.
Qed.

Lemma main_table_characters_distinct :
  NoDup (map character main_c.MORSE_TABLE).
Proof. compute_done. Qed.

(** C2.  In the table of [main.c] the entries 25 and 34 are distinct,
    ['Z'] and ['8'], and carry the same code ["--.."]: the codes of the
    table are not pairwise distinct, the reverse lookup of ["--.."] answers
    ['Z'], and ["8"] decodes back as ["Z"]. *)
Theorem main_table_code_collision :
  main_c.MORSE_TABLE !! 25 = Some {| character := "Z"; code := "--.." |} /\
  main_c.MORSE_TABLE !! 34 = Some {| character := "8"; code := "--.." |} /\
  ~ NoDup (map code main_c.MORSE_TABLE) /\
  main_c.getCodeCharacter (str "--..") = "Z"%char /\
  main_c.decode x_heap (main_c.encode (str "8")) = inr (str "Z").
Proof.
  split; [reflexivity|]. split; [reflexivity|]. split; [|split; reflexivity].
  compute_done.
Qed.

(** C3.  For every input [m], [decodeText] runs without a store outside
    its buffers and returns its buffer of [strlen m + 1] bytes; the string
    it holds, which is [decode m], has at most [strlen m] bytes; and after
    every prefix of the input [resultIndex] is at most the number of bytes
    read and below the size of [result], so that the character and the
    terminator written next are inside the buffer. *)
Theorem decodeText_within_buffer (T : list MorseMapping) (heap : nat -> ascii)
    (m : list ascii) :
  exists buf : list ascii,
    decodeText T heap (Some m) = inr buf /\
    decodeText T heap (Some m) <> inl ResultOverflow /\
    length buf = strlen m + 1 /\
    decode T heap m = inr (cstring buf) /\
    length (cstring buf) <= strlen m /\
    (forall k : nat, exists st : dstate,
       run T heap m (take k (cstring m)) = inr st /\
       resultIndex st <= length (take k (cstring m)) /\
       resultIndex st < length (result st) /\
       length (result st) = strlen m + 1).
Proof.
  destruct (decodeText_spec T heap m) as (buf & Hd & Hlen & Hc & Hle).
  exists buf. split; [exact Hd|]. split; [rewrite Hd; discriminate|].
  split; [exact Hlen|].
  split; [unfold decode; rewrite Hd; reflexivity|]. split; [exact Hle|].
  intros k.
  destruct (run_wf T heap m (take k (cstring m)) (drop k (cstring m)))
    as (st & Hr & W & _); [now rewrite take_drop|].
  exists st. split; [exact Hr|]. destruct W.
  assert (length (take k (cstring m)) <= strlen m).
  { unfold strlen. rewrite length_take. lia. }
  destruct (Nat.eqb_spec (codeBufIndex st) 0); repeat split; lia.
Qed.

Lemma plain_letter (c : ascii) :
  negb (Ascii.eqb c NUL || is_newline c || Ascii.eqb c SP) = true -> plain c.
Proof.
  unfold plain, is_newline. intros H.
  apply negb_true_iff in H. apply orb_false_iff in H as [H H3].
  apply orb_false_iff in H as [H0 H]. apply orb_false_iff in H as [H1 H2].
  apply Ascii.eqb_neq in H0, H1, H2, H3. auto.
Qed.

(** C4.  The code at the empty text.  [encodeText] allocates
    [strlen text * 10] bytes, which is no byte for the empty text, and its
    first store, [result[0] = 0], falls outside this buffer: the run
    fails, in both variants and with either separator.  [decodeText],
    which allocates [strlen morse + 1] bytes, returns the empty string on
    the same input, and [encodeText] itself returns the empty string for
    the NULL pointer.  The empty text reaches [encodeText] from the
    command line: the run of [main.c] on an empty argument ends in this
    store. *)
Theorem encodeText_empty_text_overflow (heap : nat -> ascii) :
  malloc heap (strlen (str "") * 10) = [] /\
  encodeText_mem main_c.MORSE_TABLE heap (Some (str "")) false
  = inl ResultOverflow /\
  (forall slash : bool,
     encodeText_mem morse_c.MORSE_TABLE heap (Some (str "")) slash
     = inl ResultOverflow) /\
  main_c.decodeText heap (Some (str "")) = inr [NUL] /\
  morse_c.decodeText heap (Some (str "")) = inr [NUL] /\
  (forall slash : bool,
     encodeText_mem main_c.MORSE_TABLE heap None slash = inr [NUL] /\
     encodeText_mem morse_c.MORSE_TABLE heap None slash = inr [NUL]) /\
  main_program.main
    {| stdin_isatty := true; stdin_reads := [];
       access_R_OK := fun _ => false;
       fopen_r := fun _ => None; fopen_w := fun _ => None;
       fresh_bytes := heap |}
    [str "morse"; str ""] = None.
Proof.
  split; [reflexivity|]. split; [reflexivity|].
  split; [intros slash; reflexivity|].
  split; [reflexivity|]. split; [reflexivity|].
  split; [intros slash; split; reflexivity|].
  reflexivity.
Qed.

(** How the two transcoders treat what the table does not have, on the
    strings they build.  [decode] returns a string on every input.
    [encodeText] appends a ["*"] (after the letter gap) for every
    character that reaches the lookup and that no table entry matches, so
    a text of such characters encodes to stars joined by single spaces.
    In [decodeText], flushing an accumulated code that no entry matches
    leaves the output as it was, at whatever point of a run; a single such
    code, alone, before a space or before a slash, contributes nothing to
    the result.  In both variants [encode "#"] is ["*"] and [decode "#"]
    is empty. *)
Theorem degradation_policy :
  (forall (T : list MorseMapping) (heap : nat -> ascii) (m : list ascii),
     exists text : list ascii, decode T heap m = inr text) /\
  (forall (T : list MorseMapping) (slash : bool) (c : ascii) (st : estate),
     plain c -> outside T c ->
     encode_step T slash c st =
     {| e_result := e_result st ++ letter_gap st ++ [STAR];
        lastWasSpace := false; firstChar := false |}) /\
  (forall (T : list MorseMapping) (slash : bool) (w : list ascii),
     Forall plain w -> Forall (outside T) w ->
     encodeText T (Some w) slash = join [SP] (map (fun _ => [STAR]) w)) /\
  (forall (T : list MorseMapping) (heap : nat -> ascii) (m p q : list ascii)
          (st : dstate),
     cstring m = p ++ q -> run T heap m p = inr st ->
     0 < codeBufIndex st -> getCodeCharacter T (pending st) = NUL ->
     exists st' : dstate,
       flush_code T st = inr st' /\
       output st' = output st /\ resultIndex st' = resultIndex st) /\
  (forall (T : list MorseMapping) (heap : nat -> ascii) (r : list ascii),
     Forall code_byte r -> getCodeCharacter T (take 19 r) = NUL ->
     decode T heap r = inr [] /\
     decode T heap (r ++ [SP]) = inr [] /\
     decode T heap (r ++ [SLASH]) = inr [SP]) /\
  (forall (heap : nat -> ascii) (slash : bool),
     morse_c.encode (str "#") slash = str "*" /\
     main_c.encode (str "#") = str "*" /\
     morse_c.decode heap (str "#") = inr (str "") /\
     main_c.decode heap (str "#") = inr (str "")).
Proof.
  split; [|split; [|split; [|split; [|split]]]].
  - intros T heap m. eexists. apply decode_spec.
  - intros T slash c st Hp Ho.
    rewrite encode_step_plain by assumption. now rewrite token_outside.
  - intros T slash w. apply encodeText_outside.
  - intros T heap m p q st Hm Hr Hpos Hnul.
    destruct (run_wf T heap m p q Hm) as (st1 & Hr1 & W & _).
    rewrite Hr in Hr1. injection Hr1 as <-.
    destruct W as [Hlen Hcb Hidx Hbud Hterm Hout Hpend Hsp].
    destruct (Nat.eqb_spec (codeBufIndex st) 0); [lia|].
    assert (Hn : length (p ++ q) = strlen m) by (unfold strlen; now rewrite Hm).
    rewrite length_app in Hn.
    destruct (flush_code_ok T (strlen m) st)
      as (st' & Hf & Ho & Hri & _); try assumption; try lia.
    exists st'. split; [exact Hf|].
    unfold looked_up in Ho, Hri. rewrite Hnul in Ho, Hri. cbn in Ho, Hri.
    rewrite app_nil_r in Ho. split; [exact Ho|lia].
  - intros T heap r Hr Hnul.
    assert (Hn : nonul r).
    { eapply Forall_impl; [exact Hr|]. intros c Hc. apply Hc. }
    assert (Hsp : nonul [SP]) by now repeat constructor.
    assert (Hsl : nonul [SLASH]) by now repeat constructor.
    rewrite !decode_spec.
    rewrite !cstring_nonul by (try apply nonul_app; auto).
    rewrite !view_loop_app. unfold view_init.
    rewrite view_loop_code_run by (assumption || (cbn; lia)).
    cbn [app]. unfold view_loop. cbn [fold_left].
    unfold view_final, view_step, looked_up. rewrite Hnul.
    destruct r as [|c r]; cbn; auto.
  - intros heap slash. rewrite morse_decode_spec, main_decode_spec.
    destruct slash; vm_compute; auto.
Qed.

Lemma degradation_policy_witness :
  (plain "#"%char /\ outside morse_c.MORSE_TABLE "#"%char /\
   encode_step morse_c.MORSE_TABLE false "#"%char encode_init =
   {| e_result := [STAR]; lastWasSpace := false; firstChar := false |}) /\
  (Forall plain (str "#~") /\ Forall (outside morse_c.MORSE_TABLE) (str "#~") /\
   encodeText morse_c.MORSE_TABLE (Some (str "#~")) false = str "* *") /\
  (cstring (str ".- # .") = str ".- #" ++ str " ." /\
   exists st : dstate,
     run morse_c.MORSE_TABLE x_heap (str ".- # .") (str ".- #") = inr st /\
     0 < codeBufIndex st /\ getCodeCharacter morse_c.MORSE_TABLE (pending st) = NUL /\
     exists st' : dstate,
       flush_code morse_c.MORSE_TABLE st = inr st' /\
       output st' = output st /\ resultIndex st' = resultIndex st) /\
  (Forall code_byte (str "#") /\ getCodeCharacter morse_c.MORSE_TABLE (take 19 (str "#")) = NUL /\
   decode morse_c.MORSE_TABLE x_heap (str "#") = inr [] /\
   decode morse_c.MORSE_TABLE x_heap (str "#" ++ [SP]) = inr [] /\
   decode morse_c.MORSE_TABLE x_heap (str "#" ++ [SLASH]) = inr [SP]).
Proof.
  set (T := morse_c.MORSE_TABLE).
  destruct degradation_policy as (_ & Hstep & Htext & Hflush & Hdrop & _).
  assert (Hplain : forall c, negb (Ascii.eqb c NUL || is_newline c || Ascii.eqb c SP) = true
                             -> plain c) by exact plain_letter.
  assert (Hout : forall c, In c (str "#~") -> outside T c).
  { intros c [<-|[<-|[]]]; unfold outside; apply List.Forall_forall;
      intros e He; vm_compute in He;
      repeat (destruct He as [<-|He]; [vm_compute; discriminate|]);
      contradiction. }
  assert (P1 : plain "#"%char) by now apply Hplain.
  assert (P2 : plain "~"%char) by now apply Hplain.
  assert (O1 : outside T "#"%char) by (apply Hout; now left).
  assert (O2 : outside T "~"%char) by (apply Hout; right; now left).
  split; [|split; [|split]].
  - split; [exact P1|]. split; [exact O1|].
    exact (Hstep T false "#"%char encode_init P1 O1).
  - assert (F1 : Forall plain (str "#~")).
    { constructor; [exact P1|]. constructor; [exact P2|]. constructor. }
    assert (F2 : Forall (outside T) (str "#~")).
    { constructor; [exact O1|]. constructor; [exact O2|]. constructor. }
    split; [exact F1|]. split; [exact F2|].
    exact (Htext T false (str "#~") F1 F2).
  - assert (E : cstring (str ".- # .") = str ".- #" ++ str " .") by reflexivity.
    split; [exact E|].
    eexists. split; [vm_compute; reflexivity|].
    assert (I : 0 < 1) by lia.
    assert (N : getCodeCharacter T (str "#") = NUL) by reflexivity.
    split; [exact I|]. split; [exact N|].
    apply (Hflush T x_heap (str ".- # .") (str ".- #") (str " ."));
      [exact E|vm_compute; reflexivity|exact I|exact N].
  - assert (F : Forall code_byte (str "#")) by (repeat constructor; discriminate).
    assert (N : getCodeCharacter T (take 19 (str "#")) = NUL) by reflexivity.
    split; [exact F|]. split; [exact N|].
    exact (Hdrop T x_heap (str "#") F N).
Defined.

(** C5.  Wherever a ['/'] stands in the input, the iteration that reads
    it appends to the output the character of the pending code, if there is
    a pending code and the table has it, then exactly one space, and leaves
    the space counter and [codeBufIndex] at 0.  In both variants
    [decode ".- / -..."] is ["A B"]. *)
Theorem slash_flushes_then_emits_space :
  (forall (T : list MorseMapping) (heap : nat -> ascii) (m p q : list ascii),
     cstring m = p ++ SLASH :: q ->
     exists st st' : dstate,
       run T heap m p = inr st /\
       run T heap m (p ++ [SLASH]) = inr st' /\
       output st' = output st ++ flushed T st ++ [SP] /\
       spaceCount st' = 0%Z /\
       codeBufIndex st' = 0) /\
  (forall heap : nat -> ascii,
     morse_c.decode heap (str ".- / -...") = inr (str "A B") /\
     main_c.decode heap (str ".- / -...") = inr (str "A B")).
Proof.
  split.
  - intros T heap m p q Hm.
    destruct (run_wf T heap m p (SLASH :: q) Hm) as (st & Hr & W & V).
    destruct (run_wf T heap m (p ++ [SLASH]) q) as (st' & Hr' & W' & V').
    { rewrite Hm, <- app_assoc. reflexivity. }
    exists st, st'. split; [exact Hr|]. split; [exact Hr'|].
    rewrite view_loop_app, <- V in V'.
    pose proof (pending_length _ _ _ W) as Hpl.
    pose proof (pending_length _ _ _ W') as Hpl'.
    unfold view_of, view_loop in V'. cbn [fold_left] in V'.
    unfold view_step in V'.
    change (Ascii.eqb SLASH LF || Ascii.eqb SLASH CR) with false in V'.
    change (Ascii.eqb SLASH SP) with false in V'.
    change (Ascii.eqb SLASH SLASH) with true in V'. cbv iota in V'.
    injection V' as Ho Hp Hs.
    rewrite Hp in Hpl'. cbn in Hpl'.
    split; [|split; [exact Hs|now symmetry]].
    rewrite Ho, Hpl. unfold flushed.
    destruct (codeBufIndex st) as [|i]; reflexivity.
  - intros heap. rewrite morse_decode_spec, main_decode_spec.
    vm_compute. auto.
Qed.

Lemma slash_flushes_then_emits_space_witness :
  cstring (str ".- / -...") = str ".- " ++ SLASH :: str " -..." /\
  exists st st' : dstate,
    run morse_c.MORSE_TABLE x_heap (str ".- / -...") (str ".- ") = inr st /\
    run morse_c.MORSE_TABLE x_heap (str ".- / -...") (str ".- " ++ [SLASH])
      = inr st' /\
    output st' = output st ++ flushed morse_c.MORSE_TABLE st ++ [SP] /\
    spaceCount st' = 0%Z /\
    codeBufIndex st' = 0.
Proof.
  assert (H : cstring (str ".- / -...") = str ".- " ++ SLASH :: str " -...")
    by reflexivity.
  split; [exact H|].
  exact (proj1 slash_flushes_then_emits_space morse_c.MORSE_TABLE x_heap
           (str ".- / -...") (str ".- ") (str " -...") H).
Defined.

(** C6.  With the separator flag set, the encoding of words joined by
    single spaces is the encodings of the words joined by [" / "], the
    encoding of a word being the codes of its characters joined by one
    space; [encode "AB CD"] with the flag is [".- -... / -.-. -.."]. *)
Theorem slash_word_separator :
  (forall ws : list (list ascii),
     Forall (fun w => w <> [] /\ Forall plain w) ws ->
     morse_c.encode (join [SP] ws) true =
     join (str " / ")
       (map (fun w => join (str " ") (map (token morse_c.MORSE_TABLE) w)) ws)) /\
  morse_c.encode (str "AB CD") true = str ".- -... / -.-. -..".
Proof.
  split; [|reflexivity].
  intros ws Hws. unfold morse_c.encode, morse_c.encodeText.
  now rewrite encodeText_words.
Qed.

Lemma slash_word_separator_witness :
  Forall (fun w => w <> [] /\ Forall plain w) [str "AB"; str "CD"] /\
  morse_c.encode (join [SP] [str "AB"; str "CD"]) true =
  join (str " / ")
    (map (fun w => join (str " ") (map (token morse_c.MORSE_TABLE) w))
       [str "AB"; str "CD"]).
Proof.
  assert (H : Forall (fun w => w <> [] /\ Forall plain w) [str "AB"; str "CD"]).
  { repeat constructor; try discriminate; now apply plain_letter. }
  split; [exact H|].
  exact (proj1 slash_word_separator [str "AB"; str "CD"] H).
Defined.

(** Words followed by spaces: one separator is appended. *)
Lemma encodeText_trailing_spaces (T : list MorseMapping) (slash : bool)
    (ws : list (list ascii)) (k : nat) :
  Forall (fun w => w <> [] /\ Forall plain w) ws -> ws <> [] ->
  encodeText T (Some (join [SP] ws ++ replicate (S k) SP)) slash =
  join (word_separator slash) (map (encode_word T) ws) ++ word_separator slash.
Proof.
  intros Hws Hne.
  pose proof (join_plain_nonul ws Hws) as Hn.
  rewrite <- (app_nil_r (replicate (S k) SP)).
  rewrite encodeText_space_run by assumption.
  unfold encodeText.
  rewrite cstring_nonul
    by (apply nonul_app; split; [assumption|now repeat constructor]).
  rewrite encode_loop_app, encode_loop_words by assumption.
  change (encode_loop T slash [SP] ?s) with (encode_step T slash SP s).
  rewrite encode_step_space. reflexivity.
Qed.

(** C7.  The code at the text ["A "].  A word followed by a space is
    encoded with the word separator behind it, in both variants and with
    either separator style: the encoding of ["A "] ends with a separator
    that stands between no two words, and is not the encoding of ["A"]. *)
Lemma trailing_space_emits_separator :
  morse_c.encode (str "A ") false = str ".-" ++ str "   " /\
  morse_c.encode (str "A ") true = str ".-" ++ str " / " /\
  main_c.encode (str "A ") = str ".-" ++ str "   " /\
  morse_c.encode (str "A ") false <> morse_c.encode (str "A") false /\
  morse_c.encode (str "A ") true <> morse_c.encode (str "A") true /\
  main_c.encode (str "A ") <> main_c.encode (str "A").
Proof.
  repeat split; vm_compute; try reflexivity; discriminate.
Qed.

(** What [encodeText] does with runs of spaces.  [encodeText] of [main.c]
    is that of [morse.c] without the flag, and for every table and either
    separator style: spaces in front of a text add nothing to its
    encoding; a run of spaces anywhere in a text acts as one space; words
    joined by single spaces are encoded word by word with exactly one
    separator between two words; and the separator that a space behind
    the last word leaves is one, however long the run.  In both variants
    [encode "A   B"] is [encode "A B"]. *)
Theorem spacing_normalized :
  (forall (T : list MorseMapping) (text : option (list ascii)),
     encodeText_main T text = encodeText T text false) /\
  (forall (T : list MorseMapping) (slash : bool) (t : list ascii) (k : nat),
     encodeText T (Some (replicate k SP ++ t)) slash =
     encodeText T (Some t) slash) /\
  (forall (T : list MorseMapping) (slash : bool) (a b : list ascii) (k : nat),
     nonul a ->
     encodeText T (Some (a ++ replicate (S k) SP ++ b)) slash =
     encodeText T (Some (a ++ SP :: b)) slash) /\
  (forall (T : list MorseMapping) (slash : bool) (ws : list (list ascii)),
     Forall (fun w => w <> [] /\ Forall plain w) ws ->
     encodeText T (Some (join [SP] ws)) slash =
     join (word_separator slash) (map (encode_word T) ws)) /\
  (forall (T : list MorseMapping) (slash : bool) (ws : list (list ascii))
          (k : nat),
     Forall (fun w => w <> [] /\ Forall plain w) ws -> ws <> [] ->
     encodeText T (Some (join [SP] ws ++ replicate (S k) SP)) slash =
     join (word_separator slash) (map (encode_word T) ws)
     ++ word_separator slash) /\
  (forall slash : bool,
     morse_c.encode (str "A   B") slash = morse_c.encode (str "A B") slash) /\
  main_c.encode (str "A   B") = main_c.encode (str "A B").
Proof.
  split; [|split; [|split; [|split; [|split; [|split]]]]].
  - reflexivity.
  - intros T slash t k. apply encodeText_leading_spaces.
  - intros T slash a b k. apply encodeText_space_run.
  - intros T slash ws. apply encodeText_words.
  - intros T slash ws k. apply encodeText_trailing_spaces.
  - intros slash. destruct slash; reflexivity.
  - reflexivity.
Qed.

Lemma spacing_normalized_witness :
  nonul (str "A") /\
  encodeText morse_c.MORSE_TABLE (Some (str "A" ++ replicate 3 SP ++ str "B")) false =
  encodeText morse_c.MORSE_TABLE (Some (str "A" ++ SP :: str "B")) false /\
  Forall (fun w => w <> [] /\ Forall plain w) [str "AB"; str "CD"] /\
  [str "AB"; str "CD"] <> [] /\
  encodeText morse_c.MORSE_TABLE (Some (join [SP] [str "AB"; str "CD"])) false =
  join (word_separator false)
    (map (encode_word morse_c.MORSE_TABLE) [str "AB"; str "CD"]) /\
  encodeText morse_c.MORSE_TABLE
    (Some (join [SP] [str "AB"; str "CD"] ++ replicate 2 SP)) false =
  join (word_separator false)
    (map (encode_word morse_c.MORSE_TABLE) [str "AB"; str "CD"])
  ++ word_separator false.
Proof.
  destruct spacing_normalized as (_ & _ & Hrun & Hwords & Htrail & _).
  assert (H1 : nonul (str "A")) by (repeat constructor; discriminate).
  assert (H2 : Forall (fun w => w <> [] /\ Forall plain w) [str "AB"; str "CD"]).
  { repeat constructor; try discriminate; now apply plain_letter. }
  assert (H3 : [str "AB"; str "CD"] <> []) by discriminate.
  split; [exact H1|].
  split; [exact (Hrun morse_c.MORSE_TABLE false (str "A") (str "B") 2 H1)|].
  split; [exact H2|]. split; [exact H3|].
  split; [exact (Hwords morse_c.MORSE_TABLE false _ H2)|].
  exact (Htrail morse_c.MORSE_TABLE false _ 1 H2 H3).
Defined.




(** C10.  Both tables hold the entry of the space, and neither operation
    depends on it: without the entry, [encodeText] of either variant and
    [decode] return what they return with it, on every input and for every
    table.  After every prefix of an input the pending code of [decodeText]
    holds no slash, so the lookup is never asked for ["/"]; and the
    encoding of [" "] is empty. *)
Theorem space_entry_never_used :
  (forall (T : list MorseMapping) (slash : bool) (text : option (list ascii)),
     encodeText (without_space_entry T) text slash = encodeText T text slash) /\
  (forall (T : list MorseMapping) (text : option (list ascii)),
     encodeText_main (without_space_entry T) text = encodeText_main T text) /\
  (forall (T : list MorseMapping) (heap : nat -> ascii) (m : list ascii),
     decode (without_space_entry T) heap m = decode T heap m) /\
  (forall (T : list MorseMapping) (heap : nat -> ascii) (m : list ascii) (k : nat),
     exists st : dstate,
       run T heap m (take k (cstring m)) = inr st /\ ~ In SLASH (pending st)) /\
  (forall slash : bool, morse_c.encode (str " ") slash = str "") /\
  main_c.encode (str " ") = str "" /\
  In {| character := " "; code := "/" |} morse_c.MORSE_TABLE /\
  In {| character := " "; code := "/" |} main_c.MORSE_TABLE /\
  length (without_space_entry morse_c.MORSE_TABLE) = 50 /\
  length (without_space_entry main_c.MORSE_TABLE) = 50.
Proof.
  split; [|split; [|split; [|split; [|split; [|split; [|split; [|split; [|split]]]]]]]].
  - intros T slash text. apply encodeText_without.
  - intros T text. rewrite !encodeText_main_eq. apply encodeText_without.
  - intros T heap m. apply decode_without.
  - intros T heap m k.
    destruct (run_wf T heap m (take k (cstring m)) (drop k (cstring m)))
      as (st & Hr & _ & V); [now rewrite take_drop|].
    exists st. split; [exact Hr|].
    change (pending st) with (snd (fst (view_of st))). rewrite V.
    apply view_loop_without. unfold slash_free, view_init. cbn. tauto.
  - intros slash. destruct slash; reflexivity.
  - reflexivity.
  - vm_compute. tauto.
  - vm_compute. tauto.
  - reflexivity.
  - reflexivity.
Qed.

(** * Further properties *)

(** ** Case and newlines *)

Lemma toupper_idemp (c : ascii) : toupper (toupper c) = toupper c.
Proof. destruct c as [[] [] [] [] [] [] [] []]; reflexivity. Qed.

Lemma toupper_eqb_special (c : ascii) :
  Ascii.eqb (toupper c) NUL = Ascii.eqb c NUL /\
  Ascii.eqb (toupper c) LF = Ascii.eqb c LF /\
  Ascii.eqb (toupper c) CR = Ascii.eqb c CR /\
  Ascii.eqb (toupper c) SP = Ascii.eqb c SP.
Proof. destruct c as [[] [] [] [] [] [] [] []]; repeat split; reflexivity. Qed.

Lemma encode_step_toupper (T : list MorseMapping) (slash : bool) (c : ascii)
    (st : estate) :
  encode_step T slash (toupper c) st = encode_step T slash c st.
Proof.
  destruct (toupper_eqb_special c) as (_ & Hlf & Hcr & Hsp).
  unfold encode_step, getCharacterCode.
  now rewrite Hlf, Hcr, Hsp, toupper_idemp.
Qed.

Lemma cstring_map_toupper (t : list ascii) :
  cstring (map toupper t) = map toupper (cstring t).
Proof.
  induction t as [|c t IH]; [reflexivity|]. cbn [map cstring].
  destruct (toupper_eqb_special c) as (Hn & _). rewrite Hn.
  destruct (Ascii.eqb c NUL); [reflexivity|]. cbn [map]. now rewrite IH.
Qed.

Lemma encode_loop_map_toupper (T : list MorseMapping) (slash : bool)
    (bytes : list ascii) : forall st : estate,
  encode_loop T slash (map toupper bytes) st = encode_loop T slash bytes st.
Proof.
  induction bytes as [|c bytes IH]; intros st; [reflexivity|].
  cbn [map].
  change (encode_loop T slash (?x :: ?l) st)
    with (encode_loop T slash l (encode_step T slash x st)).
  now rewrite encode_step_toupper, IH.
Qed.

(** X1. [encodeText] does not see the case of its input: a text and the
    text with every byte passed through [toupper] have the same encoding,
    in [morse.c] with either separator and in [main.c]. *)
Theorem encode_ignores_case (t : list ascii) :
  (forall slash : bool,
     morse_c.encode (map toupper t) slash = morse_c.encode t slash) /\
  main_c.encode (map toupper t) = main_c.encode t.
Proof.
  assert (H : forall T slash,
             encodeText T (Some (map toupper t)) slash
             = encodeText T (Some t) slash).
  { intros T slash. unfold encodeText.
    now rewrite cstring_map_toupper, encode_loop_map_toupper. }
  split; [intros slash; apply H|].
  unfold main_c.encode, main_c.encodeText. rewrite !encodeText_main_eq. apply H.
Qed.

Lemma view_step_newline (T : list MorseMapping) (c : ascii) (v : view) :
  is_newline c = true -> view_step T c v = v.
Proof.
  destruct v as [[out code0] sc]. unfold view_step, is_newline. now intros ->.
Qed.

Lemma view_loop_strip (T : list MorseMapping) (bytes : list ascii) :
  forall v : view,
  view_loop T (strip_newlines bytes) v = view_loop T bytes v.
Proof.
  induction bytes as [|c bytes IH]; intros v; [reflexivity|].
  cbn [strip_newlines List.filter]. fold (strip_newlines bytes).
  change (view_loop T (c :: bytes) v) with (view_loop T bytes (view_step T c v)).
  destruct (is_newline c) eqn:E; cbn [negb].
  - now rewrite view_step_newline, IH.
  - change (view_loop T (c :: ?l) v) with (view_loop T l (view_step T c v)).
    apply IH.
Qed.

(** X2. [decodeText] skips line feeds and carriage returns wherever they
    stand: over any table, a Morse text and the text without these bytes
    decode to the same result. *)
Theorem decode_ignores_newlines (T : list MorseMapping) (heap : nat -> ascii)
    (m : list ascii) :
  decode T heap (strip_newlines m) = decode T heap m.
Proof.
  rewrite !decode_spec. now rewrite cstring_strip, view_loop_strip.
Qed.

(** X8. The result of [decodeText] does not depend on what [malloc]
    returns: with any two contents of fresh memory the run ends without
    fault and the two buffers hold the same string. *)
Theorem decode_ignores_heap (T : list MorseMapping) (heap1 heap2 : nat -> ascii)
    (m : list ascii) :
  decode T heap1 m = decode T heap2 m /\
  exists buf1 buf2 : list ascii,
    decodeText T heap1 (Some m) = inr buf1 /\
    decodeText T heap2 (Some m) = inr buf2 /\
    cstring buf1 = cstring buf2.
Proof.
  split; [now rewrite !decode_spec|].
  destruct (decodeText_spec T heap1 m) as (b1 & H1 & _ & C1 & _).
  destruct (decodeText_spec T heap2 m) as (b2 & H2 & _ & C2 & _).
  exists b1, b2. rewrite C1, C2. auto.
Qed.

(** ** Decoding what was encoded *)

Section BackAndForth.
Variable T : list MorseMapping.
Hypothesis Htidy : tidy T.

Lemma scan_character_tidy (tbl : list MorseMapping) (x : ascii) (k : string) :
  tidy tbl -> x <> SP -> scan_character tbl x = Some k ->
  cstring (str k) <> [] /\ Forall code_byte (cstring (str k)) /\
  length (cstring (str k)) <= 19.
Proof.
  intros Ht Hx. induction Ht as [|e tbl He _ IH]; cbn [scan_character];
    [discriminate|].
  destruct (Ascii.eqb_spec (character e) x) as [E|E]; [|exact IH].
  intros [= <-]. apply He. congruence.
Qed.

Lemma token_tidy (c : ascii) :
  plain c ->
  token T c <> [] /\ Forall code_byte (token T c) /\ length (token T c) <= 19.
Proof.
  intros (Hn & Hlf & Hcr & Hsp). unfold token, getCharacterCode.
  destruct (scan_character T (toupper c)) as [k|] eqn:E.
  - apply (scan_character_tidy T (toupper c) k Htidy); [|exact E].
    intros H. apply Hsp. now apply toupper_SP.
  - split; [discriminate|]. split; [|cbn; lia].
    repeat constructor; discriminate.
Qed.

Lemma view_loop_token (c : ascii) (out : list ascii) (sc : Z) :
  plain c ->
  view_loop T (token T c) (out, [], sc) = (out, token T c, 0%Z).
Proof.
  intros Hp. destruct (token_tidy c Hp) as (Hne & Hcb & Hlen).
  rewrite view_loop_code_run by (assumption || (cbn; lia)).
  cbn [app]. rewrite take_ge by lia.
  destruct (token T c); [contradiction|reflexivity].
Qed.

Lemma view_final_token (c : ascii) (out : list ascii) (sc : Z) :
  plain c -> view_final T (out, token T c, sc) = out ++ echo T c.
Proof.
  intros Hp. destruct (token_tidy c Hp) as (Hne & _).
  unfold view_final, echo. destruct (token T c); [contradiction|reflexivity].
Qed.

End BackAndForth.

Lemma encode_step_nonul (T : list MorseMapping) (slash : bool) (c : ascii)
    (st : estate) :
  nonul (e_result st) -> nonul (e_result (encode_step T slash c st)).
Proof.
  intros H. unfold encode_step, strcat.
  destruct (Ascii.eqb c LF || Ascii.eqb c CR); [exact H|].
  destruct (Ascii.eqb c SP); cbn [e_result].
  - destruct (negb (lastWasSpace st) && negb (firstChar st)); [|exact H].
    destruct slash; apply nonul_app; split; auto using cstring_is_nonul.
  - assert (H1 : nonul (if negb (firstChar st) && negb (lastWasSpace st)
                        then e_result st ++ cstring (str " ") else e_result st)).
    { destruct (negb (firstChar st) && negb (lastWasSpace st)); [|exact H].
      apply nonul_app; split; auto using cstring_is_nonul. }
    destruct (getCharacterCode T c); apply nonul_app; split;
      auto using cstring_is_nonul.
Qed.

Lemma encode_loop_nonul (T : list MorseMapping) (slash : bool)
    (bytes : list ascii) : forall st : estate,
  nonul (e_result st) -> nonul (e_result (encode_loop T slash bytes st)).
Proof.
  induction bytes as [|c bytes IH]; intros st H; [exact H|].
  change (encode_loop T slash (c :: bytes) st)
    with (encode_loop T slash bytes (encode_step T slash c st)).
  apply IH. now apply encode_step_nonul.
Qed.

(** The string [encodeText] returns holds no terminator. *)
Lemma encodeText_nonul (T : list MorseMapping) (slash : bool)
    (text : option (list ascii)) :
  nonul (encodeText T text slash).
Proof.
  destruct text as [t|]; [|constructor]. unfold encodeText.
  apply encode_loop_nonul. constructor.
Qed.

Section Simulation.
Variable T : list MorseMapping.
Variable slash : bool.
Hypothesis Htidy : tidy T.

Lemma in_step_init : in_step T encode_init encode_init view_init.
Proof.
  unfold in_step, encode_init, view_init. cbn.
  repeat split; auto; discriminate.
Qed.

Lemma view_loop_word_separator (out code0 : list ascii) (x : ascii) :
  view_loop T (word_separator slash) (out, x :: code0, 0%Z) =
  ((out ++ looked_up T (x :: code0)) ++ [SP], [], if slash then 1%Z else 0%Z).
Proof. destruct slash; reflexivity. Qed.

Lemma in_step_step (c : ascii) (est nst : estate) :
  c <> NUL ->
  in_step T est nst (view_loop T (e_result est) view_init) ->
  in_step T (encode_step T slash c est) (normal_step T c nst)
    (view_loop T (e_result (encode_step T slash c est)) view_init).
Proof.
  intros Hc. remember (view_loop T (e_result est) view_init) as v eqn:Hv.
  intros (Hl & Hf & Hfin & Hfirst & Hchar & Hspace).
  destruct (is_newline c) eqn:Enl.
  { rewrite encode_step_newline by assumption. unfold normal_step. rewrite Enl.
    rewrite <- Hv. unfold in_step. auto 10. }
  destruct (Ascii.eqb_spec c SP) as [->|Hsp].
  { rewrite encode_step_space. unfold normal_step.
    change (is_newline SP) with false. change (Ascii.eqb SP SP) with true.
    cbv iota. cbn [e_result lastWasSpace firstChar]. rewrite <- Hl, <- Hf.
    destruct (firstChar est) eqn:Ef.
    - rewrite andb_false_r, app_nil_r, <- Hv.
      unfold in_step. cbn [e_result lastWasSpace firstChar].
      repeat split; auto; discriminate.
    - destruct (lastWasSpace est) eqn:El; cbn [negb andb].
      + rewrite app_nil_r, <- Hv.
        unfold in_step. cbn [e_result lastWasSpace firstChar].
        repeat split; auto; try discriminate. all: now apply Hspace.
      + rewrite view_loop_app, <- Hv.
        destruct (Hchar eq_refl eq_refl) as [Hcode Hsc].
        destruct v as [[out code0] sc]. cbn [fst snd] in *. subst sc.
        destruct code0 as [|x code0]; [contradiction|].
        rewrite view_loop_word_separator.
        unfold in_step. cbn [e_result lastWasSpace firstChar fst snd].
        change (view_final T (out, x :: code0, 0%Z))
          with (out ++ looked_up T (x :: code0)) in Hfin.
        unfold view_final. change (0 <? length (@nil ascii)) with false.
        cbv iota. rewrite app_nil_r, Hfin.
        repeat split; auto; try discriminate.
        destruct slash; auto. }
  assert (Hp : plain c).
  { unfold is_newline in Enl. apply orb_false_iff in Enl as [E1 E2].
    apply Ascii.eqb_neq in E1, E2. repeat split; assumption. }
  rewrite encode_step_plain by assumption. unfold normal_step. rewrite Enl.
  destruct (Ascii.eqb_spec c SP); [contradiction|].
  cbn [e_result]. rewrite !view_loop_app, <- Hv.
  destruct (token_tidy T Htidy c Hp) as (Hne & _).
  assert (Hshape : forall out : list ascii,
    in_step T
      {| e_result := e_result est ++ letter_gap est ++ token T c;
         lastWasSpace := false; firstChar := false |}
      {| e_result := out ++ echo T c; lastWasSpace := false; firstChar := false |}
      (out, token T c, 0%Z)).
  { intros out. unfold in_step. cbn [e_result lastWasSpace firstChar fst snd].
    rewrite (view_final_token T Htidy) by assumption.
    repeat split; auto; discriminate. }
  unfold letter_gap. destruct (firstChar est) eqn:Ef.
  - rewrite (Hfirst eq_refl) in *. cbn [negb andb].
    change (view_loop T [] view_init) with view_init. unfold view_init.
    rewrite (view_loop_token T Htidy) by assumption.
    replace (e_result nst) with (@nil ascii) by (rewrite <- Hfin; reflexivity).
    apply (Hshape []).
  - destruct (lastWasSpace est) eqn:El; cbn [negb andb].
    + destruct (Hspace eq_refl eq_refl) as [Hcode Hsc].
      destruct v as [[out code0] sc]. cbn [fst snd] in *. subst code0.
      change (view_loop T [] (out, [], sc)) with (out, @nil ascii, sc).
      rewrite (view_loop_token T Htidy) by assumption.
      replace (e_result nst) with out
        by (rewrite <- Hfin; cbn; now rewrite app_nil_r).
      apply (Hshape out).
    + destruct (Hchar eq_refl eq_refl) as [Hcode Hsc].
      destruct v as [[out code0] sc]. cbn [fst snd] in *. subst sc.
      destruct code0 as [|x code0]; [contradiction|].
      change (view_loop T [SP] (out, x :: code0, 0%Z))
        with (out ++ looked_up T (x :: code0), @nil ascii, 1%Z).
      rewrite (view_loop_token T Htidy) by assumption.
      replace (e_result nst) with (out ++ looked_up T (x :: code0))
        by (rewrite <- Hfin; reflexivity).
      apply Hshape.
Qed.

Lemma in_step_loop (bytes : list ascii) : forall est nst : estate,
  nonul bytes ->
  in_step T est nst (view_loop T (e_result est) view_init) ->
  in_step T (encode_loop T slash bytes est) (normal_loop T bytes nst)
    (view_loop T (e_result (encode_loop T slash bytes est)) view_init).
Proof.
  induction bytes as [|c bytes IH]; intros est nst Hn H; [exact H|].
  inversion Hn as [|? ? Hc Hn']; subst.
  change (encode_loop T slash (c :: bytes) est)
    with (encode_loop T slash bytes (encode_step T slash c est)).
  change (normal_loop T (c :: bytes) nst)
    with (normal_loop T bytes (normal_step T c nst)).
  apply IH; [assumption|]. now apply in_step_step.
Qed.

(** Decoding the encoding of a text gives the normalized text. *)
Lemma decode_encodeText (heap : nat -> ascii) (text : list ascii) :
  decode T heap (encodeText T (Some text) slash) = inr (normalize T text).
Proof.
  rewrite decode_spec.
  rewrite cstring_nonul by apply encodeText_nonul.
  unfold encodeText, normalize.
  destruct (in_step_loop (cstring text) encode_init encode_init
              (cstring_is_nonul text) in_step_init) as (_ & _ & H & _).
  now rewrite H.
Qed.

End Simulation.

Lemma morse_c_tidy : tidy morse_c.MORSE_TABLE.
Proof.
  unfold tidy.
  repeat (apply List.Forall_cons;
    [ intros H;
      first [ solve [exfalso; apply H; reflexivity]
            | split; [discriminate|];
              split; [repeat constructor; discriminate | cbn; lia] ] | ]).
  constructor.
Qed.

Lemma main_c_tidy : tidy main_c.MORSE_TABLE.
Proof.
  unfold tidy.
  repeat (apply List.Forall_cons;
    [ intros H;
      first [ solve [exfalso; apply H; reflexivity]
            | split; [discriminate|];
              split; [repeat constructor; discriminate | cbn; lia] ] | ]).
  constructor.
Qed.

Lemma morse_c_decode_encode (heap : nat -> ascii) (text : list ascii)
    (slash : bool) :
  morse_c.decode heap (morse_c.encode text slash)
  = inr (normalize morse_c.MORSE_TABLE text).
Proof. apply decode_encodeText, morse_c_tidy. Qed.

Lemma main_c_decode_encode (heap : nat -> ascii) (text : list ascii) :
  main_c.decode heap (main_c.encode text)
  = inr (normalize main_c.MORSE_TABLE text).
Proof.
  unfold main_c.encode, main_c.encodeText. rewrite encodeText_main_eq.
  apply decode_encodeText, main_c_tidy.
Qed.


Section WordsBack.
Variable T : list MorseMapping.

Lemma normal_step_plain (c : ascii) (st : estate) :
  plain c ->
  normal_step T c st =
  {| e_result := e_result st ++ echo T c;
     lastWasSpace := false; firstChar := false |}.
Proof.
  intros (Hn & Hlf & Hcr & Hsp). unfold normal_step, is_newline.
  destruct (Ascii.eqb_spec c LF); [contradiction|].
  destruct (Ascii.eqb_spec c CR); [contradiction|].
  destruct (Ascii.eqb_spec c SP); [contradiction|]. reflexivity.
Qed.

Lemma normal_loop_app (a b : list ascii) (st : estate) :
  normal_loop T (a ++ b) st = normal_loop T b (normal_loop T a st).
Proof. unfold normal_loop. apply fold_left_app. Qed.

Lemma normal_loop_word (w : list ascii) : forall st : estate,
  Forall plain w -> w <> [] ->
  normal_loop T w st =
  {| e_result := e_result st ++ flat_map (echo T) w;
     lastWasSpace := false; firstChar := false |}.
Proof.
  induction w as [|c w IH]; intros st Hp Hne; [contradiction|].
  inversion Hp as [|? ? Hc Hw]; subst.
  change (normal_loop T (c :: w) st)
    with (normal_loop T w (normal_step T c st)).
  rewrite normal_step_plain by assumption.
  destruct w as [|c' w'].
  - cbn. now rewrite app_nil_r.
  - rewrite IH by (assumption || discriminate).
    cbn [e_result flat_map]. now rewrite <- app_assoc.
Qed.

Lemma normal_loop_words (ws : list (list ascii)) : forall st : estate,
  Forall (fun w => w <> [] /\ Forall plain w) ws -> ws <> [] ->
  normal_loop T (join [SP] ws) st =
  {| e_result := e_result st ++ join [SP] (map (flat_map (echo T)) ws);
     lastWasSpace := false; firstChar := false |}.
Proof.
  induction ws as [|w ws IH]; intros st Hg Hne; [contradiction|].
  inversion Hg as [|? ? [Hw Hp] Hws]; subst.
  destruct ws as [|w2 ws'].
  - cbn [join map]. now apply normal_loop_word.
  - change (join [SP] (w :: w2 :: ws')) with (w ++ [SP] ++ join [SP] (w2 :: ws')).
    rewrite !normal_loop_app, (normal_loop_word w) by assumption.
    change (normal_loop T [SP] ?s) with (normal_step T SP s).
    rewrite IH by (assumption || discriminate).
    cbn. rewrite <- !app_assoc. reflexivity.
Qed.

Lemma normalize_words (ws : list (list ascii)) :
  Forall (fun w => w <> [] /\ Forall plain w) ws ->
  normalize T (join [SP] ws) = join [SP] (map (flat_map (echo T)) ws).
Proof.
  intros Hg. unfold normalize.
  rewrite cstring_nonul by now apply join_plain_nonul.
  destruct ws as [|w ws]; [reflexivity|].
  rewrite normal_loop_words by (assumption || discriminate). reflexivity.
Qed.

(** When every character of a word comes back as itself in upper case, or
    not at all, the word comes back as [word_back]. *)
Lemma flat_map_echo (w : list ascii) :
  Forall (fun c => echo T c = if known T c then [toupper c] else []) w ->
  flat_map (echo T) w = word_back T w.
Proof.
  intros H. unfold word_back. induction H as [|c w Hc _ IH]; [reflexivity|].
  cbn [flat_map List.filter]. rewrite Hc, IH.
  destruct (known T c); reflexivity.
Qed.

End WordsBack.

(** In [morse.c] a character of the table comes back in upper case, and
    any other character does not come back. *)
Lemma morse_c_echo (c : ascii) :
  echo morse_c.MORSE_TABLE c =
  if known morse_c.MORSE_TABLE c then [toupper c] else [].
Proof. destruct c as [[] [] [] [] [] [] [] []]; vm_compute; reflexivity. Qed.

(** In [main.c] too, for every character but ['8']. *)
Lemma main_c_echo (c : ascii) :
  c <> "8"%char ->
  echo main_c.MORSE_TABLE c =
  if known main_c.MORSE_TABLE c then [toupper c] else [].
Proof.
  destruct c as [[] [] [] [] [] [] [] []]; intros H;
    first [ vm_compute; reflexivity | exfalso; apply H; reflexivity ].
Qed.

Lemma supported_known (c : ascii) :
  In c supported_set ->
  known morse_c.MORSE_TABLE c = true /\ known main_c.MORSE_TABLE c = true /\
  (c <> SP -> plain c).
Proof.
  intros H. vm_compute in H.
  repeat (destruct H as [<-|H];
    [ split; [vm_compute; reflexivity|];
      split; [vm_compute; reflexivity|];
      intros Hsp;
      first [ solve [exfalso; apply Hsp; reflexivity]
            | repeat split; discriminate ] | ]).
  contradiction.
Qed.

Lemma In_ascii_eqb (c : ascii) (l : list ascii) :
  existsb (Ascii.eqb c) l = true -> In c l.
Proof.
  intros H. apply existsb_exists in H as (x & Hx & E).
  apply Ascii.eqb_eq in E. now subst.
Qed.

(** X4. Non-empty words of bytes other than NUL, newlines and the space,
    joined by single spaces, come back from encoding and decoding as the
    words in upper case without the characters the table does not have,
    joined by single spaces; in [main.c] for words without the digit 8.
    Words of supported characters come back whole, in upper case. *)
Theorem words_come_back_upper (heap : nat -> ascii) (ws : list (list ascii)) :
  Forall (fun w => w <> [] /\ Forall plain w) ws ->
  (forall slash : bool,
     morse_c.decode heap (morse_c.encode (join [SP] ws) slash)
     = inr (join [SP] (map (word_back morse_c.MORSE_TABLE) ws))) /\
  (Forall (Forall (fun c => c <> "8"%char)) ws ->
   main_c.decode heap (main_c.encode (join [SP] ws))
   = inr (join [SP] (map (word_back main_c.MORSE_TABLE) ws))) /\
  (Forall (Forall (fun c => In c supported_set)) ws ->
   (forall slash : bool,
      morse_c.decode heap (morse_c.encode (join [SP] ws) slash)
      = inr (join [SP] (map (map toupper) ws))) /\
   (Forall (Forall (fun c => c <> "8"%char)) ws ->
    main_c.decode heap (main_c.encode (join [SP] ws))
    = inr (join [SP] (map (map toupper) ws)))).
Proof.
  intros Hws.
  assert (A : forall slash : bool,
     morse_c.decode heap (morse_c.encode (join [SP] ws) slash)
     = inr (join [SP] (map (word_back morse_c.MORSE_TABLE) ws))).
  { intros slash.
    rewrite morse_c_decode_encode, normalize_words by assumption. do 2 f_equal.
    apply map_ext. intros w. apply flat_map_echo.
    apply List.Forall_forall. intros c _. apply morse_c_echo. }
  assert (B : Forall (Forall (fun c => c <> "8"%char)) ws ->
     main_c.decode heap (main_c.encode (join [SP] ws))
     = inr (join [SP] (map (word_back main_c.MORSE_TABLE) ws))).
  { intros H8.
    rewrite main_c_decode_encode, normalize_words by assumption. do 2 f_equal.
    clear Hws A. induction H8 as [|w ws Hw _ IH]; [reflexivity|].
    cbn [map]. rewrite IH. f_equal. apply flat_map_echo.
    eapply Forall_impl; [exact Hw|]. intros c Hc. now apply main_c_echo. }
  split; [exact A|]. split; [exact B|].
  intros Hsup.
  assert (H : forall T,
             (forall c, In c supported_set -> known T c = true) ->
             map (word_back T) ws = map (map toupper) ws).
  { intros T HT. clear Hws A B.
    induction Hsup as [|w ws' Hw _ IH]; [reflexivity|].
    cbn [map]. rewrite IH. f_equal.
    unfold word_back. f_equal.
    clear IH. induction Hw as [|c w' Hc _ IHw]; [reflexivity|].
    cbn [List.filter]. rewrite (HT c Hc). now rewrite IHw. }
  split.
  - intros slash. rewrite A. do 2 f_equal. apply H.
    intros c Hc. now apply supported_known.
  - intros H8. rewrite (B H8). do 2 f_equal. apply H.
    intros c Hc. now apply supported_known.
Qed.

Lemma words_come_back_upper_witness :
  Forall (fun w => w <> [] /\ Forall plain w) [str "Sos#"; str "at"; str "9"] /\
  morse_c.decode x_heap
    (morse_c.encode (join [SP] [str "Sos#"; str "at"; str "9"]) true)
  = inr (str "SOS AT 9") /\
  Forall (Forall (fun c => c <> "8"%char)) [str "Sos#"; str "at"; str "9"] /\
  main_c.decode x_heap
    (main_c.encode (join [SP] [str "Sos#"; str "at"; str "9"]))
  = inr (str "SOS AT 9") /\
  Forall (fun w => w <> [] /\ Forall plain w) [str "Sos"; str "at"; str "9"] /\
  Forall (Forall (fun c => In c supported_set)) [str "Sos"; str "at"; str "9"] /\
  Forall (Forall (fun c => c <> "8"%char)) [str "Sos"; str "at"; str "9"] /\
  morse_c.decode x_heap
    (morse_c.encode (join [SP] [str "Sos"; str "at"; str "9"]) false)
  = inr (join [SP] (map (map toupper) [str "Sos"; str "at"; str "9"])) /\
  main_c.decode x_heap
    (main_c.encode (join [SP] [str "Sos"; str "at"; str "9"]))
  = inr (join [SP] (map (map toupper) [str "Sos"; str "at"; str "9"])).
Proof.
  assert (H1 : Forall (fun w => w <> [] /\ Forall plain w)
                 [str "Sos#"; str "at"; str "9"]).
  { repeat constructor; try discriminate; now apply plain_letter. }
  assert (H2 : Forall (fun w => w <> [] /\ Forall plain w)
                 [str "Sos"; str "at"; str "9"]).
  { repeat constructor; try discriminate; now apply plain_letter. }
  assert (H3 : Forall (Forall (fun c => In c supported_set))
                 [str "Sos"; str "at"; str "9"]).
  { repeat first [apply List.Forall_nil | apply List.Forall_cons];
      apply In_ascii_eqb; reflexivity. }
  assert (H4 : Forall (Forall (fun c => c <> "8"%char))
                 [str "Sos#"; str "at"; str "9"]).
  { repeat first [apply List.Forall_nil | apply List.Forall_cons];
      discriminate. }
  assert (H5 : Forall (Forall (fun c => c <> "8"%char))
                 [str "Sos"; str "at"; str "9"]).
  { repeat first [apply List.Forall_nil | apply List.Forall_cons];
      discriminate. }
  destruct (words_come_back_upper x_heap _ H1) as (A & B & _).
  destruct (words_come_back_upper x_heap _ H2) as (_ & _ & C).
  destruct (C H3) as [C1 C2].
  split; [exact H1|]. split; [exact (A true)|].
  split; [exact H4|]. split; [exact (B H4)|].
  split; [exact H2|]. split; [exact H3|]. split; [exact H5|].
  split; [exact (C1 false)|exact (C2 H5)].
Defined.

(** ** The bytes of the two outputs *)

Section EncodeAlphabet.
Variable T : list MorseMapping.
Variable slash : bool.
Hypothesis Hcodes : dot_dash_codes T.

Lemma scan_character_dot_dash (tbl : list MorseMapping) (x : ascii) (k : string) :
  dot_dash_codes tbl -> x <> SP -> scan_character tbl x = Some k ->
  Forall dot_or_dash (cstring (str k)).
Proof.
  intros Ht Hx. induction Ht as [|e tbl He _ IH]; cbn [scan_character];
    [discriminate|].
  destruct (Ascii.eqb_spec (character e) x) as [E|E]; [|exact IH].
  intros [= <-]. apply He. congruence.
Qed.

Lemma encode_step_alphabet (c : ascii) (st : estate) :
  Forall (morse_byte slash) (e_result st) ->
  Forall (morse_byte slash) (e_result (encode_step T slash c st)).
Proof.
  intros H. unfold encode_step, strcat.
  destruct (Ascii.eqb c LF || Ascii.eqb c CR); [exact H|].
  destruct (Ascii.eqb_spec c SP) as [E|E]; cbn [e_result].
  - destruct (negb (lastWasSpace st) && negb (firstChar st)); [|exact H].
    assert (Hsep : Forall (morse_byte slash)
                     (cstring (str (if slash then " / " else "   ")))).
    { unfold morse_byte. destruct slash;
        repeat first [apply List.Forall_nil | apply List.Forall_cons];
        auto 10. }
    destruct slash; apply Forall_app; (split; [exact H|exact Hsep]).
  - assert (H1 : Forall (morse_byte slash)
                   (if negb (firstChar st) && negb (lastWasSpace st)
                    then e_result st ++ cstring (str " ") else e_result st)).
    { destruct (negb (firstChar st) && negb (lastWasSpace st)); [|exact H].
      apply Forall_app. split; [exact H|].
      apply List.Forall_cons; [|constructor].
      unfold morse_byte. auto. }
    destruct (getCharacterCode T c) as [k|] eqn:Ek;
      apply Forall_app; (split; [exact H1|]).
    + eapply Forall_impl;
        [apply (scan_character_dot_dash T (toupper c) k Hcodes);
         [intros Hs; apply E; now apply toupper_SP|exact Ek]|].
      intros b Hb. unfold morse_byte. auto.
    + apply List.Forall_cons; [|constructor].
      unfold morse_byte. auto.
Qed.

Lemma encodeText_alphabet (text : option (list ascii)) :
  Forall (morse_byte slash) (encodeText T text slash).
Proof.
  destruct text as [t|]; [|constructor]. unfold encodeText, encode_loop.
  assert (H : Forall (morse_byte slash) (e_result encode_init)) by constructor.
  revert H. generalize encode_init.
  induction (cstring t) as [|c l IH]; intros st H; [exact H|].
  cbn [fold_left]. apply IH. now apply encode_step_alphabet.
Qed.

End EncodeAlphabet.

Lemma morse_c_dot_dash : dot_dash_codes morse_c.MORSE_TABLE.
Proof.
  unfold dot_dash_codes.
  repeat (apply List.Forall_cons;
    [ intros H;
      first [ solve [exfalso; apply H; reflexivity]
            | repeat first [apply List.Forall_nil | apply List.Forall_cons];
              unfold dot_or_dash; auto ] | ]).
  constructor.
Qed.

Lemma main_c_dot_dash : dot_dash_codes main_c.MORSE_TABLE.
Proof.
  unfold dot_dash_codes.
  repeat (apply List.Forall_cons;
    [ intros H;
      first [ solve [exfalso; apply H; reflexivity]
            | repeat first [apply List.Forall_nil | apply List.Forall_cons];
              unfold dot_or_dash; auto ] | ]).
  constructor.
Qed.

(** X5. The output of [encodeText] is made of dots, dashes, spaces and
    stars, and of slashes when the separator flag of [morse.c] is set. *)
Theorem encode_output_bytes (t : list ascii) :
  Forall (fun b => In b (str ".- */")) (morse_c.encode t true) /\
  Forall (fun b => In b (str ".- *")) (morse_c.encode t false) /\
  Forall (fun b => In b (str ".- *")) (main_c.encode t).
Proof.
  split; [|split].
  - eapply Forall_impl;
      [apply (encodeText_alphabet morse_c.MORSE_TABLE true morse_c_dot_dash)|].
    cbn. intros b [[-> | ->]|[->|[->|[_ ->]]]]; cbn; auto 10.
  - eapply Forall_impl;
      [apply (encodeText_alphabet morse_c.MORSE_TABLE false morse_c_dot_dash)|].
    cbn. intros b [[-> | ->]|[->|[->|[? _]]]]; cbn; auto 10. discriminate.
  - unfold main_c.encode, main_c.encodeText. rewrite encodeText_main_eq.
    eapply Forall_impl;
      [apply (encodeText_alphabet main_c.MORSE_TABLE false main_c_dot_dash)|].
    cbn. intros b [[-> | ->]|[->|[->|[? _]]]]; cbn; auto 10. discriminate.
Qed.

Section DecodeAlphabet.
Variable T : list MorseMapping.

Lemma scan_code_In (tbl : list MorseMapping) (k : list ascii) :
  scan_code tbl k = NUL \/ In (scan_code tbl k) (map character tbl).
Proof.
  induction tbl as [|e tbl IH]; [now left|]. cbn [scan_code map].
  destruct (strcmp_eq (str (code e)) k); [right; now left|].
  destruct IH as [IH|IH]; [now left|right; now right].
Qed.

Lemma looked_up_alphabet (k : list ascii) : Forall (text_byte T) (looked_up T k).
Proof.
  unfold looked_up, getCodeCharacter.
  destruct (Ascii.eqb_spec (scan_code T k) NUL) as [E|E]; [constructor|].
  apply List.Forall_cons; [|constructor]. right.
  destruct (scan_code_In T k); [contradiction|assumption].
Qed.

Lemma view_step_alphabet (c : ascii) (v : view) :
  Forall (text_byte T) (fst (fst v)) ->
  Forall (text_byte T) (fst (fst (view_step T c v))).
Proof.
  destruct v as [[out code0] sc]. cbn [fst]. intros H. unfold view_step.
  assert (Hsp : Forall (text_byte T) [SP]).
  { apply List.Forall_cons; [now left|constructor]. }
  pose proof (looked_up_alphabet code0) as Hlu.
  destruct (Ascii.eqb c LF || Ascii.eqb c CR); [exact H|].
  destruct (Ascii.eqb c SP).
  { destruct ((sc + 1 =? 1)%Z && (0 <? length code0)); cbn [fst].
    - apply Forall_app; auto.
    - destruct (sc + 1 =? 3)%Z; cbn [fst]; [apply Forall_app; auto|exact H]. }
  destruct (Ascii.eqb c SLASH); cbn [fst]; [|exact H].
  apply Forall_app. split; [exact H|]. apply Forall_app. split; [|exact Hsp].
  destruct (0 <? length code0); [exact Hlu|constructor].
Qed.

Lemma view_loop_alphabet (bytes : list ascii) : forall v : view,
  Forall (text_byte T) (fst (fst v)) ->
  Forall (text_byte T) (fst (fst (view_loop T bytes v))).
Proof.
  induction bytes as [|c bytes IH]; intros v H; [exact H|].
  change (view_loop T (c :: bytes) v) with (view_loop T bytes (view_step T c v)).
  apply IH. now apply view_step_alphabet.
Qed.

Lemma decode_alphabet (heap : nat -> ascii) (m : list ascii) :
  exists text : list ascii,
    decode T heap m = inr text /\ Forall (text_byte T) text.
Proof.
  eexists. split; [apply decode_spec|].
  pose proof (view_loop_alphabet (cstring m) view_init) as H.
  destruct (view_loop T (cstring m) view_init) as [[out code0] sc].
  cbn [fst] in H. unfold view_final. apply Forall_app.
  split; [apply H; constructor|].
  destruct (0 <? length code0); [apply looked_up_alphabet|constructor].
Qed.

End DecodeAlphabet.

(** X6. [decodeText] writes only spaces and characters of its table; with
    the table of either variant every byte of the result is a character of
    the table, its own upper case, and neither NUL nor a newline. *)
Theorem decode_output_bytes (heap : nat -> ascii) (m : list ascii) :
  (forall T : list MorseMapping,
     exists text : list ascii,
       decode T heap m = inr text /\
       Forall (fun b => b = SP \/ In b (map character T)) text) /\
  (exists text : list ascii,
     morse_c.decode heap m = inr text /\
     Forall (fun b => In b (map character morse_c.MORSE_TABLE)
                      /\ toupper b = b /\ b <> NUL /\ b <> LF /\ b <> CR) text) /\
  (exists text : list ascii,
     main_c.decode heap m = inr text /\
     Forall (fun b => In b (map character main_c.MORSE_TABLE)
                      /\ toupper b = b /\ b <> NUL /\ b <> LF /\ b <> CR) text).
Proof.
  split; [intros T; apply decode_alphabet|].
  split.
  - destruct (decode_alphabet morse_c.MORSE_TABLE heap m) as (text & H & Ht).
    exists text. split; [exact H|].
    eapply Forall_impl; [exact Ht|]. intros b Hb.
    assert (Hin : In b (map character morse_c.MORSE_TABLE)).
    { destruct Hb as [->|Hb]; [|exact Hb]. apply In_ascii_eqb. reflexivity. }
    split; [exact Hin|]. clear Hb. vm_compute in Hin.
    repeat (destruct Hin as [<-|Hin]; [repeat split; discriminate|]).
    contradiction.
  - destruct (decode_alphabet main_c.MORSE_TABLE heap m) as (text & H & Ht).
    exists text. split; [exact H|].
    eapply Forall_impl; [exact Ht|]. intros b Hb.
    assert (Hin : In b (map character main_c.MORSE_TABLE)).
    { destruct Hb as [->|Hb]; [|exact Hb]. apply In_ascii_eqb. reflexivity. }
    split; [exact Hin|]. clear Hb. vm_compute in Hin.
    repeat (destruct Hin as [<-|Hin]; [repeat split; discriminate|]).
    contradiction.
Qed.

(** ** Runs of spaces in [decodeText] *)

Section SpaceRuns.
Variable T : list MorseMapping.


End SpaceRuns.



(** ** The two lookups, one after the other *)

Section Lookups.
Variable T : list MorseMapping.

Lemma scan_code_own (tbl : list MorseMapping) (e : MorseMapping) :
  NoDup (map (fun e => cstring (str (code e))) tbl) -> In e tbl ->
  scan_code tbl (str (code e)) = character e.
Proof.
  induction tbl as [|e0 tbl IH]; intros Hnd Hin; [contradiction|].
  cbn [map] in Hnd. apply NoDup_cons in Hnd as [Hnot Hnd].
  cbn [scan_code]. unfold strcmp_eq.
  destruct Hin as [->|Hin].
  - now rewrite bool_decide_eq_true_2.
  - rewrite bool_decide_eq_false_2; [now apply IH|].
    intros E. apply Hnot. rewrite E.
    apply list_elem_of_In, in_map_iff. now exists e.
Qed.

Lemma scan_character_entry (tbl : list MorseMapping) (x : ascii) (k : string) :
  scan_character tbl x = Some k ->
  In {| character := x; code := k |} tbl.
Proof.
  induction tbl as [|e tbl IH]; cbn [scan_character]; [discriminate|].
  destruct (Ascii.eqb_spec (character e) x) as [E|E].
  - intros [= <-]. left. destruct e. cbn in *. now subst.
  - intros H. right. now apply IH.
Qed.

Lemma scan_character_own (tbl : list MorseMapping) (e : MorseMapping) :
  NoDup (map character tbl) -> In e tbl ->
  scan_character tbl (character e) = Some (code e).
Proof.
  induction tbl as [|e0 tbl IH]; intros Hnd Hin; [contradiction|].
  cbn [map] in Hnd. apply NoDup_cons in Hnd as [Hnot Hnd].
  cbn [scan_character].
  destruct Hin as [->|Hin].
  - now rewrite Ascii.eqb_refl.
  - destruct (Ascii.eqb_spec (character e0) (character e)) as [E|E];
      [|now apply IH].
    exfalso. apply Hnot. rewrite E.
    apply list_elem_of_In, in_map_iff. now exists e.
Qed.

End Lookups.

Lemma scan_code_found (tbl : list MorseMapping) (k : list ascii) :
  scan_code tbl k <> NUL ->
  exists e : MorseMapping,
    In e tbl /\ character e = scan_code tbl k /\
    cstring (str (code e)) = cstring k.
Proof.
  induction tbl as [|e tbl IH]; cbn [scan_code]; [congruence|].
  unfold strcmp_eq. destruct (bool_decide_reflect (cstring (str (code e)) = cstring k)) as [E|E].
  - intros _. exists e. split; [now left|]. auto.
  - intros H. destruct (IH H) as (e' & Hin & Hc & Hk).
    exists e'. split; [now right|]. auto.
Qed.

(** X9. The two lookups are inverse on a table without repetition: where
    the codes are distinct, the code found for a character leads back to
    the upper case of the character; where the characters are distinct and
    upper case, the character found for a code has the string of that code
    as its code. *)
Theorem lookups_are_inverse (T : list MorseMapping) :
  (distinct_codes T ->
   forall (c : ascii) (k : string),
     getCharacterCode T c = Some k ->
     getCodeCharacter T (str k) = toupper c) /\
  (distinct_characters T -> upper_characters T ->
   forall k : list ascii,
     getCodeCharacter T k <> NUL ->
     exists k' : string,
       getCharacterCode T (getCodeCharacter T k) = Some k' /\
       cstring (str k') = cstring k).
Proof.
  split.
  - intros Hnd c k H. unfold getCharacterCode in H.
    apply scan_character_entry in H.
    unfold getCodeCharacter.
    change (str k) with (str (code {| character := toupper c; code := k |})).
    now rewrite scan_code_own.
  - intros Hc Hup k Hk. unfold getCodeCharacter in *.
    destruct (scan_code_found T k Hk) as (e & Hin & He & Hcode).
    exists (code e). split; [|exact Hcode].
    unfold getCharacterCode. rewrite <- He.
    unfold upper_characters in Hup.
    rewrite List.Forall_forall in Hup. rewrite (Hup e Hin).
    now apply scan_character_own.
Qed.

Lemma morse_c_distinct :
  distinct_codes morse_c.MORSE_TABLE /\
  distinct_characters morse_c.MORSE_TABLE /\
  upper_characters morse_c.MORSE_TABLE.
Proof.
  unfold distinct_codes, distinct_characters, upper_characters.
  split; [compute_done|]. split; [compute_done|].
  repeat first [apply List.Forall_nil | apply List.Forall_cons]; reflexivity.
Qed.

Lemma lookups_are_inverse_witness :
  distinct_codes morse_c.MORSE_TABLE /\
  getCharacterCode morse_c.MORSE_TABLE "k" = Some "-.-"%string /\
  getCodeCharacter morse_c.MORSE_TABLE (str "-.-") = toupper "k" /\
  distinct_characters morse_c.MORSE_TABLE /\
  upper_characters morse_c.MORSE_TABLE /\
  getCodeCharacter morse_c.MORSE_TABLE (str "-.-") <> NUL /\
  exists k' : string,
    getCharacterCode morse_c.MORSE_TABLE
      (getCodeCharacter morse_c.MORSE_TABLE (str "-.-")) = Some k' /\
    cstring (str k') = cstring (str "-.-").
Proof.
  destruct morse_c_distinct as (D1 & D2 & D3).
  destruct (lookups_are_inverse morse_c.MORSE_TABLE) as [A B].
  assert (H1 : getCharacterCode morse_c.MORSE_TABLE "k" = Some "-.-"%string)
    by reflexivity.
  assert (H2 : getCodeCharacter morse_c.MORSE_TABLE (str "-.-") <> NUL)
    by discriminate.
  split; [exact D1|]. split; [exact H1|].
  split; [exact (A D1 "k"%char "-.-"%string H1)|].
  split; [exact D2|]. split; [exact D3|]. split; [exact H2|].
  exact (B D2 D3 (str "-.-") H2).
Defined.

(** ** The buffer of [encodeText] *)

Lemma take_strlen (l : list ascii) : take (strlen l) l = cstring l.
Proof.
  unfold strlen. induction l as [|c l IH]; [reflexivity|]. cbn [cstring].
  destruct (Ascii.eqb c NUL); [reflexivity|]. cbn. now rewrite IH.
Qed.

Lemma strcat_mem_inr (dest src : list ascii) :
  strlen dest + length (cstring src) < length dest ->
  exists d' : list ascii,
    strcat_mem dest src = inr d' /\
    cstring d' = strcat (cstring dest) src /\
    length d' = length dest.
Proof.
  intros H. unfold strcat_mem.
  destruct (Nat.ltb_spec (strlen dest + length (cstring src)) (length dest));
    [|lia].
  eexists. split; [reflexivity|]. split.
  - rewrite take_strlen.
    rewrite cstring_nonul_app by apply cstring_is_nonul.
    rewrite cstring_nonul_app by apply cstring_is_nonul.
    cbn. now rewrite app_nil_r.
  - rewrite !length_app, length_take. cbn [length].
    rewrite length_drop. pose proof (strlen_le dest). lia.
Qed.

Lemma strcat_mem_inl (dest src : list ascii) :
  length dest <= strlen dest + length (cstring src) ->
  strcat_mem dest src = inl ResultOverflow.
Proof.
  intros H. unfold strcat_mem.
  destruct (Nat.ltb_spec (strlen dest + length (cstring src)) (length dest));
    [lia|reflexivity].
Qed.

Section EncodeBuffer.
Variable T : list MorseMapping.
Variable slash : bool.
Hypothesis Hshort : short_codes T.

Lemma getCharacterCode_short (c : ascii) (k : string) :
  getCharacterCode T c = Some k -> length (cstring (str k)) <= 6.
Proof. apply scan_character_short, Hshort. Qed.

Lemma encode_step_mem_inr (cap : nat) (c : ascii) (mst pst : estate) :
  mirrors cap mst pst -> length (e_result pst) + 7 < cap ->
  exists mst' : estate,
    encode_step_mem T slash c mst = inr mst' /\
    mirrors cap mst' (encode_step T slash c pst).
Proof.
  intros (Hs & Hlen & Hl & Hf) Hcap.
  assert (Hstr : strlen (e_result mst) = length (e_result pst))
    by (unfold strlen; now rewrite Hs).
  unfold encode_step_mem, encode_step. rewrite Hl, Hf.
  destruct (Ascii.eqb c LF || Ascii.eqb c CR).
  { exists mst. split; [reflexivity|]. unfold mirrors. auto. }
  destruct (Ascii.eqb c SP).
  - destruct (negb (lastWasSpace pst) && negb (firstChar pst)).
    + assert (Hfit : strlen (e_result mst)
                     + length (cstring (str (if slash then " / " else "   ")))
                     < length (e_result mst)).
      { rewrite Hstr, Hlen. destruct slash; cbn; lia. }
      destruct (strcat_mem_inr _ _ Hfit) as (d & Hd & Hc & Hn).
      destruct slash; rewrite Hd; cbn [bind]; eexists;
        (split; [reflexivity|]); unfold mirrors;
        cbn [e_result lastWasSpace firstChar]; rewrite Hc, Hs;
        repeat split; auto; lia.
    + cbn [bind]. eexists. split; [reflexivity|]. unfold mirrors. cbn. auto.
  - set (g := negb (firstChar pst) && negb (lastWasSpace pst)).
    assert (Hgap : exists r1,
              (if g then strcat_mem (e_result mst) (str " ")
               else inr (e_result mst)) = inr r1 /\
              cstring r1 = (if g then strcat (e_result pst) (str " ")
                            else e_result pst) /\
              length r1 = cap /\ length (cstring r1) <= length (e_result pst) + 1).
    { destruct g.
      - destruct (strcat_mem_inr (e_result mst) (str " "))
          as (d & Hd & Hc & Hn); [rewrite Hstr, Hlen; cbn; lia|].
        exists d. rewrite Hc, Hs. repeat split; auto; [lia|].
        unfold strcat. rewrite length_app. cbn. lia.
      - exists (e_result mst). rewrite Hs. repeat split; auto. lia. }
    destruct Hgap as (r1 & -> & Hc1 & Hn1 & Hl1). cbn [bind].
    destruct (getCharacterCode T c) as [k|] eqn:Ek.
    + pose proof (getCharacterCode_short c k Ek) as Hk.
      destruct (strcat_mem_inr r1 (str k)) as (d & Hd & Hc & Hn);
        [unfold strlen; lia|].
      rewrite Hd. cbn [bind]. eexists. split; [reflexivity|].
      unfold mirrors. cbn [e_result lastWasSpace firstChar].
      rewrite Hc, Hc1. repeat split; auto; lia.
    + destruct (strcat_mem_inr r1 (str "*")) as (d & Hd & Hc & Hn);
        [unfold strlen; cbn; lia|].
      rewrite Hd. cbn [bind]. eexists. split; [reflexivity|].
      unfold mirrors. cbn [e_result lastWasSpace firstChar].
      rewrite Hc, Hc1. repeat split; auto; lia.
Qed.

Lemma encode_loop_mem_inr (cap : nat) (bytes : list ascii) :
  forall mst pst : estate,
  mirrors cap mst pst -> length (e_result pst) + 7 * length bytes < cap ->
  exists mst' : estate,
    encode_loop_mem T slash bytes mst = inr mst' /\
    mirrors cap mst' (encode_loop T slash bytes pst).
Proof.
  induction bytes as [|c bytes IH]; intros mst pst Hm Hcap.
  - exists mst. split; [reflexivity|exact Hm].
  - cbn [length] in Hcap. cbn [encode_loop_mem].
    destruct (encode_step_mem_inr cap c mst pst Hm) as (m1 & H1 & Hm1); [lia|].
    rewrite H1. cbn [bind].
    change (encode_loop T slash (c :: bytes) pst)
      with (encode_loop T slash bytes (encode_step T slash c pst)).
    apply IH; [exact Hm1|].
    pose proof (encode_step_grows T slash Hshort c pst). lia.
Qed.

Lemma encodeText_mem_inr (heap : nat -> ascii) (t : list ascii) :
  0 < strlen t ->
  exists buf : list ascii,
    encodeText_mem T heap (Some t) slash = inr buf /\
    length buf = strlen t * 10 /\
    cstring buf = encodeText T (Some t) slash.
Proof.
  intros Hpos. unfold encodeText_mem.
  rewrite store_inr by (rewrite malloc_length; lia). cbn [bind].
  destruct (encode_loop_mem_inr (strlen t * 10) (cstring t)
              {| e_result := <[0:=NUL]> (malloc heap (strlen t * 10));
                 lastWasSpace := false; firstChar := true |} encode_init)
    as (m & Hm & Hs & Hlen & _).
  - unfold mirrors, encode_init. cbn [e_result lastWasSpace firstChar].
    rewrite length_insert, malloc_length. repeat split; auto.
    destruct (malloc heap (strlen t * 10)) eqn:E; [|cbn; reflexivity].
    apply (f_equal length) in E. rewrite malloc_length in E. cbn in E. lia.
  - cbn [encode_init e_result length]. unfold strlen in *. lia.
  - rewrite Hm. cbn [bind]. exists (e_result m). auto.
Qed.

End EncodeBuffer.

(** X10. On its buffer of [strlen text * 10] bytes, [encodeText] stores
    inside the buffer for every text of at least one byte, and the buffer
    it returns holds the string of the string-level [encode], in both
    variants.  For the empty text the buffer has no byte, and the first
    store, [result[0] = 0], falls outside it. *)
Theorem encodeText_buffer (heap : nat -> ascii) (slash : bool) (t : list ascii) :
  (0 < strlen t ->
   (exists buf : list ascii,
      encodeText_mem morse_c.MORSE_TABLE heap (Some t) slash = inr buf /\
      length buf = strlen t * 10 /\
      cstring buf = morse_c.encode t slash) /\
   (exists buf : list ascii,
      encodeText_mem main_c.MORSE_TABLE heap (Some t) false = inr buf /\
      length buf = strlen t * 10 /\
      cstring buf = main_c.encode t)) /\
  (strlen t = 0 ->
   forall T : list MorseMapping,
     encodeText_mem T heap (Some t) slash = inl ResultOverflow).
Proof.
  split.
  - intros Hpos. split.
    + apply encodeText_mem_inr; [apply morse_c_short_codes|exact Hpos].
    + unfold main_c.encode, main_c.encodeText. rewrite encodeText_main_eq.
      apply encodeText_mem_inr; [apply main_c_short_codes|exact Hpos].
  - intros Hz T. unfold encodeText_mem. rewrite Hz. reflexivity.
Qed.

Lemma encodeText_buffer_witness :
  0 < strlen (str "SOS") /\
  (exists buf : list ascii,
     encodeText_mem morse_c.MORSE_TABLE x_heap (Some (str "SOS")) true = inr buf /\
     length buf = strlen (str "SOS") * 10 /\
     cstring buf = morse_c.encode (str "SOS") true) /\
  strlen (str "") = 0 /\
  encodeText_mem morse_c.MORSE_TABLE x_heap (Some (str "")) true
  = inl ResultOverflow.
Proof.
  assert (H1 : 0 < strlen (str "SOS")) by (cbn; lia).
  assert (H2 : strlen (str "") = 0) by reflexivity.
  destruct (encodeText_buffer x_heap true (str "SOS")) as [A _].
  destruct (encodeText_buffer x_heap true (str "")) as [_ B].
  split; [exact H1|]. split; [exact (proj1 (A H1))|].
  split; [exact H2|]. exact (B H2 morse_c.MORSE_TABLE).
Defined.

(** ** The readers *)

Lemma cstring_app_NUL (p q : list ascii) : cstring (p ++ NUL :: q) = cstring p.
Proof.
  induction p as [|c p IH]; [reflexivity|]. cbn [app cstring].
  destruct (Ascii.eqb c NUL); [reflexivity|]. now rewrite IH.
Qed.

Lemma poke_Some (buf : list ascii) (i : nat) (c : ascii) :
  i < length buf ->
  poke buf i c = Some (take i buf ++ c :: drop (S i) buf).
Proof.
  intros H. unfold poke. destruct (Nat.ltb_spec i (length buf)); [|lia].
  f_equal. now apply insert_take_drop.
Qed.

Lemma memcpy_Some (buf : list ascii) (off : nat) (src : list ascii) :
  off + length src <= length buf ->
  exists b : list ascii,
    memcpy buf off src = Some b /\ length b = length buf /\
    take (off + length src) b = take off buf ++ src.
Proof.
  intros H. unfold memcpy.
  destruct (Nat.leb_spec (off + length src) (length buf)); [|lia].
  eexists. split; [reflexivity|]. split.
  - rewrite !length_app, length_take, length_drop. lia.
  - rewrite app_assoc. apply take_app_length'.
    rewrite length_app, length_take. lia.
Qed.

Lemma realloc_length (heap : nat -> ascii) (buf : list ascii) (n : nat) :
  length buf <= n -> length (realloc heap buf n) = n.
Proof.
  intros H. unfold realloc. rewrite length_app, length_map, length_seq. lia.
Qed.

Lemma realloc_take (heap : nat -> ascii) (buf : list ascii) (n k : nat) :
  k <= length buf -> take k (realloc heap buf n) = take k buf.
Proof. intros H. unfold realloc. now apply take_app_le. Qed.

Lemma read_loop_inv (heap : nat -> ascii) (reads : list (list ascii)) :
  forall (capacity size : nat) (buffer data : list ascii),
  Forall (fun chunk => length chunk <= 1023) reads ->
  read_inv capacity size buffer data ->
  exists (size' capacity' : nat) (buffer' : list ascii),
    read_loop heap reads capacity size buffer = Some (size', buffer') /\
    read_inv capacity' size' buffer' (data ++ stdin_data reads).
Proof.
  induction reads as [|chunk rest IH];
    intros capacity size buffer data Hr Hinv.
  - exists size, capacity, buffer. cbn. rewrite app_nil_r. auto.
  - inversion Hr as [|? ? Hc Hrest]; subst.
    cbn [read_loop stdin_data].
    destruct (Nat.eqb_spec (length chunk) 0) as [E|E].
    { exists size, capacity, buffer. rewrite app_nil_r. auto. }
    destruct Hinv as (Hcap & Hlen & Hsize & Hdata & Htake).
    set (grow := capacity <? size + length chunk + 1).
    set (capacity' := if grow then capacity * 2 else capacity).
    set (buffer' := if grow then realloc heap buffer (capacity * 2) else buffer).
    assert (H' : length buffer' = capacity' /\ size + length chunk + 1 <= capacity'
                 /\ 1024 <= capacity' /\ take size buffer' = data).
    { unfold buffer', capacity', grow.
      destruct (Nat.ltb_spec capacity (size + length chunk + 1)).
      - rewrite realloc_length, realloc_take by lia. repeat split; auto; lia.
      - repeat split; auto; lia. }
    destruct H' as (Hlen' & Hfit & Hcap' & Htake').
    destruct (memcpy_Some buffer' size chunk) as (b & Hb & Hbl & Hbt); [lia|].
    rewrite Hb.
    destruct (IH capacity' (size + length chunk) b (data ++ chunk) Hrest)
      as (s2 & c2 & b2 & H2 & Hinv2).
    { unfold read_inv. rewrite Hbt, Htake', length_app.
      repeat split; auto; lia. }
    exists s2, c2, b2. split; [exact H2|]. now rewrite app_assoc.
Qed.

Lemma last_app_one (p : list ascii) (c : ascii) : last (p ++ [c]) = Some c.
Proof. apply last_snoc. Qed.

(** The buffer a reader returns holds its data, one trailing newline
    apart. *)
Lemma terminate_and_trim_Some (buffer data : list ascii) (size : nat) :
  size < length buffer -> size = length data -> take size buffer = data ->
  exists b : list ascii,
    terminate_and_trim buffer size = Some b /\
    length b = length buffer /\
    cstring b = cstring (trim_newline data).
Proof.
  intros Hlt Hsize Htake. unfold terminate_and_trim.
  rewrite poke_Some by assumption. rewrite Htake.
  assert (Hl1 : length (data ++ NUL :: drop (S size) buffer) = length buffer).
  { rewrite length_app. cbn [length]. rewrite length_drop. lia. }
  destruct (Nat.ltb_spec 0 size) as [Hpos|Hz]; cbn [andb].
  - destruct (exists_last (l := data)) as (p & c & Hd).
    { intros ->. cbn in Hsize. lia. }
    clear Htake. subst data. rewrite length_app in Hsize.
    cbn [length] in Hsize.
    assert (Hp : size - 1 = length p) by lia.
    rewrite <- app_assoc. cbn [app].
    rewrite <- app_assoc in Hl1. cbn [app] in Hl1.
    rewrite Hp, list_lookup_middle by reflexivity.
    unfold trim_newline. rewrite last_app_one, removelast_last.
    destruct (Ascii.eqb c LF).
    + unfold poke. rewrite Hl1.
      destruct (Nat.ltb_spec (length p) (length buffer)) as [_|Hge]; [|lia].
      rewrite insert_app_r_alt by lia. rewrite Nat.sub_diag.
      cbn [insert list_insert].
      eexists. split; [reflexivity|]. split.
      * rewrite <- Hl1, !length_app. reflexivity.
      * apply cstring_app_NUL.
    + eexists. split; [reflexivity|]. split; [exact Hl1|].
      change (p ++ c :: NUL :: drop (S size) buffer)
        with (p ++ [c] ++ NUL :: drop (S size) buffer).
      rewrite app_assoc. apply cstring_app_NUL.
  - eexists. split; [reflexivity|]. split; [exact Hl1|].
    destruct data as [|x data]; [reflexivity|cbn in Hsize; lia].
Qed.

Lemma readFromStdin_Some (w : world) :
  Forall (fun chunk => length chunk <= 1023) (stdin_reads w) ->
  exists buf : list ascii,
    readFromStdin w = Some buf /\
    1024 <= length buf /\
    cstring buf = cstring (trim_newline (stdin_data (stdin_reads w))).
Proof.
  intros Hr. unfold readFromStdin.
  destruct (read_loop_inv (fresh_bytes w) (stdin_reads w) 1024 0
              (malloc (fresh_bytes w) 1024) [] Hr)
    as (size & cap & buffer & Hl & Hcap & Hlen & Hsize & Hdata & Htake).
  { unfold read_inv. rewrite malloc_length. repeat split; auto; lia. }
  rewrite Hl. cbn [app] in *.
  destruct (terminate_and_trim_Some buffer (stdin_data (stdin_reads w)) size)
    as (b & Hb & Hbl & Hc); try assumption; [lia|].
  exists b. split; [exact Hb|]. split; [lia|exact Hc].
Qed.

Lemma size_t_nonneg (z : Z) : (0 <= z)%Z -> size_t z = z.
Proof.
  intros H. unfold size_t. destruct (Z.ltb_spec z 0); [lia|reflexivity].
Qed.

Lemma fread_of_nat (n : nat) (stream : list ascii) :
  fread (Z.of_nat n) stream = take n stream.
Proof.
  unfold fread. destruct (le_lt_dec n (length stream)).
  - rewrite Z.min_l by lia. now rewrite Nat2Z.id.
  - rewrite Z.min_r by lia. rewrite Nat2Z.id. now rewrite !take_ge by lia.
Qed.


(** [readFileContent] when [ftell] gives the offset [n]. *)
Lemma readFileContent_sized (w : world) (filename stream : list ascii)
    (n : nat) :
  fopen_r w (cstring filename) = Some (Some n, stream) ->
  readFileContent w filename =
  match memcpy (malloc (fresh_bytes w) (n + 1)) 0 (take n stream) with
  | None => None
  | Some b =>
      if length (take n stream) <? n then Some None
      else
        match terminate_and_trim b (length (take n stream)) with
        | None => None
        | Some b' => Some (Some b')
        end
  end.
Proof.
  intros Hf. unfold readFileContent. rewrite Hf. cbn [ftell]. cbv zeta.
  rewrite !size_t_nonneg by lia. rewrite fread_of_nat.
  replace (Z.to_nat (Z.of_nat n + 1)) with (n + 1) by lia.
  destruct (memcpy _ 0 _); [|reflexivity].
  destruct (Z.ltb_spec (Z.of_nat (length (take n stream))) (Z.of_nat n)),
    (Nat.ltb_spec (length (take n stream)) n); try lia; reflexivity.
Qed.

Lemma morse_readFileContent_sized (w : world) (filename stream : list ascii)
    (n : nat) :
  fopen_r w (cstring filename) = Some (Some n, stream) ->
  morse_program.readFileContent w filename =
  match memcpy (malloc (fresh_bytes w) (n + 1)) 0 (take n stream) with
  | None => None
  | Some b =>
      if length (take n stream) <? n then
        Some (morse_program.createError morse_program.MORSE_FILE_READ_ERROR
                (str "Could not read complete file"))
      else
        match terminate_and_trim b (length (take n stream)) with
        | None => None
        | Some b' => Some (morse_program.createSuccess b')
        end
  end.
Proof.
  intros Hf. unfold morse_program.readFileContent. rewrite Hf.
  cbn [ftell]. cbv zeta.
  destruct (Z.ltb_spec (Z.of_nat n) 0); [lia|].
  rewrite !size_t_nonneg by lia. rewrite fread_of_nat.
  replace (Z.to_nat (Z.of_nat n + 1)) with (n + 1) by lia.
  destruct (memcpy _ 0 _); [|reflexivity].
  destruct (Z.ltb_spec (Z.of_nat (length (take n stream))) (Z.of_nat n)),
    (Nat.ltb_spec (length (take n stream)) n); try lia; reflexivity.
Qed.

Lemma readFileContent_Some (w : world) (filename content : list ascii)
    (fileSize : nat) :
  fopen_r w (cstring filename) = Some (Some fileSize, content) ->
  fileSize <= length content ->
  exists buf : list ascii,
    readFileContent w filename = Some (Some buf) /\
    length buf = fileSize + 1 /\
    cstring buf = cstring (trim_newline (take fileSize content)).
Proof.
  intros Hf Hle. rewrite (readFileContent_sized w filename content _ Hf).
  assert (Hl : length (take fileSize content) = fileSize)
    by (rewrite length_take; lia).
  destruct (memcpy_Some (malloc (fresh_bytes w) (fileSize + 1)) 0
              (take fileSize content))
    as (b & Hb & Hbl & Hbt); [rewrite malloc_length; lia|].
  rewrite Hb, Hl, Nat.ltb_irrefl. rewrite malloc_length in Hbl.
  cbn [plus take app] in Hbt. rewrite Hl in Hbt.
  destruct (terminate_and_trim_Some b (take fileSize content) fileSize)
    as (b' & Hb' & Hbl' & Hc); auto; [lia|].
  rewrite Hb'. exists b'. split; [reflexivity|]. split; [lia|exact Hc].
Qed.

Lemma readFileContent_short (w : world) (filename content : list ascii)
    (fileSize : nat) :
  fopen_r w (cstring filename) = Some (Some fileSize, content) ->
  length content < fileSize ->
  readFileContent w filename = Some None.
Proof.
  intros Hf Hlt. rewrite (readFileContent_sized w filename content _ Hf).
  assert (Hl : length (take fileSize content) = length content)
    by (rewrite length_take; lia).
  destruct (memcpy_Some (malloc (fresh_bytes w) (fileSize + 1)) 0
              (take fileSize content))
    as (b & Hb & _); [rewrite malloc_length; lia|].
  rewrite Hb, Hl. now apply Nat.ltb_lt in Hlt as ->.
Qed.


Lemma morse_readFileContent_no_size (w : world)
    (filename stream : list ascii) :
  fopen_r w (cstring filename) = Some (None, stream) ->
  morse_program.readFileContent w filename
  = Some (morse_program.createError morse_program.MORSE_FILE_READ_ERROR
            (str "Could not determine file size")).
Proof.
  intros Hf. unfold morse_program.readFileContent. now rewrite Hf.
Qed.

(** [readFileContent] of [morse.c] stores inside its buffer. *)
Lemma morse_readFileContent_returns (w : world) (filename : list ascii) :
  exists r : morse_program.Result (list ascii),
    morse_program.readFileContent w filename = Some r.
Proof.
  destruct (fopen_r w (cstring filename)) as [[[n|] stream]|] eqn:Ef.
  - rewrite (morse_readFileContent_sized w filename stream n Ef).
    destruct (le_lt_dec n (length stream)) as [Hle|Hlt].
    + destruct (readFileContent_Some w filename stream n Ef Hle)
        as (buf & Hb & _).
      rewrite (readFileContent_sized w filename stream n Ef) in Hb.
      destruct (memcpy _ 0 _) as [b|]; [|discriminate].
      destruct (_ <? n); [eexists; reflexivity|].
      destruct (terminate_and_trim _ _); [eexists; reflexivity|discriminate].
    + pose proof (readFileContent_short w filename stream n Ef Hlt) as Hb.
      rewrite (readFileContent_sized w filename stream n Ef) in Hb.
      destruct (memcpy _ 0 _) as [b|]; [|discriminate].
      destruct (_ <? n); [eexists; reflexivity|].
      destruct (terminate_and_trim _ _); discriminate.
  - rewrite (morse_readFileContent_no_size w filename stream Ef).
    eexists. reflexivity.
  - unfold morse_program.readFileContent. rewrite Ef. eexists. reflexivity.
Qed.

(** Both transcoders skip a newline that ends their input. *)
Lemma cstring_trim_newline (d : list ascii) :
  cstring (trim_newline d) = cstring d \/
  cstring d = cstring (trim_newline d) ++ [LF].
Proof.
  unfold trim_newline. destruct (last d) as [c|] eqn:E; [|now left].
  destruct (Ascii.eqb_spec c LF) as [->|Hc]; [|now left].
  apply last_Some in E as (p & ->). rewrite removelast_last.
  clear. induction p as [|x p IH]; [now right|]. cbn [app cstring].
  destruct (Ascii.eqb x NUL); [now left|].
  destruct IH as [IH|IH]; [left|right]; now rewrite IH.
Qed.

Lemma encodeText_trimmed (T : list MorseMapping) (slash : bool)
    (buf d : list ascii) :
  cstring buf = cstring (trim_newline d) ->
  encodeText T (Some buf) slash = encodeText T (Some d) slash.
Proof.
  intros H. unfold encodeText. rewrite H.
  destruct (cstring_trim_newline d) as [E|E]; rewrite E; [reflexivity|].
  rewrite encode_loop_app.
  change (encode_loop T slash [LF] ?s) with (encode_step T slash LF s).
  now rewrite encode_step_newline.
Qed.

Lemma decode_trimmed (T : list MorseMapping) (heap1 heap2 : nat -> ascii)
    (buf d : list ascii) :
  cstring buf = cstring (trim_newline d) ->
  decode T heap1 buf = decode T heap2 d.
Proof.
  intros H. rewrite !decode_spec, H.
  destruct (cstring_trim_newline d) as [E|E]; rewrite E; [reflexivity|].
  rewrite view_loop_app.
  change (view_loop T [LF] ?v) with (view_step T LF v).
  now rewrite view_step_newline.
Qed.





(** ** The banner before the result *)

Section Banner.
Variable T : list MorseMapping.
Variable slash : bool.
Hypothesis Htidy : tidy T.

(** The output of [encodeText] starts with a byte of a token. *)
Lemma encode_step_head (c : ascii) (st : estate) :
  c <> NUL ->
  (if firstChar st then e_result st = []
   else exists x r, e_result st = x :: r /\ code_byte x) ->
  if firstChar (encode_step T slash c st)
  then e_result (encode_step T slash c st) = []
  else exists x r, e_result (encode_step T slash c st) = x :: r /\ code_byte x.
Proof.
  intros Hn H.
  destruct (is_newline c) eqn:Enl; [now rewrite encode_step_newline|].
  destruct (Ascii.eqb_spec c SP) as [->|Hsp].
  - rewrite encode_step_space. cbn [e_result firstChar].
    destruct (firstChar st).
    + rewrite H. now rewrite andb_false_r.
    + destruct H as (x & r & -> & Hx). now exists x, (r ++
        (if negb (lastWasSpace st) && negb false then word_separator slash
         else [])).
  - assert (Hp : plain c).
    { unfold is_newline in Enl. apply orb_false_iff in Enl as [E1 E2].
      apply Ascii.eqb_neq in E1, E2. now repeat split. }
    rewrite encode_step_plain by exact Hp. cbn [e_result firstChar].
    destruct (token_tidy T Htidy c Hp) as (Hne & Hcb & _).
    destruct (firstChar st) eqn:Ef.
    + rewrite H. unfold letter_gap. rewrite Ef. cbn [negb andb app].
      destruct (token T c) as [|x r]; [contradiction|].
      exists x, r. split; [reflexivity|]. now inversion Hcb.
    + destruct H as (x & r & -> & Hx).
      now exists x, (r ++ letter_gap st ++ token T c).
Qed.

Lemma encode_loop_head (bytes : list ascii) : forall st : estate,
  nonul bytes ->
  (if firstChar st then e_result st = []
   else exists x r, e_result st = x :: r /\ code_byte x) ->
  if firstChar (encode_loop T slash bytes st)
  then e_result (encode_loop T slash bytes st) = []
  else exists x r,
         e_result (encode_loop T slash bytes st) = x :: r /\ code_byte x.
Proof.
  induction bytes as [|c bytes IH]; intros st Hn H; [exact H|].
  inversion Hn as [|? ? Hc Hn']; subst.
  change (encode_loop T slash (c :: bytes) st)
    with (encode_loop T slash bytes (encode_step T slash c st)).
  apply IH; [assumption|]. now apply encode_step_head.
Qed.

Lemma encodeText_head (text : list ascii) :
  encodeText T (Some text) slash = [] \/
  exists x r, encodeText T (Some text) slash = x :: r /\ code_byte x.
Proof.
  unfold encodeText.
  pose proof (encode_loop_head (cstring text) encode_init
                (cstring_is_nonul text) eq_refl) as H.
  destruct (firstChar (encode_loop T slash (cstring text) encode_init));
    [now left|now right].
Qed.

(** A byte of a code forgets the count of spaces. *)
Lemma view_step_code_byte (c : ascii) (out code0 : list ascii) (sc : Z) :
  code_byte c ->
  view_step T c (out, code0, sc) = view_step T c (out, code0, 0%Z).
Proof.
  intros (Hn & Hlf & Hcr & Hsp & Hsl). unfold view_step.
  destruct (Ascii.eqb_spec c LF); [contradiction|].
  destruct (Ascii.eqb_spec c CR); [contradiction|].
  destruct (Ascii.eqb_spec c SP); [contradiction|].
  destruct (Ascii.eqb_spec c SLASH); [contradiction|]. reflexivity.
Qed.

(** A word that is no code, and a space, in front of the output of
    [encodeText] change nothing for [decodeText]. *)
Lemma decode_banner (heap : nat -> ascii) (banner text : list ascii) :
  banner <> [] -> Forall code_byte banner -> looked_up T (take 19 banner) = [] ->
  decode T heap (banner ++ [SP] ++ encodeText T (Some text) slash)
  = inr (normalize T text).
Proof.
  intros Hne Hb Hl.
  rewrite <- (decode_encodeText T slash Htidy heap text).
  rewrite !decode_spec. f_equal.
  assert (Hnb : nonul banner).
  { eapply Forall_impl; [exact Hb|]. now intros c (Hc & _). }
  rewrite cstring_nonul
    by (rewrite !nonul_app; repeat split;
        [exact Hnb|repeat constructor; discriminate|apply encodeText_nonul]).
  rewrite (cstring_nonul (encodeText T (Some text) slash))
    by apply encodeText_nonul.
  rewrite !view_loop_app.
  change view_init with (@nil ascii, @nil ascii, 0%Z).
  rewrite view_loop_code_run by (assumption || (cbn; lia)).
  cbn [app].
  assert (Hs : view_loop T [SP]
                 ([], take 19 banner, if banner is [] then 0%Z else 0%Z)
               = ([], [], 1%Z)).
  { destruct banner as [|b banner']; [contradiction|].
    change (view_loop T [SP] ?v) with (view_step T SP v).
    unfold view_step.
    change (Ascii.eqb SP LF || Ascii.eqb SP CR) with false.
    change (Ascii.eqb SP SP) with true. cbv iota.
    change (0 + 1 =? 1)%Z with true.
    replace (0 <? length (take 19 (b :: banner'))) with true
      by (symmetry; apply Nat.ltb_lt; rewrite length_take; cbn; lia).
    cbn [andb]. rewrite Hl. reflexivity. }
  rewrite Hs.
  destruct (encodeText_head text) as [-> | (x & r & -> & Hx)]; [reflexivity|].
  change (view_loop T (x :: r) ([], [], 1%Z))
    with (view_loop T r (view_step T x ([], [], 1%Z))).
  now rewrite view_step_code_byte.
Qed.

End Banner.

(** ** The command line of [main.c] *)

Lemma input_chosen_weaken (w : world) (args : list (list ascii))
    (o o' : main_program.Options) :
  main_program.inputFile o' = main_program.inputFile o ->
  main_program.inputText o' = main_program.inputText o ->
  main_program.input_chosen w args o -> main_program.input_chosen w args o'.
Proof. unfold main_program.input_chosen. intros -> ->. auto. Qed.

Lemma parse_loop_sound (w : world) (all : list (list ascii)) (n : nat) :
  forall (args : list (list ascii)) (o : main_program.Options),
    length args <= n ->
    (forall a, In a args -> In a all) ->
    main_program.help o = false ->
    main_program.programmerInfo o = false ->
    main_program.readFromPipe o = false ->
    main_program.input_chosen w all o ->
    match main_program.parse_loop w args o with
    | main_program.Completed o' =>
        main_program.help o' = false /\
        main_program.programmerInfo o' = false /\
        main_program.readFromPipe o' = false /\
        main_program.input_chosen w all o'
    | main_program.ReturnedEarly o' =>
        xorb (main_program.help o') (main_program.programmerInfo o') = true /\
        main_program.readFromPipe o' = false /\
        main_program.input_chosen w all o'
    | main_program.ExitedInLoop _ => True
    end.
Proof.
  induction n as [|n IH]; intros args o Hlen Hin Hh Hp Hr Hi.
  - destruct args; [|cbn in Hlen; lia]. cbn. auto.
  - destruct args as [|arg rest]; [cbn; auto|].
    cbn [length] in Hlen. cbn [main_program.parse_loop].
    assert (Hrest : forall a, In a rest -> In a all)
      by (intros a Ha; apply Hin; now right).
    destruct (strcmp_eq arg (str "-h") || strcmp_eq arg (str "--help")).
    { cbn. rewrite Hp. auto. }
    destruct (strcmp_eq arg (str "--programmer-info")).
    { cbn. rewrite Hh. auto. }
    destruct (strcmp_eq arg (str "-d") || strcmp_eq arg (str "--decode")).
    { apply IH; auto; lia. }
    destruct (strcmp_eq arg (str "-e") || strcmp_eq arg (str "--encode")).
    { apply IH; auto; lia. }
    destruct (strcmp_eq arg (str "-o") || strcmp_eq arg (str "--out")).
    { destruct rest as [|file rest']; [exact I|].
      cbn [length] in Hlen. apply IH; auto; [lia|].
      intros a Ha. apply Hrest. now right. }
    destruct (bool_decide (main_program.inputFile o = None)
              && bool_decide (main_program.inputText o = None)) eqn:E.
    + apply andb_true_iff in E as [E1 E2].
      apply bool_decide_eq_true in E1, E2.
      destruct (access_R_OK w (cstring arg)) eqn:Ea; apply IH; auto; try lia.
      * unfold main_program.input_chosen. cbn. split; [now right|].
        split; [|rewrite E2; discriminate].
        intros f [= <-]. split; [exact Ea|]. exists arg.
        split; [apply Hin; now left|reflexivity].
      * unfold main_program.input_chosen. cbn. split; [now left|].
        split; [rewrite E1; discriminate|].
        intros t [= <-]. split; [exact Ea|]. exists arg.
        split; [apply Hin; now left|reflexivity].
    + apply IH; auto; lia.
Qed.

Lemma parseCommandLine_sound (w : world) (argv : list (list ascii))
    (o : main_program.Options) :
  main_program.parseCommandLine w argv = main_program.Returned o ->
  (xorb (main_program.help o) (main_program.programmerInfo o) = true /\
   main_program.readFromPipe o = false \/
   main_program.help o = false /\ main_program.programmerInfo o = false /\
   main_program.encode o = negb (main_program.decode o) /\
   main_program.readFromPipe o = negb (stdin_isatty w)) /\
  main_program.input_chosen w (drop 1 argv) o.
Proof.
  unfold main_program.parseCommandLine.
  pose proof (parse_loop_sound w (drop 1 argv) (length (drop 1 argv))
                (drop 1 argv)
                {| main_program.help := false;
                   main_program.programmerInfo := false;
                   main_program.decode := false;
                   main_program.encode := false;
                   main_program.inputText := None;
                   main_program.inputFile := None;
                   main_program.outputFile := None;
                   main_program.readFromPipe := false |}) as H.
  destruct (main_program.parse_loop w (drop 1 argv) _) as [o'|o'|m].
  - destruct H as (Hh & Hp & Hr & Hi); auto.
    { unfold main_program.input_chosen. cbn.
      split; [now left|]. split; discriminate. }
    destruct (main_program.encode o') eqn:Ee, (main_program.decode o') eqn:Ed;
      cbn [andb negb]; [discriminate| | |]; intros [= <-];
      (split; [right; cbn; rewrite ?Ee, ?Ed; auto|]);
      (eapply input_chosen_weaken; [| |exact Hi]; reflexivity).
  - destruct H as (Hx & Hr & Hi); auto.
    { unfold main_program.input_chosen. cbn.
      split; [now left|]. split; discriminate. }
    intros [= <-]. auto.
  - discriminate.
Qed.

(** X13. The options that [parseCommandLine] of [main.c] returns.  When
    [help] or [programmerInfo] is set the other one is not, and the
    standard input has not been looked at.  Otherwise exactly one of
    [encode] and [decode] is set, and [readFromPipe] tells that the
    standard input is no terminal.  At most one of [inputFile] and
    [inputText] is set; it is one of the arguments, a file when [access]
    accepts it and a text when it does not. *)
Theorem parseCommandLine_options (w : world) (argv : list (list ascii))
    (o : main_program.Options) :
  main_program.parseCommandLine w argv = main_program.Returned o ->
  (main_program.help o = true ->
   main_program.programmerInfo o = false /\ main_program.readFromPipe o = false) /\
  (main_program.programmerInfo o = true ->
   main_program.help o = false /\ main_program.readFromPipe o = false) /\
  (main_program.help o = false -> main_program.programmerInfo o = false ->
   main_program.encode o = negb (main_program.decode o) /\
   main_program.readFromPipe o = negb (stdin_isatty w)) /\
  (main_program.inputFile o = None \/ main_program.inputText o = None) /\
  (forall f : list ascii,
     main_program.inputFile o = Some f ->
     access_R_OK w f = true /\ exists a, In a (drop 1 argv) /\ f = cstring a) /\
  (forall t : list ascii,
     main_program.inputText o = Some t ->
     access_R_OK w t = false /\ exists a, In a (drop 1 argv) /\ t = cstring a).
Proof.
  intros H. destruct (parseCommandLine_sound w argv o H) as [Hm Hi].
  split; [|split; [|split; [|exact Hi]]].
  - intros Hh. destruct Hm as [[Hx Hr] | (Hh' & _)]; [|congruence].
    rewrite Hh in Hx. destruct (main_program.programmerInfo o);
      [discriminate|auto].
  - intros Hp. destruct Hm as [[Hx Hr] | (_ & Hp' & _)]; [|congruence].
    rewrite Hp in Hx. destruct (main_program.help o); [discriminate|auto].
  - intros Hh Hp. destruct Hm as [[Hx _] | (_ & _ & He & Hr)]; [|auto].
    rewrite Hh, Hp in Hx. discriminate.
Qed.

Lemma parseCommandLine_options_witness :
  main_program.parseCommandLine
    {| stdin_isatty := true; stdin_reads := [];
       access_R_OK := fun p => bool_decide (p = str "notes.txt");
       fopen_r := fun _ => None; fopen_w := fun _ => None;
       fresh_bytes := x_heap |}
    [str "morse"; str "-o"; str "-d"; str "notes.txt"; str "SOS"]
  = main_program.Returned
      {| main_program.help := false; main_program.programmerInfo := false;
         main_program.decode := false; main_program.encode := true;
         main_program.inputText := None;
         main_program.inputFile := Some (str "notes.txt");
         main_program.outputFile := Some (str "-d");
         main_program.readFromPipe := false |} /\
  (true = negb false /\ false = negb true) /\
  access_R_OK
    {| stdin_isatty := true; stdin_reads := [];
       access_R_OK := fun p => bool_decide (p = str "notes.txt");
       fopen_r := fun _ => None; fopen_w := fun _ => None;
       fresh_bytes := x_heap |} (str "notes.txt") = true.
Proof.
  assert (H : main_program.parseCommandLine
    {| stdin_isatty := true; stdin_reads := [];
       access_R_OK := fun p => bool_decide (p = str "notes.txt");
       fopen_r := fun _ => None; fopen_w := fun _ => None;
       fresh_bytes := x_heap |}
    [str "morse"; str "-o"; str "-d"; str "notes.txt"; str "SOS"]
  = main_program.Returned
      {| main_program.help := false; main_program.programmerInfo := false;
         main_program.decode := false; main_program.encode := true;
         main_program.inputText := None;
         main_program.inputFile := Some (str "notes.txt");
         main_program.outputFile := Some (str "-d");
         main_program.readFromPipe := false |}) by (vm_compute; reflexivity).
  destruct (parseCommandLine_options _ _ _ H) as (_ & _ & A & _ & B & _).
  split; [exact H|]. split; [exact (A eq_refl eq_refl)|].
  exact (proj1 (B _ eq_refl)).
Defined.

(** ** The runs of [main.c] *)

Lemma decodeText_decode (T : list MorseMapping) (heap : nat -> ascii)
    (m : list ascii) :
  exists buf : list ascii,
    decodeText T heap (Some m) = inr buf /\
    decode T heap m = inr (cstring buf).
Proof.
  destruct (decodeText_spec T heap m) as (buf & Hd & _).
  exists buf. split; [exact Hd|]. unfold decode. now rewrite Hd.
Qed.

Lemma strlen_cstring_eq (a b : list ascii) :
  cstring a = cstring b -> strlen a = strlen b.
Proof. unfold strlen. now intros ->. Qed.

Lemma encodeText_mem_cstring (T : list MorseMapping) (heap : nat -> ascii)
    (slash : bool) (a b : list ascii) :
  cstring a = cstring b ->
  encodeText_mem T heap (Some a) slash = encodeText_mem T heap (Some b) slash.
Proof.
  intros H. unfold encodeText_mem.
  now rewrite (strlen_cstring_eq a b H), H.
Qed.

Lemma main_c_encode_cstring (a b : list ascii) :
  cstring a = cstring b -> main_c.encode a = main_c.encode b.
Proof.
  intros H. unfold main_c.encode, main_c.encodeText, encodeText_main.
  now rewrite H.
Qed.

Lemma main_c_encodeText_mem (heap : nat -> ascii) (t : list ascii) :
  0 < strlen t ->
  exists buf : list ascii,
    encodeText_mem main_c.MORSE_TABLE heap (Some t) false = inr buf /\
    cstring buf = main_c.encode t.
Proof.
  intros Hpos.
  destruct (encodeText_mem_inr main_c.MORSE_TABLE false main_c_short_codes
              heap t Hpos) as (buf & Hb & _ & Hc).
  exists buf. split; [exact Hb|]. rewrite Hc.
  unfold main_c.encode, main_c.encodeText. now rewrite encodeText_main_eq.
Qed.

(** X14. When the standard input is no terminal, [main] of [main.c]
    transcodes what it reads there, whatever input the command line names:
    it prints the decoding, or the encoding, of the bytes read.  When
    these bytes hold an empty string, the encoder stores outside its
    buffer. *)
Theorem piped_input_wins (w : world) (argv : list (list ascii))
    (o : main_program.Options) :
  main_program.parseCommandLine w argv = main_program.Returned o ->
  main_program.help o = false -> main_program.programmerInfo o = false ->
  main_program.outputFile o = None ->
  stdin_isatty w = false ->
  Forall (fun chunk => length chunk <= 1023) (stdin_reads w) ->
  (main_program.decode o = true ->
   exists text : list ascii,
     main_c.decode (fresh_bytes w) (stdin_data (stdin_reads w)) = inr text /\
     main_program.main w argv
     = Some ([Stdout (str "Decoded: " ++ text ++ [LF])], 0%Z)) /\
  (main_program.decode o = false ->
   (0 < strlen (trim_newline (stdin_data (stdin_reads w))) ->
    main_program.main w argv
    = Some ([Stdout (str "Encoded: "
                     ++ main_c.encode (stdin_data (stdin_reads w)) ++ [LF])],
            0%Z)) /\
   (strlen (trim_newline (stdin_data (stdin_reads w))) = 0 ->
    main_program.main w argv = None)).
Proof.
  intros Hparse Hh Hp Ho Htty Hr.
  destruct (parseCommandLine_sound w argv o Hparse) as [[[Hx _]|Hm] _];
    [rewrite Hh, Hp in Hx; discriminate|].
  destruct Hm as (_ & _ & _ & Hpipe). rewrite Htty in Hpipe.
  cbn [negb] in Hpipe.
  destruct (readFromStdin_Some w Hr) as (buf & Hb & _ & Hc).
  unfold main_program.main. rewrite Hparse, Hh, Hp, Hpipe, Hb, Ho.
  cbv beta iota zeta. split.
  - intros Hd. rewrite Hd. unfold main_c.decodeText.
    destruct (decodeText_decode main_c.MORSE_TABLE (fresh_bytes w) buf)
      as (b & Hdt & Hdec).
    rewrite Hdt. exists (cstring b). split; [|reflexivity].
    unfold main_c.decode.
    now rewrite <- (decode_trimmed main_c.MORSE_TABLE (fresh_bytes w)
                      (fresh_bytes w) buf _ Hc).
  - intros Hd. rewrite Hd. split.
    + intros Hpos.
      destruct (main_c_encodeText_mem (fresh_bytes w) buf) as (b & Hm & Hcb).
      { now rewrite (strlen_cstring_eq _ _ Hc). }
      rewrite Hm, Hcb.
      unfold main_c.encode, main_c.encodeText. rewrite !encodeText_main_eq.
      now rewrite (encodeText_trimmed main_c.MORSE_TABLE false buf _ Hc).
    + intros Hz. unfold encodeText_mem.
      rewrite (strlen_cstring_eq _ _ Hc), Hz. reflexivity.
Qed.

Lemma piped_input_wins_witness :
  main_program.parseCommandLine
    {| stdin_isatty := false; stdin_reads := [str "... --- ..."; [LF]];
       access_R_OK := fun _ => true;
       fopen_r := fun _ => Some (Some 2, str "OK"); fopen_w := fun _ => None;
       fresh_bytes := x_heap |}
    [str "morse"; str "-d"; str "notes.txt"]
  = main_program.Returned
      {| main_program.help := false; main_program.programmerInfo := false;
         main_program.decode := true; main_program.encode := false;
         main_program.inputText := None;
         main_program.inputFile := Some (str "notes.txt");
         main_program.outputFile := None;
         main_program.readFromPipe := true |} /\
  Forall (fun chunk => length chunk <= 1023) [str "... --- ..."; [LF]] /\
  main_program.main
    {| stdin_isatty := false; stdin_reads := [str "... --- ..."; [LF]];
       access_R_OK := fun _ => true;
       fopen_r := fun _ => Some (Some 2, str "OK"); fopen_w := fun _ => None;
       fresh_bytes := x_heap |}
    [str "morse"; str "-d"; str "notes.txt"]
  = Some ([Stdout (str "Decoded: SOS" ++ [LF])], 0%Z).
Proof.
  assert (H1 : main_program.parseCommandLine
    {| stdin_isatty := false; stdin_reads := [str "... --- ..."; [LF]];
       access_R_OK := fun _ => true;
       fopen_r := fun _ => Some (Some 2, str "OK"); fopen_w := fun _ => None;
       fresh_bytes := x_heap |}
    [str "morse"; str "-d"; str "notes.txt"]
  = main_program.Returned
      {| main_program.help := false; main_program.programmerInfo := false;
         main_program.decode := true; main_program.encode := false;
         main_program.inputText := None;
         main_program.inputFile := Some (str "notes.txt");
         main_program.outputFile := None;
         main_program.readFromPipe := true |}) by (vm_compute; reflexivity).
  assert (H2 : Forall (fun chunk => length chunk <= 1023)
                 [str "... --- ..."; [LF]])
    by (repeat constructor; cbn; lia).
  split; [exact H1|]. split; [exact H2|].
  destruct (piped_input_wins _ _ _ H1 eq_refl eq_refl eq_refl eq_refl H2)
    as [A _].
  destruct (A eq_refl) as (text & Ht & Hm).
  assert (E : main_c.decode x_heap (str "... --- ..." ++ [LF])
              = inr (str "SOS")) by (vm_compute; reflexivity).
  cbn [fresh_bytes stdin_reads] in Ht.
  change (stdin_data [str "... --- ..."; [LF]])
    with (str "... --- ..." ++ [LF]) in Ht.
  rewrite E in Ht. injection Ht as <-. exact Hm.
Defined.

(** ** [morse -e TEXT | morse -d] *)

Lemma strcmp_eq_false (a b : list ascii) :
  cstring a <> cstring b -> strcmp_eq a b = false.
Proof. intros H. unfold strcmp_eq. now apply bool_decide_eq_false. Qed.

Lemma parse_loop_positional (w : world) (arg : list ascii)
    (rest : list (list ascii)) (o : main_program.Options) :
  ~ In (cstring arg) main_program.switches ->
  main_program.parse_loop w (arg :: rest) o =
  if bool_decide (main_program.inputFile o = None)
     && bool_decide (main_program.inputText o = None)
  then
    if access_R_OK w (cstring arg)
    then main_program.parse_loop w rest
           (main_program.set_inputFile (strdup_safe (Some arg)) o)
    else main_program.parse_loop w rest
           (main_program.set_inputText (strdup_safe (Some arg)) o)
  else main_program.parse_loop w rest o.
Proof.
  intros H. cbn [main_program.parse_loop].
  rewrite !strcmp_eq_false; [reflexivity|..];
    intros E; apply H; rewrite E; unfold main_program.switches;
    cbn [map In]; tauto.
Qed.

Lemma trim_newline_LF (l : list ascii) : trim_newline (l ++ [LF]) = l.
Proof.
  unfold trim_newline. rewrite last_snoc.
  change (Ascii.eqb LF LF) with true. cbv iota. apply removelast_last.
Qed.

Lemma decode_cstring (T : list MorseMapping) (heap1 heap2 : nat -> ascii)
    (a b : list ascii) :
  cstring a = cstring b -> decode T heap1 a = decode T heap2 b.
Proof. intros H. now rewrite !decode_spec, H. Qed.

(** The run [morse -e TEXT] with a terminal on the standard input. *)
Lemma main_encodes_argument (w : world) (name text : list ascii) :
  stdin_isatty w = true ->
  ~ In (cstring text) main_program.switches ->
  access_R_OK w (cstring text) = false ->
  0 < strlen text ->
  main_program.main w [name; str "-e"; text]
  = Some ([Stdout (str "Encoded: " ++ main_c.encode text ++ [LF])], 0%Z).
Proof.
  intros Htty Hsw Hacc Hpos.
  assert (Hparse : main_program.parseCommandLine w [name; str "-e"; text]
      = main_program.Returned
          {| main_program.help := false; main_program.programmerInfo := false;
             main_program.decode := false; main_program.encode := true;
             main_program.inputText := Some (cstring text);
             main_program.inputFile := None;
             main_program.outputFile := None;
             main_program.readFromPipe := isInputFromPipe w |}).
  { unfold main_program.parseCommandLine. cbn [drop].
    change (main_program.parse_loop w [str "-e"; text] ?o)
      with (main_program.parse_loop w [text] (main_program.set_encode o)).
    rewrite parse_loop_positional by exact Hsw.
    cbn [main_program.set_encode main_program.inputFile
         main_program.inputText].
    rewrite !bool_decide_eq_true_2 by reflexivity. cbn [andb].
    rewrite Hacc. reflexivity. }
  unfold main_program.main. rewrite Hparse.
  cbn [main_program.help main_program.programmerInfo
       main_program.readFromPipe main_program.decode
       main_program.outputFile main_program.inputFile
       main_program.inputText strdup_safe].
  unfold isInputFromPipe. rewrite Htty. cbn [negb].
  cbv beta iota zeta. rewrite cstring_idemp.
  destruct (main_c_encodeText_mem (fresh_bytes w) (cstring text))
    as (b & Hm & Hcb); [unfold strlen; now rewrite cstring_idemp|].
  rewrite Hm, Hcb.
  now rewrite (main_c_encode_cstring (cstring text) text (cstring_idemp text)).
Qed.

(** The same run with a pipe on the standard input: [TEXT] is set aside. *)
Lemma main_encodes_stdin (w : world) (name text : list ascii) :
  stdin_isatty w = false ->
  ~ In (cstring text) main_program.switches ->
  Forall (fun chunk => length chunk <= 1023) (stdin_reads w) ->
  0 < strlen (trim_newline (stdin_data (stdin_reads w))) ->
  main_program.main w [name; str "-e"; text]
  = Some ([Stdout (str "Encoded: "
                   ++ main_c.encode (stdin_data (stdin_reads w)) ++ [LF])],
          0%Z).
Proof.
  intros Htty Hsw Hr Hpos.
  assert (Hparse : exists o : main_program.Options,
            main_program.parseCommandLine w [name; str "-e"; text]
            = main_program.Returned o /\
            main_program.help o = false /\
            main_program.programmerInfo o = false /\
            main_program.decode o = false /\
            main_program.outputFile o = None /\
            main_program.readFromPipe o = true).
  { unfold main_program.parseCommandLine. cbn [drop].
    change (main_program.parse_loop w [str "-e"; text] ?o)
      with (main_program.parse_loop w [text] (main_program.set_encode o)).
    rewrite parse_loop_positional by exact Hsw.
    cbn [main_program.set_encode main_program.inputFile
         main_program.inputText].
    rewrite !bool_decide_eq_true_2 by reflexivity. cbn [andb].
    unfold isInputFromPipe. rewrite Htty.
    destruct (access_R_OK w (cstring text)); eexists;
      (split; [reflexivity|]); repeat split; reflexivity. }
  destruct Hparse as (o & Hparse & Hh & Hp & Hd & Ho & Hpipe).
  destruct (readFromStdin_Some w Hr) as (buf & Hb & _ & Hc).
  unfold main_program.main. rewrite Hparse, Hh, Hp, Hpipe, Hb, Hd, Ho.
  cbv beta iota zeta.
  destruct (main_c_encodeText_mem (fresh_bytes w) buf) as (b & Hm & Hcb).
  { now rewrite (strlen_cstring_eq _ _ Hc). }
  rewrite Hm, Hcb.
  unfold main_c.encode, main_c.encodeText. rewrite !encodeText_main_eq.
  now rewrite (encodeText_trimmed main_c.MORSE_TABLE false buf _ Hc).
Qed.

(** The run [morse -d] on the line that a run of [morse -e] has printed. *)
Lemma main_decodes_encoded_line (w : world) (name t : list ascii) :
  stdin_isatty w = false ->
  Forall (fun chunk => length chunk <= 1023) (stdin_reads w) ->
  stdin_data (stdin_reads w) = str "Encoded: " ++ main_c.encode t ++ [LF] ->
  main_program.main w [name; str "-d"]
  = Some ([Stdout (str "Decoded: " ++ normalize main_c.MORSE_TABLE t
                   ++ [LF])], 0%Z).
Proof.
  intros Htty Hr Hdata.
  assert (Hparse : main_program.parseCommandLine w [name; str "-d"]
    = main_program.Returned
        {| main_program.help := false; main_program.programmerInfo := false;
           main_program.decode := true; main_program.encode := false;
           main_program.inputText := None; main_program.inputFile := None;
           main_program.outputFile := None;
           main_program.readFromPipe := isInputFromPipe w |})
    by reflexivity.
  destruct (readFromStdin_Some w Hr) as (buf & Hb & _ & Hc).
  rewrite Hdata in Hc.
  rewrite app_assoc, trim_newline_LF in Hc.
  unfold main_program.main. rewrite Hparse.
  cbn [main_program.help main_program.programmerInfo
       main_program.readFromPipe main_program.decode
       main_program.outputFile].
  unfold isInputFromPipe. rewrite Htty. cbn [negb]. rewrite Hb.
  cbv beta iota zeta. unfold main_c.decodeText.
  destruct (decodeText_decode main_c.MORSE_TABLE (fresh_bytes w) buf)
    as (b & Hdt & Hdec).
  rewrite Hdt.
  rewrite (decode_cstring main_c.MORSE_TABLE (fresh_bytes w) (fresh_bytes w)
             buf _ Hc) in Hdec.
  unfold main_c.encode, main_c.encodeText in Hdec.
  rewrite encodeText_main_eq in Hdec.
  change (str "Encoded: ") with (str "Encoded:" ++ [SP]) in Hdec.
  rewrite <- app_assoc in Hdec.
  rewrite (decode_banner main_c.MORSE_TABLE false main_c_tidy) in Hdec.
  - injection Hdec as <-. reflexivity.
  - discriminate.
  - repeat constructor; discriminate.
  - vm_compute. reflexivity.
Qed.

(** X15. [morse -e TEXT | morse -d] with [main.c], [TEXT] being none of
    the option strings, the standard input of the second run being the
    pipe, and every [fread] on a pipe delivering at most [CHUNK_SIZE - 1]
    bytes.  The first run encodes [TEXT] when its own standard input is a
    terminal ([TEXT] holding at least one byte and [access] refusing it),
    and what it reads from its standard input when this is no terminal
    (at least one byte, once the newline is trimmed); it prints the
    encoding behind the banner.  The second run, which reads this line,
    prints the normalized form of what the first run has encoded: the
    banner is decoded as a code that no entry has, and is dropped. *)
Theorem encode_pipe_decode (w1 w2 : world) (name1 name2 text : list ascii) :
  ~ In (cstring text) main_program.switches ->
  stdin_isatty w2 = false ->
  Forall (fun chunk => length chunk <= 1023) (stdin_reads w2) ->
  (stdin_isatty w1 = true ->
   access_R_OK w1 (cstring text) = false ->
   0 < strlen text ->
   main_program.main w1 [name1; str "-e"; text]
   = Some ([Stdout (str "Encoded: " ++ main_c.encode text ++ [LF])], 0%Z) /\
   (stdin_data (stdin_reads w2)
    = str "Encoded: " ++ main_c.encode text ++ [LF] ->
    main_program.main w2 [name2; str "-d"]
    = Some ([Stdout (str "Decoded: " ++ normalize main_c.MORSE_TABLE text
                     ++ [LF])], 0%Z))) /\
  (stdin_isatty w1 = false ->
   Forall (fun chunk => length chunk <= 1023) (stdin_reads w1) ->
   0 < strlen (trim_newline (stdin_data (stdin_reads w1))) ->
   main_program.main w1 [name1; str "-e"; text]
   = Some ([Stdout (str "Encoded: "
                    ++ main_c.encode (stdin_data (stdin_reads w1)) ++ [LF])],
           0%Z) /\
   (stdin_data (stdin_reads w2)
    = str "Encoded: " ++ main_c.encode (stdin_data (stdin_reads w1)) ++ [LF] ->
    main_program.main w2 [name2; str "-d"]
    = Some ([Stdout (str "Decoded: "
                     ++ normalize main_c.MORSE_TABLE
                          (stdin_data (stdin_reads w1))
                     ++ [LF])], 0%Z))).
Proof.
  intros Hsw Htty2 Hr2. split.
  - intros Htty1 Hacc Hpos. split.
    + now apply main_encodes_argument.
    + now apply main_decodes_encoded_line.
  - intros Htty1 Hr1 Hpos. split.
    + now apply main_encodes_stdin.
    + now apply main_decodes_encoded_line.
Qed.

Lemma encode_pipe_decode_witness :
  ~ In (cstring (str "SOS now")) main_program.switches /\
  Forall (fun chunk => length chunk <= 1023)
    [str "Encoded: ... --- "; str "...   -. --- .--"; [LF]] /\
  0 < strlen (str "SOS now") /\
  main_program.main
    {| stdin_isatty := true; stdin_reads := [];
       access_R_OK := fun _ => false;
       fopen_r := fun _ => None; fopen_w := fun _ => None;
       fresh_bytes := x_heap |}
    [str "morse"; str "-e"; str "SOS now"]
  = Some ([Stdout (str "Encoded: ... --- ...   -. --- .--" ++ [LF])], 0%Z) /\
  main_program.main
    {| stdin_isatty := false;
       stdin_reads := [str "Encoded: ... --- "; str "...   -. --- .--"; [LF]];
       access_R_OK := fun _ => false;
       fopen_r := fun _ => None; fopen_w := fun _ => None;
       fresh_bytes := x_heap |}
    [str "morse"; str "-d"]
  = Some ([Stdout (str "Decoded: SOS NOW" ++ [LF])], 0%Z) /\
  Forall (fun chunk => length chunk <= 1023) [str "E"; [LF]] /\
  0 < strlen (trim_newline (stdin_data [str "E"; [LF]])) /\
  Forall (fun chunk => length chunk <= 1023) [str "Encoded: ."; [LF]] /\
  main_program.main
    {| stdin_isatty := false; stdin_reads := [str "E"; [LF]];
       access_R_OK := fun _ => false;
       fopen_r := fun _ => None; fopen_w := fun _ => None;
       fresh_bytes := x_heap |}
    [str "morse"; str "-e"; str "SOS now"]
  = Some ([Stdout (str "Encoded: ." ++ [LF])], 0%Z) /\
  main_program.main
    {| stdin_isatty := false; stdin_reads := [str "Encoded: ."; [LF]];
       access_R_OK := fun _ => false;
       fopen_r := fun _ => None; fopen_w := fun _ => None;
       fresh_bytes := x_heap |}
    [str "morse"; str "-d"]
  = Some ([Stdout (str "Decoded: E" ++ [LF])], 0%Z).
Proof.
  assert (H1 : ~ In (cstring (str "SOS now")) main_program.switches).
  { vm_compute. intros H. decompose [or] H; discriminate || contradiction. }
  assert (H2 : 0 < strlen (str "SOS now")) by (vm_compute; lia).
  assert (H3 : Forall (fun chunk => length chunk <= 1023)
                 [str "Encoded: ... --- "; str "...   -. --- .--"; [LF]])
    by (repeat constructor; cbn; lia).
  assert (H4 : Forall (fun chunk => length chunk <= 1023) [str "E"; [LF]])
    by (repeat constructor; cbn; lia).
  assert (H5 : 0 < strlen (trim_newline (stdin_data [str "E"; [LF]])))
    by (vm_compute; lia).
  assert (H6 : Forall (fun chunk => length chunk <= 1023)
                 [str "Encoded: ."; [LF]])
    by (repeat constructor; cbn; lia).
  destruct (encode_pipe_decode
              {| stdin_isatty := true; stdin_reads := [];
                 access_R_OK := fun _ => false;
                 fopen_r := fun _ => None; fopen_w := fun _ => None;
                 fresh_bytes := x_heap |}
              {| stdin_isatty := false;
                 stdin_reads :=
                   [str "Encoded: ... --- "; str "...   -. --- .--"; [LF]];
                 access_R_OK := fun _ => false;
                 fopen_r := fun _ => None; fopen_w := fun _ => None;
                 fresh_bytes := x_heap |}
              (str "morse") (str "morse") (str "SOS now") H1 eq_refl H3)
    as [A _].
  destruct (A eq_refl eq_refl H2) as [A1 A2].
  destruct (encode_pipe_decode
              {| stdin_isatty := false; stdin_reads := [str "E"; [LF]];
                 access_R_OK := fun _ => false;
                 fopen_r := fun _ => None; fopen_w := fun _ => None;
                 fresh_bytes := x_heap |}
              {| stdin_isatty := false;
                 stdin_reads := [str "Encoded: ."; [LF]];
                 access_R_OK := fun _ => false;
                 fopen_r := fun _ => None; fopen_w := fun _ => None;
                 fresh_bytes := x_heap |}
              (str "morse") (str "morse") (str "SOS now") H1 eq_refl H6)
    as [_ B].
  destruct (B eq_refl H4 H5) as [B1 B2].
  split; [exact H1|]. split; [exact H3|]. split; [exact H2|].
  split; [exact A1|]. split; [exact (A2 eq_refl)|].
  split; [exact H4|]. split; [exact H5|]. split; [exact H6|].
  split; [exact B1|exact (B2 eq_refl)].
Defined.

(** ** The runs of [morse.c] *)

Lemma morse_c_encodeText_mem (heap : nat -> ascii) (slash : bool)
    (t : list ascii) :
  0 < strlen t ->
  exists buf : list ascii,
    encodeText_mem morse_c.MORSE_TABLE heap (Some t) slash = inr buf /\
    cstring buf = morse_c.encode t slash.
Proof.
  intros Hpos.
  destruct (encodeText_mem_inr morse_c.MORSE_TABLE slash morse_c_short_codes
              heap t Hpos) as (buf & Hb & _ & Hc).
  exists buf. split; [exact Hb|exact Hc].
Qed.

Lemma morse_c_encode_cstring (a b : list ascii) (slash : bool) :
  cstring a = cstring b -> morse_c.encode a slash = morse_c.encode b slash.
Proof.
  intros H. unfold morse_c.encode, morse_c.encodeText, encodeText.
  now rewrite H.
Qed.

(** X16. The same pipe with [morse.c], from the options on, with either
    separator: the run that decodes the line printed by the run that
    encodes prints the normalized text. *)
Theorem morse_encode_pipe_decode (w1 w2 : world) (text : list ascii)
    (slash : bool) :
  0 < strlen text ->
  Forall (fun chunk => length chunk <= 1023) (stdin_reads w2) ->
  stdin_data (stdin_reads w2)
  = str "Encoded: " ++ morse_c.encode text slash ++ [LF] ->
  morse_program.main w1
    (morse_program.createSuccess
       {| morse_program.help := false; morse_program.programmerInfo := false;
          morse_program.decode := false; morse_program.encode := true;
          morse_program.slashWordspacer := slash;
          morse_program.inputText := Some text;
          morse_program.inputFile := None;
          morse_program.outputFile := None;
          morse_program.readFromPipe := false |})
  = Some ([Stdout (str "Encoded: " ++ morse_c.encode text slash ++ [LF])],
          0%Z) /\
  morse_program.main w2
    (morse_program.createSuccess
       {| morse_program.help := false; morse_program.programmerInfo := false;
          morse_program.decode := true; morse_program.encode := false;
          morse_program.slashWordspacer := false;
          morse_program.inputText := None;
          morse_program.inputFile := None;
          morse_program.outputFile := None;
          morse_program.readFromPipe := true |})
  = Some ([Stdout (str "Decoded: " ++ normalize morse_c.MORSE_TABLE text
                   ++ [LF])], 0%Z).
Proof.
  intros Hpos Hr Hdata. split.
  - unfold morse_program.main.
    cbn [morse_program.help morse_program.programmerInfo
         morse_program.readFromPipe morse_program.decode
         morse_program.outputFile morse_program.inputFile
         morse_program.inputText morse_program.slashWordspacer
         strdup_safe andb].
    cbv beta iota zeta.
    destruct (morse_c_encodeText_mem (fresh_bytes w1) slash (cstring text))
      as (b & Hm & Hcb); [unfold strlen; now rewrite cstring_idemp|].
    rewrite Hm, Hcb.
    now rewrite (morse_c_encode_cstring (cstring text) text slash
                   (cstring_idemp text)).
  - destruct (readFromStdin_Some w2 Hr) as (buf & Hb & _ & Hc).
    rewrite Hdata in Hc. rewrite app_assoc, trim_newline_LF in Hc.
    unfold morse_program.main, morse_program.readFromStdin.
    cbn [morse_program.help morse_program.programmerInfo
         morse_program.readFromPipe morse_program.decode
         morse_program.outputFile morse_program.slashWordspacer andb].
    rewrite Hb. cbv beta iota zeta. unfold morse_c.decodeText.
    destruct (decodeText_decode morse_c.MORSE_TABLE (fresh_bytes w2) buf)
      as (b & Hdt & Hdec).
    rewrite Hdt.
    rewrite (decode_cstring morse_c.MORSE_TABLE (fresh_bytes w2)
               (fresh_bytes w2) buf _ Hc) in Hdec.
    unfold morse_c.encode, morse_c.encodeText in Hdec.
    change (str "Encoded: ") with (str "Encoded:" ++ [SP]) in Hdec.
    rewrite <- app_assoc in Hdec.
    rewrite (decode_banner morse_c.MORSE_TABLE slash morse_c_tidy) in Hdec.
    + injection Hdec as <-. reflexivity.
    + discriminate.
    + repeat constructor; discriminate.
    + vm_compute. reflexivity.
Qed.

Lemma morse_encode_pipe_decode_witness :
  0 < strlen (str "SOS now") /\
  Forall (fun chunk => length chunk <= 1023)
    [str "Encoded: ... --- "; str "... / -. --- .--"; [LF]] /\
  morse_program.main
    {| stdin_isatty := false;
       stdin_reads := [str "Encoded: ... --- "; str "... / -. --- .--"; [LF]];
       access_R_OK := fun _ => false;
       fopen_r := fun _ => None; fopen_w := fun _ => None;
       fresh_bytes := x_heap |}
    (morse_program.createSuccess
       {| morse_program.help := false; morse_program.programmerInfo := false;
          morse_program.decode := true; morse_program.encode := false;
          morse_program.slashWordspacer := false;
          morse_program.inputText := None;
          morse_program.inputFile := None;
          morse_program.outputFile := None;
          morse_program.readFromPipe := true |})
  = Some ([Stdout (str "Decoded: SOS NOW" ++ [LF])], 0%Z).
Proof.
  assert (H2 : 0 < strlen (str "SOS now")) by (vm_compute; lia).
  assert (H3 : Forall (fun chunk => length chunk <= 1023)
                 [str "Encoded: ... --- "; str "... / -. --- .--"; [LF]])
    by (repeat constructor; cbn; lia).
  split; [exact H2|]. split; [exact H3|].
  exact (proj2 (morse_encode_pipe_decode
           {| stdin_isatty := true; stdin_reads := [];
              access_R_OK := fun _ => false;
              fopen_r := fun _ => None; fopen_w := fun _ => None;
              fresh_bytes := x_heap |}
           {| stdin_isatty := false;
              stdin_reads :=
                [str "Encoded: ... --- "; str "... / -. --- .--"; [LF]];
              access_R_OK := fun _ => false;
              fopen_r := fun _ => None; fopen_w := fun _ => None;
              fresh_bytes := x_heap |}
           (str "SOS now") true H2 H3 eq_refl)).
Defined.

(** X17. [main] of [morse.c] refuses the separator flag together with
    decoding, whatever the input and the output are: the run ends with
    status 1, prints no result and writes no file. *)
Theorem decode_rejects_slash_flag (w : world) (o : morse_program.Options) :
  morse_program.help o = false -> morse_program.programmerInfo o = false ->
  morse_program.decode o = true -> morse_program.slashWordspacer o = true ->
  Forall (fun chunk => length chunk <= 1023) (stdin_reads w) ->
  exists trace : list effect,
    morse_program.main w (morse_program.createSuccess o) = Some (trace, 1%Z) /\
    Forall silent trace.
Proof.
  intros Hh Hp Hd Hs Hr. unfold morse_program.main.
  rewrite Hh, Hp, Hd, Hs. cbn [andb].
  destruct (morse_program.readFromPipe o).
  - unfold morse_program.readFromStdin.
    destruct (readFromStdin_Some w Hr) as (buf & -> & _).
    eexists. split; [reflexivity|]. repeat constructor.
  - destruct (morse_program.inputFile o) as [file|].
    + destruct (morse_readFileContent_returns w file) as (r & ->).
      destruct r; eexists; (split; [reflexivity|]); repeat constructor.
    + destruct (morse_program.inputText o) as [text|].
      * eexists. split; [reflexivity|]. repeat constructor.
      * eexists. split; [reflexivity|]. repeat constructor.
Qed.

Lemma decode_rejects_slash_flag_witness :
  Forall (fun chunk => length chunk <= 1023) (@nil (list ascii)) /\
  exists trace : list effect,
    morse_program.main
      {| stdin_isatty := true; stdin_reads := [];
         access_R_OK := fun _ => false;
         fopen_r := fun _ => None; fopen_w := fun _ => None;
         fresh_bytes := x_heap |}
      (morse_program.createSuccess
         {| morse_program.help := false; morse_program.programmerInfo := false;
            morse_program.decode := true; morse_program.encode := false;
            morse_program.slashWordspacer := true;
            morse_program.inputText := Some (str "... / ---");
            morse_program.inputFile := None;
            morse_program.outputFile := Some (str "out.txt");
            morse_program.readFromPipe := false |})
    = Some (trace, 1%Z) /\
    Forall silent trace.
Proof.
  split; [constructor|].
  exact (decode_rejects_slash_flag
           {| stdin_isatty := true; stdin_reads := [];
              access_R_OK := fun _ => false;
              fopen_r := fun _ => None; fopen_w := fun _ => None;
              fresh_bytes := x_heap |}
           {| morse_program.help := false;
              morse_program.programmerInfo := false;
              morse_program.decode := true; morse_program.encode := false;
              morse_program.slashWordspacer := true;
              morse_program.inputText := Some (str "... / ---");
              morse_program.inputFile := None;
              morse_program.outputFile := Some (str "out.txt");
              morse_program.readFromPipe := false |}
           eq_refl eq_refl eq_refl eq_refl (List.Forall_nil _)).
Defined.

(** ** [morse -e TEXT -o FILE], then [morse -d FILE] *)

Lemma main_c_encode_nonul (text : list ascii) : nonul (main_c.encode text).
Proof.
  unfold main_c.encode, main_c.encodeText. rewrite encodeText_main_eq.
  apply encodeText_nonul.
Qed.

(** X18. [morse -e TEXT -o FILE] and then [morse -d FILE] with [main.c],
    both runs with a terminal on the standard input, [TEXT] of at least
    one byte, none of the option strings and refused by [access], [FILE]
    opened for writing by the first run and, in the second run, none of
    the option strings, accepted by [access] and holding the encoding.
    When [fwrite] accepts the whole encoding the first run ends with
    status 0 and no message, whatever has reached the file when [fclose]
    returns: the whole encoding, without banner and newline, or its first
    bytes only.  When [fwrite] accepts less, the file holds first bytes of
    the encoding and the run ends with a message and status 1.  The second
    run prints the normalized text. *)
Theorem encode_file_decode (w1 w2 : world)
    (name1 name2 text file : list ascii) (accepted stored : nat) :
  stdin_isatty w1 = true ->
  ~ In (cstring text) main_program.switches ->
  access_R_OK w1 (cstring text) = false ->
  0 < strlen text ->
  fopen_w w1 (cstring file) = Some (accepted, stored) ->
  stdin_isatty w2 = true ->
  ~ In (cstring file) main_program.switches ->
  access_R_OK w2 (cstring file) = true ->
  fopen_r w2 (cstring file)
  = Some (Some (length (main_c.encode text)), main_c.encode text) ->
  (length (main_c.encode text) <= accepted ->
   main_program.main w1 [name1; str "-e"; text; str "-o"; file]
   = Some ([FileWrite (cstring file) (take stored (main_c.encode text))],
           0%Z) /\
   (length (main_c.encode text) <= stored ->
    main_program.main w1 [name1; str "-e"; text; str "-o"; file]
    = Some ([FileWrite (cstring file) (main_c.encode text)], 0%Z))) /\
  (accepted < length (main_c.encode text) ->
   main_program.main w1 [name1; str "-e"; text; str "-o"; file]
   = Some ([FileWrite (cstring file)
              (take (Nat.min accepted stored) (main_c.encode text));
            Stderr (str "Error: Could not write to output file '"
                    ++ cstring file ++ str "'" ++ [LF])], 1%Z)) /\
  main_program.main w2 [name2; str "-d"; file]
  = Some ([Stdout (str "Decoded: " ++ normalize main_c.MORSE_TABLE text
                   ++ [LF])], 0%Z).
Proof.
  intros Htty1 Hsw Hacc Hpos Hw Htty2 Hsf Hacf Hf.
  assert (Hparse : main_program.parseCommandLine w1
                     [name1; str "-e"; text; str "-o"; file]
      = main_program.Returned
          {| main_program.help := false; main_program.programmerInfo := false;
             main_program.decode := false; main_program.encode := true;
             main_program.inputText := Some (cstring text);
             main_program.inputFile := None;
             main_program.outputFile := Some (cstring file);
             main_program.readFromPipe := isInputFromPipe w1 |}).
  { unfold main_program.parseCommandLine. cbn [drop].
    change (main_program.parse_loop w1 (str "-e" :: ?l) ?o)
      with (main_program.parse_loop w1 l (main_program.set_encode o)).
    rewrite parse_loop_positional by exact Hsw.
    cbn [main_program.set_encode main_program.inputFile
         main_program.inputText].
    rewrite !bool_decide_eq_true_2 by reflexivity. cbn [andb].
    rewrite Hacc. reflexivity. }
  assert (Hrun : exists b : list ascii,
            cstring b = main_c.encode text /\
            main_program.main w1 [name1; str "-e"; text; str "-o"; file]
            = let (written, ok) :=
                main_program.writeFileContent w1 (cstring file) b in
              if ok then Some (written, 0%Z)
              else Some (written ++
                         [Stderr (str "Error: Could not write to output file '"
                                  ++ cstring file ++ str "'" ++ [LF])], 1%Z)).
  { destruct (main_c_encodeText_mem (fresh_bytes w1) (cstring text))
      as (b & Hm & Hcb); [unfold strlen; now rewrite cstring_idemp|].
    exists b. split.
    - rewrite Hcb. apply main_c_encode_cstring, cstring_idemp.
    - unfold main_program.main. rewrite Hparse.
      cbn [main_program.help main_program.programmerInfo
           main_program.readFromPipe main_program.decode
           main_program.outputFile main_program.inputFile
           main_program.inputText strdup_safe].
      unfold isInputFromPipe. rewrite Htty1. cbn [negb].
      cbv beta iota zeta. rewrite cstring_idemp, Hm, cstring_idemp.
      reflexivity. }
  destruct Hrun as (b & Hb & Hrun).
  unfold main_program.writeFileContent in Hrun.
  rewrite cstring_idemp, Hw in Hrun. unfold strlen in Hrun.
  rewrite Hb in Hrun.
  split; [|split].
  - intros Hle. rewrite Nat.min_l in Hrun by exact Hle.
    rewrite Nat.eqb_refl in Hrun. split.
    + rewrite Hrun. do 3 f_equal.
      destruct (le_lt_dec (length (main_c.encode text)) stored).
      * rewrite Nat.min_l by lia. now rewrite !take_ge by lia.
      * now rewrite Nat.min_r by lia.
    + intros Hst. rewrite Hrun, Nat.min_l by exact Hst.
      now rewrite take_ge by lia.
  - intros Hlt. rewrite Hrun, (Nat.min_r _ accepted) by lia.
    replace (accepted =? length (main_c.encode text)) with false
      by (symmetry; apply Nat.eqb_neq; lia).
    reflexivity.
  - assert (Hparse2 : main_program.parseCommandLine w2
                        [name2; str "-d"; file]
      = main_program.Returned
          {| main_program.help := false; main_program.programmerInfo := false;
             main_program.decode := true; main_program.encode := false;
             main_program.inputText := None;
             main_program.inputFile := Some (cstring file);
             main_program.outputFile := None;
             main_program.readFromPipe := isInputFromPipe w2 |}).
    { unfold main_program.parseCommandLine. cbn [drop].
      change (main_program.parse_loop w2 (str "-d" :: ?l) ?o)
        with (main_program.parse_loop w2 l (main_program.set_decode o)).
      rewrite parse_loop_positional by exact Hsf.
      cbn [main_program.set_decode main_program.inputFile
           main_program.inputText].
      rewrite !bool_decide_eq_true_2 by reflexivity. cbn [andb].
      rewrite Hacf. reflexivity. }
    assert (Hf' : fopen_r w2 (cstring (cstring file))
                  = Some (Some (length (main_c.encode text)),
                          main_c.encode text))
      by now rewrite cstring_idemp.
    destruct (readFileContent_Some w2 (cstring file) _ _ Hf' (le_n _))
      as (buf & Hbuf & _ & Hc).
    rewrite take_ge in Hc by lia.
    unfold main_program.main. rewrite Hparse2.
    cbn [main_program.help main_program.programmerInfo
         main_program.readFromPipe main_program.decode
         main_program.outputFile main_program.inputFile
         main_program.inputText].
    unfold isInputFromPipe. rewrite Htty2. cbn [negb]. rewrite Hbuf.
    cbv beta iota zeta. unfold main_c.decodeText.
    destruct (decodeText_decode main_c.MORSE_TABLE (fresh_bytes w2) buf)
      as (b2 & Hdt & Hdec).
    rewrite Hdt.
    rewrite (decode_trimmed main_c.MORSE_TABLE (fresh_bytes w2)
               (fresh_bytes w2) buf _ Hc) in Hdec.
    fold (main_c.decode (fresh_bytes w2) (main_c.encode text)) in Hdec.
    rewrite main_c_decode_encode in Hdec.
    injection Hdec as <-. reflexivity.
Qed.

Lemma encode_file_decode_witness :
  ~ In (cstring (str "SOS now")) main_program.switches /\
  0 < strlen (str "SOS now") /\
  ~ In (cstring (str "out.txt")) main_program.switches /\
  length (main_c.encode (str "SOS now")) <= 4096 /\
  main_program.main
    {| stdin_isatty := true; stdin_reads := [];
       access_R_OK := fun _ => false;
       fopen_r := fun _ => None; fopen_w := fun _ => Some (4096, 5);
       fresh_bytes := x_heap |}
    [str "morse"; str "-e"; str "SOS now"; str "-o"; str "out.txt"]
  = Some ([FileWrite (str "out.txt") (str "... -")], 0%Z) /\
  main_program.main
    {| stdin_isatty := true; stdin_reads := [];
       access_R_OK := fun _ => true;
       fopen_r := fun _ => Some (Some 24, str "... --- ...   -. --- .--");
       fopen_w := fun _ => None;
       fresh_bytes := x_heap |}
    [str "morse"; str "-d"; str "out.txt"]
  = Some ([Stdout (str "Decoded: SOS NOW" ++ [LF])], 0%Z).
Proof.
  assert (H1 : ~ In (cstring (str "SOS now")) main_program.switches).
  { vm_compute. intros H. decompose [or] H; discriminate || contradiction. }
  assert (H2 : 0 < strlen (str "SOS now")) by (vm_compute; lia).
  assert (H3 : ~ In (cstring (str "out.txt")) main_program.switches).
  { vm_compute. intros H. decompose [or] H; discriminate || contradiction. }
  assert (H4 : length (main_c.encode (str "SOS now")) <= 4096)
    by (vm_compute; lia).
  destruct (encode_file_decode
              {| stdin_isatty := true; stdin_reads := [];
                 access_R_OK := fun _ => false;
                 fopen_r := fun _ => None; fopen_w := fun _ => Some (4096, 5);
                 fresh_bytes := x_heap |}
              {| stdin_isatty := true; stdin_reads := [];
                 access_R_OK := fun _ => true;
                 fopen_r :=
                   fun _ => Some (Some 24, str "... --- ...   -. --- .--");
                 fopen_w := fun _ => None;
                 fresh_bytes := x_heap |}
              (str "morse") (str "morse") (str "SOS now") (str "out.txt")
              4096 5
              eq_refl H1 eq_refl H2 eq_refl eq_refl H3 eq_refl eq_refl)
    as (A & _ & B).
  split; [exact H1|]. split; [exact H2|]. split; [exact H3|].
  split; [exact H4|]. split; [exact (proj1 (A H4))|exact B].
Defined.
